(** * SLA hollowing: drain-hole geometry and the interior-shell pipeline

    A shallow embedding of [libslic3r/SLA/Hollowing.cpp].

    Numbers are IEEE-754 binary floating-point values, modelled with the
    executable specification of the Standard Library ([SpecFloat]):
    C++ [float] is binary32 (precision 24, emax 128), [double] is binary64
    (precision 53, emax 1024), every operation rounds to nearest, ties to
    even.  Release-build behaviour is modelled: [assert] has no effect.

    The linear-algebra primitives ([Vec3f], [Hyperplane],
    [ParametrizedLine]) are those of Eigen 3.3, which the source calls;
    a three-term reduction is evaluated as [a0 + (a1 + a2)], the order of
    Eigen's unrolled scalar reduction.  [pow(x, 2.f)] is modelled as the
    correctly rounded square [x * x].

    [generate_interior] instantiates the template [_generate_interior] at
    [TriangleMesh]; that instance is the one modelled.  The calls it makes
    to the controller, the log and the volumetric engine are events of a
    small interaction monad, so that a run yields its result together with
    the trace of calls, whatever the surroundings answer.  Of the
    [Contour3D] instance the overload of [_scale], which multiplies the
    points in place, is modelled. *)

From Stdlib Require Import ZArith Bool List String Lia.
From Stdlib Require Import Floats.SpecFloat.
Import ListNotations.
Local Open Scope Z_scope.

(* ================================================================== *)
(** ** Floating-point formats *)

(** Integer to floating point, as the C++ conversion does. *)
Definition Z2SF (prec emax : Z) (z : Z) : spec_float :=
  binary_normalize prec emax z 0 false.

(** Conversion between formats ([float(x)], [double(x)], [cast<double>()]):
    exact when widening, rounding when narrowing. *)
Definition SFconv (prec emax : Z) (x : spec_float) : spec_float :=
  match x with
  | S754_finite s m e => binary_round prec emax s m e
  | _ => x
  end.

Definition is_nan (x : spec_float) : bool :=
  match x with
  | S754_nan => true
  | _ => false
  end.

(** The float that rounding leaves for the sign [s], the rounded mantissa
    [M1] and the exponent [e1]: a zero, the pair itself, the pair
    renormalized after a carry into bit [prec], or an infinity. *)
Definition rounded (prec emax : Z) (s : bool) (M1 e1 : Z) : spec_float :=
  if M1 =? 0 then S754_zero s
  else if M1 <? 2 ^ prec
       then (if e1 <=? emax - prec then S754_finite s (Z.to_pos M1) e1
             else S754_infinity s)
       else (if e1 + 1 <=? emax - prec
             then S754_finite s (Z.to_pos (2 ^ (prec - 1))) (e1 + 1)
             else S754_infinity s).

(** The results an operation may return for a sign [s]. *)
Definition signed_as (s : bool) (x : spec_float) : Prop :=
  match x with
  | S754_nan => True
  | S754_zero s' | S754_infinity s' | S754_finite s' _ _ => s' = s
  end.

(** C++ [float]. *)
Module F32.
Definition prec : Z := 24.
Definition emax : Z := 128.
Definition t : Type := spec_float.
Definition of_Z : Z -> t := Z2SF prec emax.
Definition add : t -> t -> t := SFadd prec emax.
Definition sub : t -> t -> t := SFsub prec emax.
Definition mul : t -> t -> t := SFmul prec emax.
Definition div : t -> t -> t := SFdiv prec emax.
Definition sqrt : t -> t := SFsqrt prec emax.
Definition opp : t -> t := SFopp.
Definition abs : t -> t := SFabs.
Definition ltb : t -> t -> bool := SFltb.
Definition leb : t -> t -> bool := SFleb.
Definition eqb : t -> t -> bool := SFeqb.
Definition gtb (a b : t) : bool := SFltb b a.
Definition valid : t -> bool := valid_binary prec emax.
Definition zero : t := of_Z 0.
Definition one : t := of_Z 1.
Definition two : t := of_Z 2.
Definition nan : t := S754_nan.
(** [pow(x, 2.f)] *)
Definition sqr (x : t) : t := mul x x.
End F32.

(** C++ [double]. *)
Module F64.
Definition prec : Z := 53.
Definition emax : Z := 1024.
Definition t : Type := spec_float.
Definition of_Z : Z -> t := Z2SF prec emax.
Definition add : t -> t -> t := SFadd prec emax.
Definition sub : t -> t -> t := SFsub prec emax.
Definition mul : t -> t -> t := SFmul prec emax.
Definition div : t -> t -> t := SFdiv prec emax.
Definition opp : t -> t := SFopp.
Definition abs : t -> t := SFabs.
Definition ltb : t -> t -> bool := SFltb.
Definition leb : t -> t -> bool := SFleb.
Definition eqb : t -> t -> bool := SFeqb.
Definition gtb (a b : t) : bool := SFltb b a.
Definition valid : t -> bool := valid_binary prec emax.
Definition zero : t := of_Z 0.
Definition one : t := of_Z 1.
(** [double(x)] of a [float] *)
Definition of_float : F32.t -> t := SFconv prec emax.
(** [float(x)] of a [double] *)
Definition to_float : t -> F32.t := SFconv F32.prec F32.emax.
End F64.

Declare Scope f32_scope.
Delimit Scope f32_scope with f32.
Infix "+" := F32.add : f32_scope.
Infix "-" := F32.sub : f32_scope.
Infix "*" := F32.mul : f32_scope.
Infix "/" := F32.div : f32_scope.
Infix "<?" := F32.ltb : f32_scope.
Infix "<=?" := F32.leb : f32_scope.
Infix ">?" := F32.gtb : f32_scope.
Notation "- x" := (F32.opp x) : f32_scope.

Declare Scope f64_scope.
Delimit Scope f64_scope with f64.
Infix "+" := F64.add : f64_scope.
Infix "-" := F64.sub : f64_scope.
Infix "*" := F64.mul : f64_scope.
Infix "/" := F64.div : f64_scope.
Infix "<?" := F64.ltb : f64_scope.
Infix "<=?" := F64.leb : f64_scope.
Infix ">?" := F64.gtb : f64_scope.
Notation "- x" := (F64.opp x) : f64_scope.

(* ================================================================== *)
(** ** Eigen vectors, planes and lines *)

Record Vec3f : Type := mkVec3f { vx : F32.t; vy : F32.t; vz : F32.t }.
Record Vec3d : Type := mkVec3d { dx : F64.t; dy : F64.t; dz : F64.t }.

Module Vec3.
Local Open Scope f32_scope.

Definition map (f : F32.t -> F32.t) (a : Vec3f) : Vec3f :=
  mkVec3f (f (vx a)) (f (vy a)) (f (vz a)).
Definition zip (f : F32.t -> F32.t -> F32.t) (a b : Vec3f) : Vec3f :=
  mkVec3f (f (vx a) (vx b)) (f (vy a) (vy b)) (f (vz a) (vz b)).

Definition add : Vec3f -> Vec3f -> Vec3f := zip F32.add.
Definition sub : Vec3f -> Vec3f -> Vec3f := zip F32.sub.
(** [v * s] and [s * v] *)
Definition scale (a : Vec3f) (s : F32.t) : Vec3f := map (fun c => c * s) a.
Definition lscale (s : F32.t) (a : Vec3f) : Vec3f := map (fun c => s * c) a.
(** [v / s] *)
Definition divs (a : Vec3f) (s : F32.t) : Vec3f := map (fun c => c / s) a.

Definition dot (a b : Vec3f) : F32.t :=
  vx a * vx b + (vy a * vy b + vz a * vz b).
Definition squaredNorm (a : Vec3f) : F32.t := dot a a.
Definition norm (a : Vec3f) : F32.t := F32.sqrt (squaredNorm a).
(** [v.normalized()]: the vector itself when its squared norm is not
    positive. *)
Definition normalized (a : Vec3f) : Vec3f :=
  let z := squaredNorm a in
  if z >? F32.zero then divs a (F32.sqrt z) else a.

(** [v.cast<double>()] *)
Definition cast (a : Vec3f) : Vec3d :=
  mkVec3d (F64.of_float (vx a)) (F64.of_float (vy a)) (F64.of_float (vz a)).
(** [s * v] on [Vec3d] *)
Definition lscaled (s : F64.t) (a : Vec3d) : Vec3d :=
  mkVec3d (F64.mul s (dx a)) (F64.mul s (dy a)) (F64.mul s (dz a)).
Definition Zero : Vec3d := mkVec3d F64.zero F64.zero F64.zero.

Definition all_nan (a : Vec3f) : Prop :=
  vx a = S754_nan /\ vy a = S754_nan /\ vz a = S754_nan.
End Vec3.

(** [Eigen::Hyperplane<float, 3>]: unit normal and offset. *)
Record Hyperplane : Type := mkPlane { pl_normal : Vec3f; pl_offset : F32.t }.

Module Plane.
Local Open Scope f32_scope.
(** [Hyperplane(n, e)]: the plane through [e] with normal [n]. *)
Definition make (n e : Vec3f) : Hyperplane := mkPlane n (- Vec3.dot n e).
Definition signedDistance (pl : Hyperplane) (p : Vec3f) : F32.t :=
  Vec3.dot (pl_normal pl) p + pl_offset pl.
Definition projection (pl : Hyperplane) (p : Vec3f) : Vec3f :=
  Vec3.sub p (Vec3.lscale (signedDistance pl p) (pl_normal pl)).
End Plane.

(** [Eigen::ParametrizedLine<float, 3>]: origin and direction. *)
Record ParametrizedLine : Type := mkLine { origin : Vec3f; direction : Vec3f }.

Module Line.
Local Open Scope f32_scope.
Definition pointAt (l : ParametrizedLine) (t : F32.t) : Vec3f :=
  Vec3.add (origin l) (Vec3.scale (direction l) t).
Definition squaredDistance (l : ParametrizedLine) (p : Vec3f) : F32.t :=
  let diff := Vec3.sub p (origin l) in
  Vec3.squaredNorm
    (Vec3.sub diff (Vec3.lscale (Vec3.dot (direction l) diff) (direction l))).
Definition projection (l : ParametrizedLine) (p : Vec3f) : Vec3f :=
  Vec3.add (origin l)
    (Vec3.lscale (Vec3.dot (direction l) (Vec3.sub p (origin l))) (direction l)).
Definition intersectionParameter (l : ParametrizedLine) (pl : Hyperplane) : F32.t :=
  - (pl_offset pl + Vec3.dot (pl_normal pl) (origin l))
    / Vec3.dot (pl_normal pl) (direction l).
Definition intersectionPoint (l : ParametrizedLine) (pl : Hyperplane) : Vec3f :=
  pointAt l (intersectionParameter l pl).
End Line.

(* ================================================================== *)
(** ** DrainHole *)

Record DrainHole : Type := mkDrainHole {
  pos : Vec3f;
  normal : Vec3f;
  radius : F32.t;
  height : F32.t
}.

(** One entry of the output array: ray parameter and inward normal. *)
Definition Hit : Type := (F32.t * Vec3d)%type.

(** The output array [std::array<std::pair<float, Vec3d>, 2>]. *)
Definition Hits : Type := (Hit * Hit)%type.

(** [out[i] = h]; the source only writes at indices 0 and 1. *)
Definition set_out (out : Hits) (i : nat) (h : Hit) : Hits :=
  match i with
  | O => (h, snd out)
  | S O => (fst out, h)
  | _ => out
  end.

(** The pair [(found, out)] the function updates while it looks for hits. *)
Definition Found : Type := (nat * Hits)%type.

(** [out[found] = h; ++found;] *)
Definition accept (st : Found) (h : Hit) : Found :=
  (S (fst st), set_out (snd st) (fst st) h).

(** Both entries start as a NaN parameter and the zero vector. *)
Definition out_init : Hits :=
  ((F32.nan, Vec3.Zero), (F32.nan, Vec3.Zero)).

Section DrainHoleGeometry.
(** The tolerance constant and the approximate comparison come from
    headers of the library that are not part of this file's source; the
    geometry is stated for any such pair. *)
Variable EPSILON : F64.t.
Variable is_approx : F32.t -> F32.t -> bool.

Local Open Scope f32_scope.

(** Axial signed distance and squared radial distance, as [is_inside]
    computes them. *)
Definition axial_distance (h : DrainHole) (pt : Vec3f) : F32.t :=
  Plane.signedDistance (Plane.make (normal h) (pos h)) pt.

Definition radial_sqr_distance (h : DrainHole) (pt : Vec3f) : F32.t :=
  Line.squaredDistance (mkLine (pos h) (normal h)) pt.

Definition is_inside (h : DrainHole) (pt : Vec3f) : bool :=
  let dist := axial_distance h pt in
  if (F64.of_float dist <? EPSILON)%f64 || (dist >? height h) then false
  else if radial_sqr_distance h pt <? F32.sqr (radius h) then true
  else false.

(** [ray(s, dir.normalized())] *)
Definition ray_of (s dir : Vec3f) : ParametrizedLine :=
  mkLine s (Vec3.normalized dir).

Definition sqr_radius (h : DrainHole) : F32.t := F32.sqr (radius h).

(** Centre of the bounding sphere, [pos+normal*height/2.f]. *)
Definition center (h : DrainHole) : Vec3f :=
  Vec3.add (pos h) (Vec3.divs (Vec3.scale (normal h) (height h)) F32.two).

Definition sqr_dist_limit (h : DrainHole) : F32.t :=
  F32.sqr (height h / F32.two) + sqr_radius h.

Definition outside_bounding_sphere (h : DrainHole) (ray : ParametrizedLine) : bool :=
  Line.squaredDistance ray (center h) >? sqr_dist_limit h.

(** [pos+i*height*normal] *)
Definition cylinder_center (h : DrainHole) (i : Z) : Vec3f :=
  Vec3.add (pos h) (Vec3.lscale (F32.of_Z i * height h) (normal h)).

Definition cap_plane (h : DrainHole) (i : Z) : Hyperplane :=
  Plane.make (normal h) (cylinder_center h i).

(** The acceptance test of one end cap. *)
Definition cap_accepts (h : DrainHole) (ray : ParametrizedLine) (i : Z) : bool :=
  Vec3.squaredNorm
    (Vec3.sub (cylinder_center h i) (Line.intersectionPoint ray (cap_plane h i)))
  <? sqr_radius h.

Definition cap_hit (h : DrainHole) (ray : ParametrizedLine) (i : Z) : Hit :=
  (Line.intersectionParameter ray (cap_plane h i),
   Vec3.lscaled (if Z.eqb i 0 then F64.one else F64.opp F64.one)
                (Vec3.cast (normal h))).

(** One iteration of the loop over the end caps. *)
Definition cap_iter (h : DrainHole) (ray : ParametrizedLine) (i : Z) (st : Found) : Found :=
  if cap_accepts h ray i then accept st (cap_hit h ray i) else st.

Definition not_parallel_to_caps (h : DrainHole) (ray : ParametrizedLine) : bool :=
  negb (is_approx (Vec3.dot (direction ray) (normal h)) F32.zero).

(** The end-cap phase: [for (size_t i=1; i<=1; --i)] runs with [i = 1],
    then [i = 0].  Returns the updated [(found, out)] and the value left
    in [base]. *)
Definition caps (h : DrainHole) (ray : ParametrizedLine) : Found * Hyperplane :=
  if not_parallel_to_caps h ray
  then (cap_iter h ray 0 (cap_iter h ray 1 (O, out_init)), cap_plane h 0)
  else ((O, out_init), Plane.make (normal h) (pos h)).

(** The values the lateral-wall phase derives from the projected ray. *)
Record WallSetup : Type := mkWallSetup {
  proj_origin : Vec3f;
  par_scale : F32.t;
  projected_ray : ParametrizedLine;
  closest : Vec3f;
  sqrt_arg : F32.t;
  wall_dist : F32.t
}.

Definition wall_setup (h : DrainHole) (ray : ParametrizedLine) (base : Hyperplane) : WallSetup :=
  let proj_origin := Plane.projection base (origin ray) in
  let proj_dir :=
    Vec3.sub (Plane.projection base (Vec3.add (origin ray) (direction ray))) proj_origin in
  let par_scale := Vec3.norm proj_dir in
  let proj_dir := Vec3.divs proj_dir par_scale in
  let projected_ray := mkLine proj_origin proj_dir in
  let closest := Line.projection projected_ray (pos h) in
  let arg := sqr_radius h - Vec3.squaredNorm (Vec3.sub closest (pos h)) in
  mkWallSetup proj_origin par_scale projected_ray closest arg (F32.sqrt arg).

(** A wall candidate, for [i = -1] or [i = 1]. *)
Definition wall_isect (w : WallSetup) (i : Z) : Vec3f :=
  Vec3.add (closest w)
    (Vec3.lscale (F32.of_Z i * wall_dist w) (direction (projected_ray w))).

Definition wall_par (w : WallSetup) (i : Z) : F32.t :=
  Vec3.norm (Vec3.sub (wall_isect w i) (proj_origin w)) / par_scale w.

Definition wall_vert_dist (ray : ParametrizedLine) (base : Hyperplane) (w : WallSetup) (i : Z) : F32.t :=
  Plane.signedDistance base (Line.pointAt ray (wall_par w i)).

Definition wall_accepts (h : DrainHole) (ray : ParametrizedLine) (base : Hyperplane)
    (w : WallSetup) (i : Z) : bool :=
  let vert_dist := wall_vert_dist ray base w i in
  (vert_dist >? F32.zero) && (vert_dist <? height h).

Definition wall_hit (h : DrainHole) (w : WallSetup) (i : Z) : Hit :=
  (wall_par w i, Vec3.cast (Vec3.normalized (Vec3.sub (pos h) (wall_isect w i)))).

(** One iteration of [for (int i=-1; i<=1 && found !=2; i+=2)]. *)
Definition wall_iter (h : DrainHole) (ray : ParametrizedLine) (base : Hyperplane)
    (w : WallSetup) (i : Z) (st : Found) : Found :=
  if Nat.eqb (fst st) 2 then st
  else if wall_accepts h ray base w i then accept st (wall_hit h w i) else st.

Definition wall_runs (h : DrainHole) (ray : ParametrizedLine) (st : Found) : bool :=
  negb (Nat.eqb (fst st) 2)
  && negb (is_approx (F32.abs (Vec3.dot (direction ray) (normal h))) F32.one).

Definition wall (h : DrainHole) (ray : ParametrizedLine) (base : Hyperplane) (st : Found) : Found :=
  if wall_runs h ray st then
    let w := wall_setup h ray base in
    wall_iter h ray base w 1 (wall_iter h ray base w (-1) st)
  else st.

(** [(found, out)] when the function reaches its final test; nothing is
    accepted when the bounding sphere rejects the line. *)
Definition hits_found (h : DrainHole) (s dir : Vec3f) : Found :=
  let ray := ray_of s dir in
  if outside_bounding_sphere h ray then (O, out_init)
  else
    let '(st, base) := caps h ray in
    wall h ray base st.

(** [if (out[0].first > out[1].first) std::swap(out[0], out[1]);] *)
Definition sort_hits (out : Hits) : Hits :=
  if fst (fst out) >? fst (snd out) then (snd out, fst out) else out.

(** The returned flag together with the array written through [out]. *)
Definition get_intersections (h : DrainHole) (s dir : Vec3f) : bool * Hits :=
  let '(found, out) := hits_found h s dir in
  if negb (Nat.eqb found 2) then (false, out)
  else (true, sort_hits out).

End DrainHoleGeometry.

(** [v == w] on vectors: every pair of coefficients compares equal
    (Eigen's [cwiseEqual(w).all()]); a NaN coefficient equals nothing,
    and the two zeros are equal. *)
Definition Vec3f_eqb (a b : Vec3f) : bool :=
  F32.eqb (vx a) (vx b) && F32.eqb (vy a) (vy b) && F32.eqb (vz a) (vz b).

(** [DrainHole::operator==]: position and axis compared exactly, radius
    and height with the approximate comparison of the library. *)
Definition DrainHole_eqb (is_approx : F32.t -> F32.t -> bool) (h sp : DrainHole) : bool :=
  Vec3f_eqb (pos h) (pos sp) && Vec3f_eqb (normal h) (normal sp)
  && is_approx (radius h) (radius sp) && is_approx (height h) (height sp).

(* ================================================================== *)
(** ** Interior shell generator *)

Record HollowingConfig : Type := mkHollowingConfig {
  min_thickness : F64.t;
  quality : F64.t;
  closing_distance : F64.t
}.

Definition MAX_OVERSAMPL : F64.t := F64.of_Z 7.

(** [0.1f] and [1.1f]: the [float] nearest to the decimal literal,
    13421773 * 2^-27 and 9227469 * 2^-23. *)
Definition f32_0_1 : F32.t := S754_finite false 13421773 (-27).
Definition f32_1_1 : F32.t := S754_finite false 9227469 (-23).

(** The largest scale, reached at quality 1. *)
Definition F64_eight : F64.t := F64.of_Z 8.

(** [auto voxel_scale = (1.0 + MAX_OVERSAMPL * hc.quality);] *)
Definition voxel_scale_of (hc : HollowingConfig) : F64.t :=
  (F64.one + MAX_OVERSAMPL * quality hc)%f64.

(** [p *= s] on a [Vec3d]. *)
Definition Vec3d_scale (p : Vec3d) (s : F64.t) : Vec3d :=
  mkVec3d (dx p * s)%f64 (dy p * s)%f64 (dz p * s)%f64.

Section Contour.
(** A [Contour3D] is a list of points, each a [Vec3d], with index lists
    for its triangles and quads.  The type is declared outside this file's
    source; the code here only reads and writes [points], so the index
    lists are kept abstract. *)
Variable Faces : Type.

Record Contour3D : Type := mkContour3D {
  points : list Vec3d;
  faces : Faces
}.

(** [_scale(s, m)] on a [Contour3D]: [for (auto &p : m.points) p *= s;]
    with [s] a [double], as [_generate_interior] calls it. *)
Definition _scale_Contour3D (s : F64.t) (m : Contour3D) : Contour3D :=
  mkContour3D (List.map (fun p => Vec3d_scale p s) (points m)) (faces m).
End Contour.

Arguments mkContour3D {Faces} points faces.
Arguments points {Faces} c.
Arguments faces {Faces} c.
Arguments _scale_Contour3D {Faces} s m.

Section InteriorShell.
(** The mesh and grid types, the mesh operations and the translation
    macro [L] are declared outside this file's source. *)
Variable TriangleMesh : Type.
Variable FloatGrid : Type.
(** [TriangleMesh{}], the empty mesh. *)
Variable TriangleMesh_empty : TriangleMesh.
(** [TriangleMesh::scale(float)] *)
Variable TriangleMesh_scale : F32.t -> TriangleMesh -> TriangleMesh.
Variable L : string -> string.

(** What the function asks of its surroundings: the two callbacks of the
    [JobController], the log, and the three operations of the volumetric
    engine.  The index is the type of the answer. *)
Inductive Event : Type -> Type :=
| stopcondition : Event bool
| statuscb (st : N) (msg : string) : Event unit
| LogError (msg : string) : Event unit
| mesh_to_grid (mesh : TriangleMesh) (exteriorBandWidth interiorBandWidth : F32.t)
    : Event (option FloatGrid)
| redistance_grid (grid : FloatGrid) (iso : F64.t) (interiorBandWidth : F64.t)
    : Event FloatGrid
| grid_to_mesh (grid : FloatGrid) (isosurf adapt : F64.t) : Event TriangleMesh.

(** A computation that performs events and returns an [R]. *)
Inductive Prog (R : Type) : Type :=
| Ret (r : R)
| Vis (X : Type) (e : Event X) (k : X -> Prog R).

Arguments Ret {R} r.
Arguments Vis {R X} e k.

Fixpoint bind {A B : Type} (p : Prog A) (f : A -> Prog B) : Prog B :=
  match p with
  | Ret a => f a
  | Vis e k => Vis e (fun x => bind (k x) f)
  end.

Definition call {X : Type} (e : Event X) : Prog X := Vis e Ret.

Notation "x <- c ;; k" := (bind c (fun x => k))
  (at level 61, c at next level, right associativity).
Notation "c ;; k" := (bind c (fun _ => k))
  (at level 61, right associativity).

(** [_scale(s, m)] on a [TriangleMesh]: [m.scale(float(s))]. *)
Definition _scale (s : F64.t) (m : TriangleMesh) : TriangleMesh :=
  TriangleMesh_scale (F64.to_float s) m.

(** [_grid_to_mesh<TriangleMesh>] *)
Definition _grid_to_mesh (grid : FloatGrid) (isosurf adapt : F64.t) : Prog TriangleMesh :=
  call (grid_to_mesh grid isosurf adapt).

Definition offset_of (voxel_scale min_thickness : F64.t) : F64.t :=
  (voxel_scale * min_thickness)%f64.
Definition D_of (voxel_scale closing_dist : F64.t) : F64.t :=
  (voxel_scale * closing_dist)%f64.
Definition out_range_of (offset : F64.t) : F32.t :=
  (f32_0_1 * F64.to_float offset)%f32.
Definition in_range_of (offset D : F64.t) : F32.t :=
  (f32_1_1 * F64.to_float (offset + D)%f64)%f32.

Definition _generate_interior (mesh : TriangleMesh)
    (min_thickness voxel_scale closing_dist : F64.t) : Prog TriangleMesh :=
  let imesh := _scale voxel_scale mesh in
  let offset := offset_of voxel_scale min_thickness in
  let D := D_of voxel_scale closing_dist in
  let out_range := out_range_of offset in
  let in_range := in_range_of offset D in
  stop <- call stopcondition ;;
  if stop : bool then Ret TriangleMesh_empty else
  call (statuscb 0 (L "Hollowing")) ;;
  (* mesh_to_grid(imesh, {}, out_range, in_range): the default transform *)
  gridptr <- call (mesh_to_grid imesh out_range in_range) ;;
  match gridptr with
  | None =>
      call (LogError "Returned OpenVDB grid is NULL") ;;
      Ret TriangleMesh_empty
  | Some grid =>
      stop <- call stopcondition ;;
      if stop : bool then Ret TriangleMesh_empty else
      call (statuscb 30 (L "Hollowing")) ;;
      gD <- (if (closing_dist >? F64.zero)%f64
             then grid' <- call (redistance_grid grid (- (offset + D))%f64
                                                 (F64.of_float in_range)) ;;
                  Ret (grid', D)
             else Ret (grid, (- offset)%f64)) ;;
      stop <- call stopcondition ;;
      if stop : bool then Ret TriangleMesh_empty else
      call (statuscb 70 (L "Hollowing")) ;;
      let iso_surface := snd gD in
      let adaptivity := F64.zero in
      omesh <- _grid_to_mesh (fst gD) iso_surface adaptivity ;;
      let omesh := _scale (F64.one / voxel_scale)%f64 omesh in
      stop <- call stopcondition ;;
      if stop : bool then Ret TriangleMesh_empty else
      call (statuscb 100 (L "Hollowing")) ;;
      Ret omesh
  end.

Definition generate_interior (mesh : TriangleMesh) (hc : HollowingConfig) : Prog TriangleMesh :=
  let voxel_scale := voxel_scale_of hc in
  _generate_interior mesh (min_thickness hc) voxel_scale (closing_distance hc).

(** *** Running a computation *)

(** An event that happened, with the answer it got. *)
Inductive Call : Type :=
| CStop (answer : bool)
| CStatus (st : N) (msg : string)
| CLog (msg : string)
| CMeshToGrid (mesh : TriangleMesh) (exteriorBandWidth interiorBandWidth : F32.t)
    (answer : option FloatGrid)
| CRedistance (grid : FloatGrid) (iso : F64.t) (interiorBandWidth : F64.t)
    (answer : FloatGrid)
| CGridToMesh (grid : FloatGrid) (isosurf adapt : F64.t) (answer : TriangleMesh).

Definition record_call {X : Type} (e : Event X) : X -> Call :=
  match e in Event X0 return X0 -> Call with
  | stopcondition => fun a => CStop a
  | statuscb st msg => fun _ => CStatus st msg
  | LogError msg => fun _ => CLog msg
  | mesh_to_grid m o i => fun a => CMeshToGrid m o i a
  | redistance_grid g iso b => fun a => CRedistance g iso b a
  | grid_to_mesh g iso ad => fun a => CGridToMesh g iso ad a
  end.

(** The surroundings: any state [W] and any way of answering events that
    may change it (the controller's callbacks are arbitrary closures). *)
Variable W : Type.
Variable handler : forall X : Type, Event X -> W -> X * W.

(** Runs [p] from [w]: the returned value, the calls in the order they
    happened, and the final state of the surroundings. *)
Fixpoint run {R : Type} (p : Prog R) (w : W) : R * list Call * W :=
  match p with
  | Ret r => (r, [], w)
  | Vis e k =>
      let '(x, w1) := handler _ e w in
      let '(r, tr, w2) := run (k x) w1 in
      (r, record_call e x :: tr, w2)
  end.

Definition result_of {R : Type} (o : R * list Call * W) : R := fst (fst o).
Definition trace_of {R : Type} (o : R * list Call * W) : list Call := snd (fst o).

(** Answers of the cancellation queries on a trace, in order. *)
Fixpoint polls (tr : list Call) : list bool :=
  match tr with
  | [] => []
  | CStop a :: tr' => a :: polls tr'
  | _ :: tr' => polls tr'
  end.

(** Progress reports on a trace, in order. *)
Fixpoint statuses (tr : list Call) : list (N * string) :=
  match tr with
  | [] => []
  | CStatus st msg :: tr' => (st, msg) :: statuses tr'
  | _ :: tr' => statuses tr'
  end.

Definition is_redistance (c : Call) : bool :=
  match c with
  | CRedistance _ _ _ _ => true
  | _ => false
  end.

(** *** The possible runs of [generate_interior] *)

Variable the_mesh : TriangleMesh.
Variable hc : HollowingConfig.

Let voxel_scale : F64.t := voxel_scale_of hc.
Let offset : F64.t := offset_of voxel_scale (min_thickness hc).
Let D : F64.t := D_of voxel_scale (closing_distance hc).
Let out_range : F32.t := out_range_of offset.
Let in_range : F32.t := in_range_of offset D.
Let imesh : TriangleMesh := _scale voxel_scale the_mesh.
Let label : string := L "Hollowing".

(** The second stage: what is called between the reports 30 and 70, and
    the grid and level handed to the extraction. *)
Definition closing_stage (grid : FloatGrid) (calls : list Call) (gD : FloatGrid * F64.t) : Prop :=
  if (closing_distance hc >? F64.zero)%f64
  then exists grid', calls = [CRedistance grid (- (offset + D))%f64 (F64.of_float in_range) grid']
                     /\ gD = (grid', D)
  else calls = [] /\ gD = (grid, (- offset)%f64).

(** All the ways a run can go: its result and its trace. *)
Inductive outcome : TriangleMesh -> list Call -> Prop :=
| cancelled_first :
    outcome TriangleMesh_empty [CStop true]
| engine_failed :
    outcome TriangleMesh_empty
      [CStop false; CStatus 0 label; CMeshToGrid imesh out_range in_range None;
       CLog "Returned OpenVDB grid is NULL"]
| cancelled_second grid :
    outcome TriangleMesh_empty
      [CStop false; CStatus 0 label; CMeshToGrid imesh out_range in_range (Some grid);
       CStop true]
| cancelled_third grid calls gD :
    closing_stage grid calls gD ->
    outcome TriangleMesh_empty
      ([CStop false; CStatus 0 label; CMeshToGrid imesh out_range in_range (Some grid);
        CStop false; CStatus 30 label] ++ calls ++ [CStop true])
| cancelled_fourth grid calls gD omesh :
    closing_stage grid calls gD ->
    outcome TriangleMesh_empty
      ([CStop false; CStatus 0 label; CMeshToGrid imesh out_range in_range (Some grid);
        CStop false; CStatus 30 label] ++ calls ++
       [CStop false; CStatus 70 label;
        CGridToMesh (fst gD) (snd gD) F64.zero omesh; CStop true])
| completed grid calls gD omesh :
    closing_stage grid calls gD ->
    outcome (_scale (F64.one / voxel_scale)%f64 omesh)
      ([CStop false; CStatus 0 label; CMeshToGrid imesh out_range in_range (Some grid);
        CStop false; CStatus 30 label] ++ calls ++
       [CStop false; CStatus 70 label;
        CGridToMesh (fst gD) (snd gD) F64.zero omesh;
        CStop false; CStatus 100 label]).

(** [generate_interior] run on [the_mesh] and [hc] in the surroundings. *)
Definition hollow (w : W) : TriangleMesh * list Call * W :=
  run (generate_interior the_mesh hc) w.

End InteriorShell.

Arguments Ret {TriangleMesh FloatGrid R} r.
Arguments Vis {TriangleMesh FloatGrid R X} e k.
Arguments stopcondition {TriangleMesh FloatGrid}.
Arguments statuscb {TriangleMesh FloatGrid} st msg.
Arguments LogError {TriangleMesh FloatGrid} msg.
Arguments mesh_to_grid {TriangleMesh FloatGrid} mesh exteriorBandWidth interiorBandWidth.
Arguments redistance_grid {TriangleMesh FloatGrid} grid iso interiorBandWidth.
Arguments grid_to_mesh {TriangleMesh FloatGrid} grid isosurf adapt.
Arguments CStop {TriangleMesh FloatGrid} answer.
Arguments CStatus {TriangleMesh FloatGrid} st msg.
Arguments CLog {TriangleMesh FloatGrid} msg.
Arguments CMeshToGrid {TriangleMesh FloatGrid} mesh exteriorBandWidth interiorBandWidth answer.
Arguments CRedistance {TriangleMesh FloatGrid} grid iso interiorBandWidth answer.
Arguments CGridToMesh {TriangleMesh FloatGrid} grid isosurf adapt answer.
Arguments run {TriangleMesh FloatGrid W} handler {R} p w.
Arguments result_of {TriangleMesh FloatGrid W R} o.
Arguments trace_of {TriangleMesh FloatGrid W R} o.
Arguments polls {TriangleMesh FloatGrid} tr.
Arguments statuses {TriangleMesh FloatGrid} tr.
Arguments is_redistance {TriangleMesh FloatGrid} c.
Arguments hollow {TriangleMesh FloatGrid} TriangleMesh_empty TriangleMesh_scale L {W} handler the_mesh hc w.
Arguments outcome {TriangleMesh FloatGrid} TriangleMesh_empty TriangleMesh_scale L the_mesh hc _ _.
Arguments closing_stage {TriangleMesh FloatGrid} hc grid calls gD.

(** Nothing follows a cancellation query that answered true. *)
Fixpoint stops_at_cancel {M G : Type} (tr : list (Call M G)) : bool :=
  match tr with
  | [] => true
  | CStop true :: rest => match rest with [] => true | _ => false end
  | _ :: rest => stops_at_cancel rest
  end.

(** Modelled from the spec: the tolerance [EPSILON] ("a small fixed
    tolerance") is declared in a header outside this file; the library uses
    [1e-4], a [double]. *)
Definition EPSILON_1e4 : F64.t := S754_finite false 7378697629483821 (-66).

(** Modelled from the spec: [is_approx] ("compared with floating
    tolerance") is declared in a header outside this file; two values are
    approximately equal when they differ by less than the tolerance. *)
Definition is_approx_eps (a b : F32.t) : bool :=
  (F64.abs (F64.of_float a - F64.of_float b) <? EPSILON_1e4)%f64.

(** *** Concrete values used in the examples *)

Definition f32 (z : Z) : F32.t := F32.of_Z z.
Definition vec3 (a b c : Z) : Vec3f := mkVec3f (f32 a) (f32 b) (f32 c).
Definition f64 (z : Z) : F64.t := F64.of_Z z.
Definition vec3d (a b c : Z) : Vec3d := mkVec3d (f64 a) (f64 b) (f64 c).

(** [2^k] as a [float], for [k] in the normal range. *)
Definition f32_pow2 (k : Z) : F32.t := S754_finite false 8388608 (k - 23).

(** The hole of the specification's scenarios: base centre at the origin,
    axis [z], radius 1, height 2. *)
Definition hole_unit_z : DrainHole :=
  mkDrainHole (vec3 0 0 0) (vec3 0 0 1) (f32 1) (f32 2).

(** A hole 2^-14 high: its axis midpoint is closer to the base plane than
    the tolerance. *)
Definition thin_hole : DrainHole :=
  mkDrainHole (vec3 0 0 0) (vec3 0 0 1) (f32 1) (f32_pow2 (-14)).

(** A hole as high as the smallest positive [float], 2^-149: half of its
    height rounds to zero, so its axis midpoint is its base centre. *)
Definition tiny_hole : DrainHole :=
  mkDrainHole (vec3 0 0 0) (vec3 0 0 1) (f32 1) (S754_finite false 1 (-149)).

(** The entries of [out] below index [found] hold parameters that are
    numbers. *)
Definition params_ok (st : Found) : Prop :=
  match fst st with
  | O => True
  | S O => is_nan (fst (fst (snd st))) = false
  | _ => is_nan (fst (fst (snd st))) = false /\ is_nan (fst (snd (snd st))) = false
  end.

(** A toy surface and engine, to run the pipeline on. *)
Module Toy.
Definition Mesh : Type := list Vec3f.
(** A grid remembers the surface it was built from and the levels it was
    redistanced to. *)
Definition Grid : Type := (Mesh * list F64.t)%type.
Definition scale (s : F32.t) (m : Mesh) : Mesh :=
  List.map (fun p => Vec3.scale p s) m.
Definition translate (s : string) : string := s.

(** The surroundings count the cancellation queries; the query number
    [cancel_at] (from 0) answers true, and the engine builds a grid only
    when [engine_ok]. *)
Definition handler (cancel_at : nat) (engine_ok : bool)
    (X : Type) (e : Event Mesh Grid X) : nat -> X * nat :=
  match e in Event _ _ X0 return nat -> X0 * nat with
  | stopcondition => fun n => (Nat.eqb n cancel_at, S n)
  | statuscb _ _ => fun n => (tt, n)
  | LogError _ => fun n => (tt, n)
  | mesh_to_grid m _ _ => fun n => (if engine_ok then Some (m, []) else None, n)
  | redistance_grid g iso _ => fun n => ((fst g, iso :: snd g), n)
  | grid_to_mesh g _ _ => fun n => (fst g, n)
  end.

Definition config (q t c : Z) : HollowingConfig :=
  mkHollowingConfig (f64 t) (f64 q) (f64 c).

Definition triangle : Mesh := [vec3 0 0 0; vec3 4 0 0; vec3 0 4 0].

Definition go (cancel_at : nat) (engine_ok : bool) (hc : HollowingConfig) :=
  run (handler cancel_at engine_ok)
      (generate_interior Mesh Grid [] scale translate triangle hc) O.
End Toy.

(** *** Predicates and values used in the further properties *)

(** Some coefficient is NaN. *)
Definition has_nan (a : Vec3f) : bool :=
  is_nan (vx a) || is_nan (vy a) || is_nan (vz a).

(** Some field of the hole is NaN. *)
Definition hole_has_nan (h : DrainHole) : bool :=
  has_nan (pos h) || has_nan (normal h) || is_nan (radius h) || is_nan (height h).

Definition is_zero (x : spec_float) : bool :=
  match x with
  | S754_zero _ => true
  | _ => false
  end.

(** Every coefficient is a zero, of either sign. *)
Definition zero_vector (a : Vec3f) : bool :=
  is_zero (vx a) && is_zero (vy a) && is_zero (vz a).

(** A zero or not a number. *)
Definition null (x : spec_float) : Prop :=
  match x with
  | S754_zero _ | S754_nan => True
  | _ => False
  end.

(** Equal up to the sign of a zero. *)
Definition zeq (x y : spec_float) : Prop :=
  x = y \/ (is_zero x = true /\ is_zero y = true).

Definition vzeq (a b : Vec3f) : Prop :=
  zeq (vx a) (vx b) /\ zeq (vy a) (vy b) /\ zeq (vz a) (vz b).

Definition vnull (a : Vec3f) : Prop :=
  null (vx a) /\ null (vy a) /\ null (vz a).

(** The hole with the radius negated, with another height, with another
    radius. *)
Definition negate_radius (h : DrainHole) : DrainHole :=
  mkDrainHole (pos h) (normal h) (F32.opp (radius h)) (height h).

Definition with_height (h : DrainHole) (ht : F32.t) : DrainHole :=
  mkDrainHole (pos h) (normal h) (radius h) ht.

Definition with_radius (h : DrainHole) (r : F32.t) : DrainHole :=
  mkDrainHole (pos h) (normal h) r (height h).

(** A hole of radius 2^-80: the square of its radius is below the smallest
    positive [float] and rounds to zero. *)
Definition needle_hole : DrainHole :=
  mkDrainHole (vec3 0 0 0) (vec3 0 0 1) (f32_pow2 (-80)) (f32 2).

(** A hole without height: its two end caps lie in the same plane. *)
Definition flat_hole : DrainHole :=
  mkDrainHole (vec3 0 0 0) (vec3 0 0 1) (f32 1) (f32 0).

(** Every coefficient is a well-formed [float]. *)
Definition valid_vec (a : Vec3f) : bool :=
  F32.valid (vx a) && F32.valid (vy a) && F32.valid (vz a).

(** The entries of [out] from index [found] on hold their initial value,
    and [found] is within the array. *)
Definition rest_untouched (st : Found) : Prop :=
  match fst st with
  | O => snd st = out_init
  | S O => snd (snd st) = snd out_init
  | S (S O) => True
  | _ => False
  end.

(** The entries of [out] below index [found] hold parameters that are not
    negative. *)
Definition params_signed (st : Found) : Prop :=
  match fst st with
  | O => True
  | S O => signed_as false (fst (fst (snd st)))
  | _ => signed_as false (fst (fst (snd st))) /\ signed_as false (fst (snd (snd st)))
  end.

(** [m / 2^n] rounded to the nearest integer, ties to even: what the
    rounding of the formats does to a mantissa that is [n] digits too
    long. *)
Definition rne (m n : Z) : Z :=
  let q := m / 2 ^ n in
  let r := m mod 2 ^ n in
  if 2 * r <? 2 ^ n then q
  else if 2 ^ n <? 2 * r then q + 1
  else if Z.even q then q else q + 1.

(** [2^k] as a [double], for [k] in the normal range. *)
Definition F64_pow2 (k : Z) : F64.t := S754_finite false 4503599627370496 (k - 52).

(** A [double] that can be multiplied by [2^k] without overflow: not a
    finite number, or a well-formed one whose exponent leaves room for
    [k]. *)
Definition scalable (k : Z) (x : F64.t) : bool :=
  match x with
  | S754_finite _ _ e => F64.valid x && (e + k <=? 971)
  | _ => true
  end.

Definition scalable_point (k : Z) (p : Vec3d) : bool :=
  scalable k (dx p) && scalable k (dy p) && scalable k (dz p).

Definition is_mesh_to_grid {M G : Type} (c : Call M G) : bool :=
  match c with
  | CMeshToGrid _ _ _ _ => true
  | _ => false
  end.

Definition is_grid_to_mesh {M G : Type} (c : Call M G) : bool :=
  match c with
  | CGridToMesh _ _ _ _ => true
  | _ => false
  end.

(** How many calls of a trace satisfy [p]. *)
Definition count_calls {M G : Type} (p : Call M G -> bool) (tr : list (Call M G)) : nat :=
  List.length (filter p tr).

(** *** The frame of a hole, moderate numbers *)

(** A zero or a finite number. *)
Definition is_finite (x : spec_float) : bool :=
  match x with
  | S754_zero _ | S754_finite _ _ _ => true
  | _ => false
  end.

(** Every coefficient is a well-formed finite [float]. *)
Definition finite_vec (a : Vec3f) : bool :=
  valid_vec a && is_finite (vx a) && is_finite (vy a) && is_finite (vz a).

(** The origin and the axis [z].  A hole with this position and this axis
    is given in its own frame: the third coordinate of a point is its
    height above the base plane, the first two locate it around the
    axis. *)
Definition origin_vec : Vec3f := mkVec3f F32.zero F32.zero F32.zero.
Definition axis_z : Vec3f := mkVec3f F32.zero F32.zero F32.one.

(** The largest finite [float], and the [float]s nearest to 0.6 and 0.8. *)
Definition FLT_MAX : F32.t := S754_finite false 16777215 104.
Definition f32_0_6 : F32.t := S754_finite false 10066330 (-24).
Definition f32_0_8 : F32.t := S754_finite false 13421773 (-24).

(** A hole far from the origin, along the axis [(0.6, 0, 0.8)], whose
    norm computed in [float] is exactly 1.  Every field is finite; the
    scalar product of the axis and the position is not. *)
Definition far_hole : DrainHole :=
  mkDrainHole (mkVec3f FLT_MAX F32.zero FLT_MAX) (mkVec3f f32_0_6 F32.zero f32_0_8)
              (f32 1) (f32 2).

(** [x * 2^k], by moving the exponent. *)
Definition shift_exp (k : Z) (x : spec_float) : spec_float :=
  match x with
  | S754_finite s m e => S754_finite s m (e + k)
  | _ => x
  end.

Definition shift_vec (k : Z) (a : Vec3f) : Vec3f := Vec3.map (shift_exp k) a.

(** A [float] that is a zero, or a normal number whose magnitude is at
    least 2^-31 and below 2^30. *)
Definition moderate (x : F32.t) : bool :=
  match x with
  | S754_zero _ => true
  | S754_finite _ m e => (Z.pos (digits2_pos m) =? 24) && (-54 <=? e) && (e <=? 6)
  | _ => false
  end.

Definition moderate_vec (a : Vec3f) : bool :=
  moderate (vx a) && moderate (vy a) && moderate (vz a).

(** Positive zero, or a positive normal [float] that is at least
    [2^(lo-1)] and below [2^hi]. *)
Definition positive_within (lo hi : Z) (x : F32.t) : Prop :=
  x = S754_zero false \/
  exists m e, x = S754_finite false m e /\ Z.pos (digits2_pos m) = 24 /\ lo <= 24 + e <= hi.

(** *** Proof steps for the pipeline *)

Ltac run_step := cbn [hollow run bind call record_call fst snd app].

(** Case analysis on the answer the surroundings give to the next event. *)
Ltac answer handler :=
  match goal with
  | |- context [handler ?X ?e ?w] =>
      let a := fresh "a" in let w' := fresh "w" in
      destruct (handler X e w) as [a w']; run_step
  end.

(** Case analysis on the outcome [H] of the run [o] of configuration [hc]. *)
Ltac split_run H o hc :=
  generalize H;
  generalize (result_of o) (trace_of o);
  let res := fresh "res" in let tr := fresh "tr" in let Hrun := fresh "Hrun" in
  let grid := fresh "grid" in let grid' := fresh "grid'" in
  let calls := fresh "calls" in let gD := fresh "gD" in
  let omesh := fresh "omesh" in let Hst := fresh "Hst" in
  let Hc := fresh "Hc" in
  intros res tr Hrun;
  destruct Hrun as [ | | grid | grid calls gD Hst | grid calls gD omesh Hst
                   | grid calls gD omesh Hst ];
  try (unfold closing_stage in Hst;
       destruct (closing_distance hc >? F64.zero)%f64 eqn:Hc;
       [ destruct Hst as (grid' & -> & ->) | destruct Hst as (-> & ->) ]);
  cbn [app fst snd].

Ltac in_cases :=
  repeat match goal with
  | H : False |- _ => destruct H
  | H : _ \/ _ |- _ => destruct H as [H|H]
  | H : In _ [] |- _ => destruct H
  | H : In _ (_ :: _) |- _ => destruct H as [H|H]
  | H : @eq (Call _ _) _ _ |- _ => first [discriminate H | inversion H; clear H; subst]
  end.

(** Decides a comparison of two integer constants. *)
Ltac zcmp := vm_compute; first [reflexivity | intros Hx; discriminate Hx].

(** Closes a disjunction of NaN tests with the equation [H]. *)
Ltac nan_or H := rewrite ?H; cbn [is_nan]; rewrite ?orb_true_r; reflexivity.

(* ================================================================== *)
(** * Properties *)

(* ================================================================== *)
(** ** Comparisons and not-a-number *)

Section FloatFacts.
Variables prec emax : Z.

Lemma SFcompare_antisym (x y : spec_float) :
  SFcompare y x = option_map CompOpp (SFcompare x y).
Proof.
  destruct x as [sx|sx| |sx mx ex], y as [sy|sy| |sy my ey]; simpl;
    try reflexivity;
    try (destruct sx; reflexivity);
    try (destruct sy; reflexivity);
    try (destruct sx, sy; reflexivity).
  destruct sx, sy; simpl; try reflexivity;
    rewrite (Z.compare_antisym ex ey);
    destruct (ex ?= ey) eqn:E; simpl; try reflexivity;
    repeat f_equal; symmetry; exact (Pos.compare_cont_antisym mx my Eq).
Qed.

Lemma SFcompare_some (x y : spec_float) :
  is_nan x = false -> is_nan y = false -> exists c, SFcompare x y = Some c.
Proof.
  destruct x, y; simpl; intros; try discriminate; eexists; reflexivity.
Qed.

Lemma SFleb_negb_ltb (x y : spec_float) :
  is_nan x = false -> is_nan y = false -> SFleb y x = negb (SFltb x y).
Proof.
  intros Hx Hy. unfold SFleb, SFltb. rewrite (SFcompare_antisym x y).
  destruct (SFcompare_some x y Hx Hy) as [c ->]. destruct c; reflexivity.
Qed.

Lemma SFltb_leb (x y : spec_float) : SFltb x y = true -> SFleb x y = true.
Proof.
  unfold SFltb, SFleb. destruct (SFcompare x y) as [[]|]; congruence.
Qed.

Lemma SFltb_not_nan (x y : spec_float) :
  SFltb x y = true -> is_nan x = false /\ is_nan y = false.
Proof.
  destruct x, y; simpl; intros; try discriminate; split; reflexivity.
Qed.

Lemma SFleb_not_nan (x y : spec_float) :
  SFleb x y = true -> is_nan x = false /\ is_nan y = false.
Proof.
  destruct x, y; simpl; intros; try discriminate; split; reflexivity.
Qed.

Lemma SFadd_nan_r (x : spec_float) : SFadd prec emax x S754_nan = S754_nan.
Proof. destruct x; reflexivity. Qed.

Lemma SFsub_nan_r (x : spec_float) : SFsub prec emax x S754_nan = S754_nan.
Proof. destruct x; reflexivity. Qed.

Lemma SFmul_nan_r (x : spec_float) : SFmul prec emax x S754_nan = S754_nan.
Proof. destruct x; reflexivity. Qed.

(** The square root of a negative number is not a number. *)
Lemma SFsqrt_negative (x : spec_float) :
  SFltb x (S754_zero false) = true -> SFsqrt prec emax x = S754_nan.
Proof.
  destruct x as [s|[]| |[] m e]; simpl; intros H; try discriminate; reflexivity.
Qed.

End FloatFacts.

(* ================================================================== *)
(** ** Rounding never invents a sign or a not-a-number *)

Section RoundingSign.
Variables prec emax : Z.

Lemma shr_1_nonneg (mrs : shr_record) : 0 <= shr_m mrs -> 0 <= shr_m (shr_1 mrs).
Proof.
  destruct mrs as [m r s]; simpl. destruct m as [|[p|p|]|p]; simpl; lia.
Qed.

Lemma iter_shr_1_nonneg (n : positive) (mrs : shr_record) :
  0 <= shr_m mrs -> 0 <= shr_m (iter_pos shr_1 n mrs).
Proof.
  revert mrs. induction n as [n IH|n IH|]; simpl; intros mrs H.
  - apply IH, IH, shr_1_nonneg, H.
  - apply IH, IH, H.
  - apply shr_1_nonneg, H.
Qed.

Lemma shr_fexp_nonneg (m e : Z) (l : location) :
  0 <= m -> 0 <= shr_m (fst (shr_fexp prec emax m e l)).
Proof.
  intros H. unfold shr_fexp, shr.
  assert (H0 : 0 <= shr_m (shr_record_of_loc m l)) by (destruct l as [|[]]; exact H).
  destruct (fexp prec emax (Zdigits2 m + e) - e); simpl; auto.
  apply iter_shr_1_nonneg, H0.
Qed.

Lemma round_nearest_even_nonneg (m : Z) (l : location) :
  0 <= m -> 0 <= round_nearest_even m l.
Proof.
  intros H. destruct l as [|[]]; simpl; try lia. destruct (Z.even m); lia.
Qed.

(** Rounding a non-negative mantissa gives a number of the given sign. *)
Lemma binary_round_aux_sign (s : bool) (m e : Z) (l : location) :
  0 <= m ->
  is_nan (binary_round_aux prec emax s m e l) = false /\
  signed_as s (binary_round_aux prec emax s m e l).
Proof.
  intros H. unfold binary_round_aux.
  pose proof (shr_fexp_nonneg m e l H) as H1.
  destruct (shr_fexp prec emax m e l) as [mrs' e']. simpl in H1.
  pose proof (shr_fexp_nonneg _ e' loc_Exact
                (round_nearest_even_nonneg _ (loc_of_shr_record mrs') H1)) as H2.
  destruct (shr_fexp prec emax _ e' loc_Exact) as [mrs'' e'']. simpl in H2.
  destruct (shr_m mrs'') as [|p|p]; simpl.
  - auto.
  - destruct (e'' <=? emax - prec); simpl; auto.
  - lia.
Qed.

Lemma binary_round_sign (s : bool) (m : positive) (e : Z) :
  is_nan (binary_round prec emax s m e) = false /\
  signed_as s (binary_round prec emax s m e).
Proof.
  unfold binary_round.
  destruct (shl_align m e _) as [mz ez].
  apply binary_round_aux_sign. lia.
Qed.

Lemma SFconv_not_nan (x : spec_float) :
  is_nan x = false -> is_nan (SFconv prec emax x) = false.
Proof.
  destruct x as [s|s| |s m e]; simpl; intros H; try discriminate; try reflexivity.
  apply binary_round_sign.
Qed.

(** A negative value stays negative (or becomes a negative zero). *)
Lemma SFconv_negative (x : spec_float) :
  SFltb x (S754_zero false) = true ->
  is_nan (SFconv prec emax x) = false /\ signed_as true (SFconv prec emax x).
Proof.
  destruct x as [s|[]| |[] m e]; simpl; intros H; try discriminate.
  - auto.
  - apply binary_round_sign.
Qed.

Lemma SFltb_signed_pos (x y : spec_float) :
  is_nan x = false -> signed_as true x ->
  SFltb (S754_zero false) y = true -> SFltb x y = true.
Proof.
  destruct x as [s|s| |s m e]; simpl; intros Hn Hs; try discriminate; subst;
    destruct y as [s'|[]| |[] m' e']; simpl; intros Hy; try discriminate;
    reflexivity.
Qed.
End RoundingSign.

(* ================================================================== *)
(** ** Rounding to nearest: digits, shifts and bounds *)

Lemma digits2_pos_bounds (p : positive) :
  2 ^ (Z.pos (digits2_pos p) - 1) <= Z.pos p < 2 ^ Z.pos (digits2_pos p).
Proof.
  induction p as [p IH|p IH|]; simpl digits2_pos.
  - rewrite Pos2Z.inj_succ. replace (Z.succ (Z.pos (digits2_pos p)) - 1) with (Z.succ (Z.pos (digits2_pos p) - 1)) by lia.
    rewrite !Z.pow_succ_r by lia. lia.
  - rewrite Pos2Z.inj_succ. replace (Z.succ (Z.pos (digits2_pos p)) - 1) with (Z.succ (Z.pos (digits2_pos p) - 1)) by lia.
    rewrite !Z.pow_succ_r by lia. lia.
  - simpl. lia.
Qed.

Lemma Zdigits2_bounds (m : Z) :
  0 < m -> 2 ^ (Zdigits2 m - 1) <= m < 2 ^ Zdigits2 m.
Proof.
  destruct m as [|p|p]; try lia. intros _. apply digits2_pos_bounds.
Qed.

Lemma Zdigits2_pos (m : Z) : 0 < m -> 0 < Zdigits2 m.
Proof. destruct m; simpl; lia. Qed.

(** A number below [2^k] has at most [k] digits; one from [2^k] on has more. *)
Lemma Zdigits2_le (m k : Z) : 0 < m -> 0 <= k -> m < 2 ^ k -> Zdigits2 m <= k.
Proof.
  intros Hm Hk H. destruct (Zdigits2_bounds m Hm) as [Hlo _].
  destruct (Z_le_gt_dec (Zdigits2 m) k) as [|Hgt]; auto.
  assert (2 ^ k <= 2 ^ (Zdigits2 m - 1)) by (apply Z.pow_le_mono_r; lia). lia.
Qed.

Lemma Zdigits2_gt (m k : Z) : 0 < m -> 0 <= k -> 2 ^ k <= m -> k < Zdigits2 m.
Proof.
  intros Hm Hk H. destruct (Zdigits2_bounds m Hm) as [_ Hhi].
  pose proof (Zdigits2_pos m Hm).
  destruct (Z_lt_le_dec k (Zdigits2 m)) as [|Hle]; auto.
  assert (2 ^ Zdigits2 m <= 2 ^ k) by (apply Z.pow_le_mono_r; lia). lia.
Qed.

Lemma iter_pos_nat {A : Type} (f : A -> A) (p : positive) (x : A) :
  iter_pos f p x = Nat.iter (Pos.to_nat p) f x.
Proof.
  revert x. induction p as [p IH|p IH|]; intros x; simpl iter_pos.
  - rewrite !IH, Pos2Nat.inj_xI.
    replace (S (2 * Pos.to_nat p)) with (Pos.to_nat p + (Pos.to_nat p + 1))%nat by lia.
    rewrite !Nat.iter_add. reflexivity.
  - rewrite !IH, Pos2Nat.inj_xO.
    replace (2 * Pos.to_nat p)%nat with (Pos.to_nat p + Pos.to_nat p)%nat by lia.
    rewrite Nat.iter_add. reflexivity.
  - reflexivity.
Qed.

Lemma shr_1_m (mrs : shr_record) : 0 <= shr_m mrs -> shr_m (shr_1 mrs) = shr_m mrs / 2.
Proof.
  destruct mrs as [m r s]; cbn [shr_m]. destruct m as [|[p|p|]|p];
    cbn [shr_1 shr_m]; intros H; try lia.
  - reflexivity.
  - apply Z.div_unique with 1; lia.
  - apply Z.div_unique with 0; lia.
  - reflexivity.
Qed.

Lemma shr_1_exact (mrs : shr_record) :
  0 <= shr_m mrs -> shr_r mrs = false -> shr_s mrs = false -> shr_m mrs mod 2 = 0 ->
  shr_r (shr_1 mrs) = false /\ shr_s (shr_1 mrs) = false.
Proof.
  destruct mrs as [m r s]; cbn [shr_m shr_r shr_s]. intros H -> ->.
  destruct m as [|[p|p|]|p]; cbn [shr_1 shr_r shr_s orb]; intros E; try lia; auto.
  - exfalso. rewrite Pos2Z.inj_xI in E.
    rewrite Z.add_comm, Z.mul_comm, Z.mod_add in E by lia. discriminate.
  - discriminate.
Qed.

Lemma iter_shr_1_m (n : nat) (mrs : shr_record) :
  0 <= shr_m mrs ->
  0 <= shr_m (Nat.iter n shr_1 mrs) /\
  shr_m (Nat.iter n shr_1 mrs) = shr_m mrs / 2 ^ Z.of_nat n.
Proof.
  intros H. induction n as [|n [IH0 IH]].
  - simpl. rewrite Z.div_1_r. auto.
  - rewrite Nat.iter_succ. rewrite shr_1_m by exact IH0. rewrite IH.
    rewrite Nat2Z.inj_succ, Z.pow_succ_r by lia.
    rewrite Z.div_div by lia. split.
    + apply Z.div_pos; lia.
    + f_equal. lia.
Qed.

Lemma iter_shr_1_exact (n : nat) (mrs : shr_record) :
  0 <= shr_m mrs -> shr_r mrs = false -> shr_s mrs = false ->
  shr_m mrs mod 2 ^ Z.of_nat n = 0 ->
  shr_r (Nat.iter n shr_1 mrs) = false /\ shr_s (Nat.iter n shr_1 mrs) = false.
Proof.
  intros H Hr Hs. induction n as [|n IH]; intros E.
  - simpl. auto.
  - rewrite Nat2Z.inj_succ, Z.pow_succ_r in E by lia.
    assert (Hpos : 0 < 2 ^ Z.of_nat n) by (apply Z.pow_pos_nonneg; lia).
    apply Z.mod_divide in E; [|lia]. destruct E as [q E].
    assert (E1 : shr_m mrs mod 2 ^ Z.of_nat n = 0).
    { apply Z.mod_divide; [lia|]. exists (q * 2). lia. }
    destruct (IH E1) as [IHr IHs].
    destruct (iter_shr_1_m n mrs H) as [H0 Hm].
    rewrite Nat.iter_succ. apply shr_1_exact; auto.
    rewrite Hm, E. replace (q * (2 * 2 ^ Z.of_nat n)) with (q * 2 * 2 ^ Z.of_nat n) by lia.
    rewrite Z.div_mul by lia. apply Z.mod_mul. lia.
Qed.

Lemma shr_exact (m e n : Z) :
  0 <= m -> 0 <= n ->
  shr_m (fst (shr (shr_record_of_loc m loc_Exact) e n)) = m / 2 ^ n /\
  snd (shr (shr_record_of_loc m loc_Exact) e n) = e + n /\
  (m mod 2 ^ n = 0 ->
   loc_of_shr_record (fst (shr (shr_record_of_loc m loc_Exact) e n)) = loc_Exact).
Proof.
  intros Hm Hn. destruct n as [|p|p]; try lia; cbn [shr shr_record_of_loc fst snd].
  - rewrite Z.div_1_r, Z.add_0_r. auto.
  - rewrite iter_pos_nat.
    set (mrs := {| shr_m := m; shr_r := false; shr_s := false |}).
    destruct (iter_shr_1_m (Pos.to_nat p) mrs Hm) as [_ E].
    rewrite positive_nat_Z in E. repeat split; auto.
    intros Hd.
    destruct (iter_shr_1_exact (Pos.to_nat p) mrs Hm eq_refl eq_refl) as [Hr Hs].
    { rewrite positive_nat_Z. exact Hd. }
    destruct (Nat.iter (Pos.to_nat p) shr_1 mrs) as [m' r' s'].
    cbn [shr_r shr_s] in Hr, Hs. subst. reflexivity.
Qed.

Lemma shr_none (mrs : shr_record) (e n : Z) : n <= 0 -> shr mrs e n = (mrs, e).
Proof. destruct n; try lia; reflexivity. Qed.

Lemma round_nearest_even_range (m : Z) (l : location) :
  m <= round_nearest_even m l <= m + 1 /\
  (l = loc_Exact -> round_nearest_even m l = m).
Proof.
  destruct l as [|[]]; simpl; try (destruct (Z.even m)); split; try lia; auto;
    discriminate.
Qed.

Lemma Zdigits2_shift (m j : Z) :
  0 < m -> 0 <= j -> Zdigits2 (m * 2 ^ j) = Zdigits2 m + j.
Proof.
  intros Hm Hj. destruct (Zdigits2_bounds m Hm) as [Hlo Hhi].
  pose proof (Zdigits2_pos m Hm) as Hd.
  assert (Hpj : 0 < 2 ^ j) by (apply Z.pow_pos_nonneg; lia).
  apply Z.le_antisymm.
  - apply Zdigits2_le; try nia. rewrite Z.pow_add_r by lia. nia.
  - assert (Zdigits2 m - 1 + j < Zdigits2 (m * 2 ^ j)); [|lia].
    apply Zdigits2_gt; try nia. rewrite Z.pow_add_r by lia. nia.
Qed.

Lemma Pos_iter_xO (m d : positive) :
  Z.pos (Pos.iter xO m d) = Z.pos m * 2 ^ Z.pos d.
Proof.
  induction d as [|d IH] using Pos.peano_ind.
  - simpl. lia.
  - rewrite Pos.iter_succ, Pos2Z.inj_xO, IH, Pos2Z.inj_succ, Z.pow_succ_r by lia. lia.
Qed.

Lemma shl_align_spec (m : positive) (e e' : Z) :
  Z.pos (fst (shl_align m e e')) = Z.pos m * 2 ^ (e - snd (shl_align m e e')) /\
  snd (shl_align m e e') = Z.min e e'.
Proof.
  unfold shl_align. destruct (e' - e) as [|d|d] eqn:E; cbn [fst snd].
  - rewrite Z.sub_diag. simpl. lia.
  - rewrite Z.sub_diag. simpl. lia.
  - rewrite Pos_iter_xO. replace (e - e') with (Z.pos d) by lia. lia.
Qed.

Section Rounding.
Variables prec emax : Z.
Hypothesis Hprec : 0 < prec.

Lemma fexp_ge_emin (x : Z) : emin prec emax <= fexp prec emax x.
Proof. unfold fexp. lia. Qed.

Lemma fexp_ge (x : Z) : x - prec <= fexp prec emax x.
Proof. unfold fexp. lia. Qed.

Lemma binary_round_aux_exact (s : bool) (m e : Z) :
  0 < m ->
  let e1 := fexp prec emax (Zdigits2 m + e) in
  let n := e1 - e in
  0 <= n ->
  exists M1,
    m / 2 ^ n <= M1 <= m / 2 ^ n + 1 /\
    (m mod 2 ^ n = 0 -> M1 = m / 2 ^ n) /\
    m / 2 ^ n < 2 ^ prec /\
    binary_round_aux prec emax s m e loc_Exact = rounded prec emax s M1 e1.
Proof.
  intros Hm e1 n Hn.
  assert (Hpn : 0 < 2 ^ n) by (apply Z.pow_pos_nonneg; lia).
  assert (Hq0 : 0 <= m / 2 ^ n) by (apply Z.div_pos; lia).
  assert (Hq : m / 2 ^ n < 2 ^ prec).
  { apply Z.div_lt_upper_bound; [lia|].
    destruct (Zdigits2_bounds m Hm) as [_ Hhi].
    rewrite <- Z.pow_add_r by lia.
    eapply Z.lt_le_trans; [exact Hhi|]. apply Z.pow_le_mono_r; [lia|].
    pose proof (fexp_ge (Zdigits2 m + e)). unfold n, e1. lia. }
  unfold binary_round_aux, shr_fexp. fold e1. fold n.
  destruct (shr_exact m e n (Z.lt_le_incl _ _ Hm) Hn) as (E1 & E2 & E3).
  destruct (shr (shr_record_of_loc m loc_Exact) e n) as [mrs' e'].
  cbn [fst snd] in E1, E2, E3. subst e'.
  replace (e + n) with e1 by (unfold n; lia).
  set (M1 := round_nearest_even (shr_m mrs') (loc_of_shr_record mrs')).
  destruct (round_nearest_even_range (shr_m mrs') (loc_of_shr_record mrs')) as [HM HMe].
  fold M1 in HM, HMe. rewrite E1 in HM.
  exists M1. split; [exact HM|]. split; [intros Hd; rewrite HMe; auto|].
  split; [exact Hq|].
  assert (He1 : emin prec emax <= e1) by apply fexp_ge_emin.
  unfold rounded.
  destruct (Z.eqb_spec M1 0) as [HZ|NZ].
  - rewrite HZ. cbn [Zdigits2]. rewrite shr_none.
    + reflexivity.
    + unfold fexp, emin in *. lia.
  - assert (HM1 : 0 < M1) by lia.
    destruct (Z.ltb_spec M1 (2 ^ prec)) as [Hlt|Hge].
    + rewrite shr_none.
      * cbn [shr_m shr_record_of_loc fst]. destruct M1; try lia. reflexivity.
      * pose proof (Zdigits2_le M1 prec HM1 (Z.lt_le_incl _ _ Hprec) Hlt).
        unfold fexp, emin in *. lia.
    + assert (HM2 : M1 = 2 ^ prec) by lia.
      assert (Hd : Zdigits2 M1 = prec + 1).
      { apply Z.le_antisymm.
        - apply Zdigits2_le; try lia. rewrite Z.add_1_r, Z.pow_succ_r by lia. lia.
        - pose proof (Zdigits2_gt M1 prec HM1 (Z.lt_le_incl _ _ Hprec) Hge). lia. }
      rewrite Hd.
      replace (fexp prec emax (prec + 1 + e1) - e1) with 1
        by (unfold fexp, emin in *; lia).
      destruct (shr_exact M1 e1 1 (Z.lt_le_incl _ _ HM1)) as (F1 & F2 & _); [lia|].
      destruct (shr (shr_record_of_loc M1 loc_Exact) e1 1) as [mrs'' e''].
      cbn [fst snd] in F1, F2. subst e''. rewrite F1.
      replace (M1 / 2 ^ 1) with (2 ^ (prec - 1)).
      * assert (0 < 2 ^ (prec - 1)) by (apply Z.pow_pos_nonneg; lia).
        destruct (2 ^ (prec - 1)); try lia. reflexivity.
      * rewrite HM2. replace prec with (Z.succ (prec - 1)) at 2 by lia.
        rewrite Z.pow_succ_r by lia. rewrite Z.pow_1_r.
        rewrite Z.mul_comm, Z.div_mul by lia. reflexivity.
Qed.

Lemma round_le (s : bool) (m e B k : Z) :
  0 < m -> 0 <= fexp prec emax (Zdigits2 m + e) - e ->
  2 ^ (prec - 1) <= B < 2 ^ prec -> emin prec emax <= k <= emax - prec ->
  e <= k -> m <= B * 2 ^ (k - e) ->
  binary_round_aux prec emax s m e loc_Exact = S754_zero s \/
  exists M E, binary_round_aux prec emax s m e loc_Exact = S754_finite s M E /\
              E <= k /\ Z.pos M <= B * 2 ^ (k - E).
Proof.
  intros Hm Hn HB Hk Hek Hle.
  destruct (binary_round_aux_exact s m e Hm Hn) as (M1 & HM & Hex & Hq & ->).
  set (e1 := fexp prec emax (Zdigits2 m + e)) in *. set (n := e1 - e) in *.
  assert (Hp1 : 0 < 2 ^ (prec - 1)) by (apply Z.pow_pos_nonneg; lia).
  assert (Hpp : 2 ^ prec = 2 * 2 ^ (prec - 1)).
  { replace prec with (Z.succ (prec - 1)) at 1 by lia. apply Z.pow_succ_r. lia. }
  assert (Hpn : 0 < 2 ^ n) by (apply Z.pow_pos_nonneg; lia).
  assert (Hq0 : 0 <= m / 2 ^ n) by (apply Z.div_pos; lia).
  assert (He1 : e1 <= k).
  { assert (Hd : Zdigits2 m <= prec + (k - e)).
    { apply Zdigits2_le; try lia. rewrite Z.pow_add_r by lia.
      assert (0 < 2 ^ (k - e)) by (apply Z.pow_pos_nonneg; lia). nia. }
    unfold e1, fexp, emin in *. lia. }
  assert (Hcase : e1 < k \/ (e1 = k /\ M1 <= B)).
  { destruct (Z.eq_dec e1 k) as [E|NE]; [right; split; auto|left; lia].
    assert (Hn' : n = k - e) by (unfold n; lia).
    assert (Hq' : m / 2 ^ n <= B).
    { apply Z.div_le_upper_bound; [lia|]. rewrite Hn'. lia. }
    destruct (Z.eq_dec (m / 2 ^ n) B) as [EB|NB]; [|lia].
    rewrite Hex; [lia|].
    pose proof (Z.mul_div_le m (2 ^ n) Hpn) as Hml. rewrite EB in Hml.
    assert (Hmb : m = B * 2 ^ n) by (rewrite Hn' in *; lia).
    rewrite Hmb at 1. apply Z.mod_mul. lia. }
  unfold rounded.
  destruct (Z.eqb_spec M1 0) as [HZ|NZ]; [left; reflexivity|right].
  destruct (Z.ltb_spec M1 (2 ^ prec)) as [Hlt|Hge].
  - destruct (Z.leb_spec e1 (emax - prec)) as [_|Hbad]; [|lia].
    exists (Z.to_pos M1), e1. split; [reflexivity|]. split; [exact He1|].
    rewrite Z2Pos.id by lia.
    destruct Hcase as [Hl|[E Hb]].
    + assert (2 <= 2 ^ (k - e1)).
      { change 2 with (2 ^ 1) at 1. apply Z.pow_le_mono_r; lia. }
      nia.
    + rewrite E, Z.sub_diag, Z.pow_0_r. lia.
  - assert (Hl : e1 < k) by (destruct Hcase as [?|[_ ?]]; lia).
    destruct (Z.leb_spec (e1 + 1) (emax - prec)) as [_|Hbad]; [|lia].
    exists (Z.to_pos (2 ^ (prec - 1))), (e1 + 1). split; [reflexivity|].
    split; [lia|]. rewrite Z2Pos.id by lia.
    assert (0 < 2 ^ (k - (e1 + 1))) by (apply Z.pow_pos_nonneg; lia). nia.
Qed.

Lemma round_ge (s : bool) (m e B k : Z) :
  0 < m -> 0 <= fexp prec emax (Zdigits2 m + e) - e ->
  2 ^ (prec - 1) <= B < 2 ^ prec -> emin prec emax <= k ->
  e <= k -> B * 2 ^ (k - e) <= m ->
  binary_round_aux prec emax s m e loc_Exact = S754_infinity s \/
  exists M E, binary_round_aux prec emax s m e loc_Exact = S754_finite s M E /\
              (k < E \/ (E = k /\ B <= Z.pos M)).
Proof.
  intros Hm Hn HB Hk Hek Hle.
  destruct (binary_round_aux_exact s m e Hm Hn) as (M1 & HM & Hex & Hq & ->).
  set (e1 := fexp prec emax (Zdigits2 m + e)) in *. set (n := e1 - e) in *.
  assert (Hp1 : 0 < 2 ^ (prec - 1)) by (apply Z.pow_pos_nonneg; lia).
  assert (Hpn : 0 < 2 ^ n) by (apply Z.pow_pos_nonneg; lia).
  destruct (Zdigits2_bounds m Hm) as [Hlo Hhi].
  assert (Hd : prec + (k - e) <= Zdigits2 m).
  { assert (prec - 1 + (k - e) < Zdigits2 m); [|lia].
    apply Zdigits2_gt; try lia. rewrite Z.pow_add_r by lia.
    assert (0 < 2 ^ (k - e)) by (apply Z.pow_pos_nonneg; lia). nia. }
  assert (He1 : k <= e1) by (unfold e1, fexp, emin in *; lia).
  assert (Hcase : (k < e1 /\ 1 <= M1) \/ (e1 = k /\ B <= M1)).
  { destruct (Z.eq_dec e1 k) as [E|NE]; [right; split; auto|left; split; try lia].
    - assert (Hn' : n = k - e) by (unfold n; lia).
      assert (B <= m / 2 ^ n); [|lia].
      apply Z.div_le_lower_bound; [lia|]. rewrite Hn'. lia.
    - assert (Hn' : n = Zdigits2 m - prec)
        by (unfold n, e1, fexp, emin in *; lia).
      assert (2 ^ (prec - 1) <= m / 2 ^ n); [|lia].
      apply Z.div_le_lower_bound; [lia|].
      rewrite <- Z.pow_add_r by lia.
      replace (n + (prec - 1)) with (Zdigits2 m - 1) by lia. exact Hlo. }
  unfold rounded.
  destruct (Z.eqb_spec M1 0) as [HZ|NZ]; [lia|].
  destruct (Z.ltb_spec M1 (2 ^ prec)) as [Hlt|Hge].
  - destruct (e1 <=? emax - prec); [right|left; reflexivity].
    exists (Z.to_pos M1), e1. split; [reflexivity|]. rewrite Z2Pos.id by lia. lia.
  - destruct (e1 + 1 <=? emax - prec); [right|left; reflexivity].
    exists (Z.to_pos (2 ^ (prec - 1))), (e1 + 1). split; [reflexivity|]. lia.
Qed.

Lemma binary_round_le (s : bool) (m : positive) (e B k : Z) :
  2 ^ (prec - 1) <= B < 2 ^ prec -> emin prec emax <= k <= emax - prec ->
  e <= k -> Z.pos m <= B * 2 ^ (k - e) ->
  binary_round prec emax s m e = S754_zero s \/
  exists M E, binary_round prec emax s m e = S754_finite s M E /\
              E <= k /\ Z.pos M <= B * 2 ^ (k - E).
Proof.
  intros HB Hk Hek Hle. unfold binary_round.
  destruct (shl_align_spec m e (fexp prec emax (Z.pos (digits2_pos m) + e))) as [Hm He].
  destruct (shl_align m e (fexp prec emax (Z.pos (digits2_pos m) + e))) as [mz ez].
  cbn [fst snd] in Hm, He.
  assert (Hj : 0 <= e - ez) by lia.
  assert (Hpj : 0 < 2 ^ (e - ez)) by (apply Z.pow_pos_nonneg; lia).
  apply round_le; auto; try lia.
  - rewrite Hm, Zdigits2_shift by lia. cbn [Zdigits2].
    replace (Z.pos (digits2_pos m) + (e - ez) + ez) with (Z.pos (digits2_pos m) + e) by lia.
    lia.
  - rewrite Hm. replace (k - ez) with ((k - e) + (e - ez)) by lia.
    rewrite Z.pow_add_r by lia. nia.
Qed.

Lemma binary_round_ge (s : bool) (m : positive) (e B k : Z) :
  2 ^ (prec - 1) <= B < 2 ^ prec -> emin prec emax <= k ->
  e <= k -> B * 2 ^ (k - e) <= Z.pos m ->
  binary_round prec emax s m e = S754_infinity s \/
  exists M E, binary_round prec emax s m e = S754_finite s M E /\
              (k < E \/ (E = k /\ B <= Z.pos M)).
Proof.
  intros HB Hk Hek Hle. unfold binary_round.
  destruct (shl_align_spec m e (fexp prec emax (Z.pos (digits2_pos m) + e))) as [Hm He].
  destruct (shl_align m e (fexp prec emax (Z.pos (digits2_pos m) + e))) as [mz ez].
  cbn [fst snd] in Hm, He.
  assert (Hj : 0 <= e - ez) by lia.
  assert (Hpj : 0 < 2 ^ (e - ez)) by (apply Z.pow_pos_nonneg; lia).
  apply round_ge; auto; try lia.
  - rewrite Hm, Zdigits2_shift by lia. cbn [Zdigits2].
    replace (Z.pos (digits2_pos m) + (e - ez) + ez) with (Z.pos (digits2_pos m) + e) by lia.
    lia.
  - rewrite Hm. replace (k - ez) with ((k - e) + (e - ez)) by lia.
    rewrite Z.pow_add_r by lia. nia.
Qed.

End Rounding.

Lemma SFleb_finite (M B : positive) (E k : Z) :
  E < k \/ (E = k /\ Z.pos M <= Z.pos B) ->
  SFleb (S754_finite false M E) (S754_finite false B k) = true.
Proof.
  intros H. unfold SFleb, SFcompare.
  destruct (Z.compare_spec E k) as [Ee|El|Eg]; try reflexivity; try lia.
  change (Pos.compare_cont Eq M B) with (Pos.compare M B).
  destruct (Pos.compare_spec M B); try reflexivity. lia.
Qed.

Lemma SFleb_finite_inv (M B : positive) (E k : Z) :
  SFleb (S754_finite false M E) (S754_finite false B k) = true ->
  E < k \/ (E = k /\ Z.pos M <= Z.pos B).
Proof.
  unfold SFleb, SFcompare.
  destruct (Z.compare_spec E k) as [Ee|El|Eg]; try discriminate; auto.
  change (Pos.compare_cont Eq M B) with (Pos.compare M B).
  destruct (Pos.compare_spec M B); try discriminate; intros _; right; split; auto; lia.
Qed.

(* ================================================================== *)
(** ** A smaller number minus a larger one is negative *)

Section Subtraction.
Variables prec emax : Z.
Hypothesis Hprec : 0 < prec.

(** Rounding a non-zero integer at an exponent of the format never gives
    zero. *)
Lemma binary_round_nonzero (s : bool) (m : positive) (e : Z) :
  emin prec emax <= e ->
  exists M1 e1, 1 <= M1 /\ binary_round prec emax s m e = rounded prec emax s M1 e1.
Proof.
  intros He. unfold binary_round.
  destruct (shl_align_spec m e (fexp prec emax (Z.pos (digits2_pos m) + e))) as [Hm Hz].
  destruct (shl_align m e (fexp prec emax (Z.pos (digits2_pos m) + e))) as [mz ez].
  cbn [fst snd] in Hm, Hz.
  assert (Hj : 0 <= e - ez) by lia.
  assert (Hd : Zdigits2 (Z.pos mz) + ez = Z.pos (digits2_pos m) + e).
  { rewrite Hm, Zdigits2_shift by lia. cbn [Zdigits2]. lia. }
  destruct (binary_round_aux_exact prec emax Hprec s (Z.pos mz) ez) as (M1 & HM & _ & _ & ->).
  - lia.
  - rewrite Hd. lia.
  - exists M1, (fexp prec emax (Zdigits2 (Z.pos mz) + ez)). split; [|reflexivity].
    rewrite Hd in HM.
    set (n := fexp prec emax (Z.pos (digits2_pos m) + e) - ez) in *.
    assert (Hn : 0 <= n) by (unfold n; lia).
    assert (Hpn : 0 < 2 ^ n) by (apply Z.pow_pos_nonneg; lia).
    assert (1 <= Z.pos mz / 2 ^ n); [|lia].
    apply Z.div_le_lower_bound; [lia|]. rewrite Z.mul_1_r.
    destruct (Z.eq_dec n 0) as [->|NZ]; [simpl; lia|].
    assert (Hez : ez = e) by (unfold n in *; lia).
    assert (Hn' : n = Z.pos (digits2_pos m) - prec)
      by (unfold n, fexp, emin in *; lia).
    destruct (digits2_pos_bounds m) as [Hlo _].
    assert (Z.pos mz = Z.pos m) by (rewrite Hm, Hez, Z.sub_diag; simpl; lia).
    assert (2 ^ n <= 2 ^ (Z.pos (digits2_pos m) - 1)) by (apply Z.pow_le_mono_r; lia).
    lia.
Qed.

Lemma rounded_negative (M1 e1 : Z) :
  1 <= M1 -> SFltb (rounded prec emax true M1 e1) (S754_zero false) = true.
Proof.
  intros H. unfold rounded. destruct (Z.eqb_spec M1 0); [lia|].
  destruct (M1 <? 2 ^ prec); [destruct (e1 <=? emax - prec)|destruct (e1 + 1 <=? emax - prec)];
    reflexivity.
Qed.

(** In a canonical float the mantissa has at most [prec] digits, and exactly
    [prec] above the smallest exponent. *)
Lemma canonical_digits (m : positive) (e : Z) :
  canonical_mantissa prec emax m e = true ->
  emin prec emax <= e /\ Z.pos m < 2 ^ prec /\
  (emin prec emax < e -> 2 ^ (prec - 1) <= Z.pos m).
Proof.
  unfold canonical_mantissa. intros H. apply Z.eqb_eq in H.
  destruct (digits2_pos_bounds m) as [Hlo Hhi].
  assert (Hd : Z.pos (digits2_pos m) <= prec) by (unfold fexp in H; lia).
  split; [unfold fexp in H; lia|]. split.
  - eapply Z.lt_le_trans; [exact Hhi|]. apply Z.pow_le_mono_r; lia.
  - intros He. assert (Z.pos (digits2_pos m) = prec) by (unfold fexp in H; lia).
    eapply Z.le_trans; [|exact Hlo]. apply Z.pow_le_mono_r; lia.
Qed.

(** Mantissas of canonical floats, aligned at the smaller exponent, compare
    as the exponents do. *)
Lemma canonical_aligned_lt (m1 m2 : positive) (e1 e2 : Z) :
  canonical_mantissa prec emax m1 e1 = true ->
  canonical_mantissa prec emax m2 e2 = true ->
  e1 < e2 ->
  Z.pos (fst (shl_align m1 e1 (Z.min e1 e2))) < Z.pos (fst (shl_align m2 e2 (Z.min e1 e2))).
Proof.
  intros H1 H2 Hlt.
  destruct (canonical_digits m1 e1 H1) as (He1 & Hm1 & _).
  destruct (canonical_digits m2 e2 H2) as (_ & _ & Hm2).
  destruct (shl_align_spec m1 e1 (Z.min e1 e2)) as [A1 B1].
  destruct (shl_align_spec m2 e2 (Z.min e1 e2)) as [A2 B2].
  rewrite A1, A2, B1, B2.
  replace (Z.min e1 (Z.min e1 e2)) with e1 by lia.
  replace (Z.min e2 (Z.min e1 e2)) with e1 by lia.
  rewrite Z.sub_diag, Z.pow_0_r, Z.mul_1_r.
  assert (2 <= 2 ^ (e2 - e1)).
  { change 2 with (2 ^ 1) at 1. apply Z.pow_le_mono_r; lia. }
  assert (2 ^ prec = 2 * 2 ^ (prec - 1)).
  { replace prec with (Z.succ (prec - 1)) at 1 by lia. apply Z.pow_succ_r. lia. }
  specialize (Hm2 ltac:(lia)). nia.
Qed.

Lemma aligned_same_exponent (m1 m2 : positive) (e : Z) :
  (m1 < m2)%positive ->
  Z.pos (fst (shl_align m1 e (Z.min e e))) < Z.pos (fst (shl_align m2 e (Z.min e e))).
Proof.
  intros H.
  destruct (shl_align_spec m1 e (Z.min e e)) as [A1 B1].
  destruct (shl_align_spec m2 e (Z.min e e)) as [A2 B2].
  rewrite A1, A2, B1, B2. replace (Z.min e (Z.min e e)) with e by lia.
  rewrite Z.sub_diag, Z.pow_0_r. lia.
Qed.

(** When [a < b], the difference [a - b] is negative: never zero, never a
    number above zero. *)
Lemma SFsub_lt_negative (a b : spec_float) :
  valid_binary prec emax a = true -> valid_binary prec emax b = true ->
  SFltb a b = true ->
  SFltb (SFsub prec emax a b) (S754_zero false) = true.
Proof.
  intros Va Vb Hlt.
  destruct a as [sa|[]| |sa ma ea], b as [sb|[]| |sb mb eb];
    try discriminate Hlt; try reflexivity;
    try (destruct sa; try discriminate Hlt; reflexivity);
    try (destruct sb; try discriminate Hlt; reflexivity).
  cbn [valid_binary] in Va, Vb. unfold bounded in Va, Vb.
  apply andb_true_iff in Va, Vb. destruct Va as [Ca _], Vb as [Cb _].
  destruct (canonical_digits ma ea Ca) as (Hea & _ & _).
  destruct (canonical_digits mb eb Cb) as (Heb & _ & _).
  cbn [SFsub].
  set (ez := Z.min ea eb).
  assert (Hez : emin prec emax <= ez) by (unfold ez; lia).
  set (a' := fst (shl_align ma ea ez)). set (b' := fst (shl_align mb eb ez)).
  assert (Hneg : cond_Zopp sa (Z.pos a') - cond_Zopp sb (Z.pos b') < 0).
  { unfold SFltb, SFcompare in Hlt.
    destruct sa, sb; cbn [cond_Zopp]; try discriminate Hlt; try lia.
    - (* both negative: |a| > |b| *)
      destruct (Z.compare_spec ea eb) as [E|E|E]; try discriminate Hlt.
      + subst eb. unfold a', b', ez.
        assert (mb < ma)%positive.
        { change (Pos.compare_cont Eq ma mb) with (Pos.compare ma mb) in Hlt.
          destruct (Pos.compare_spec ma mb); try discriminate Hlt. assumption. }
        pose proof (aligned_same_exponent mb ma ea ltac:(assumption)). lia.
      + pose proof (canonical_aligned_lt mb ma eb ea Cb Ca ltac:(lia)) as H.
        unfold a', b', ez. rewrite Z.min_comm in H. lia.
    - (* both positive *)
      destruct (Z.compare_spec ea eb) as [E|E|E]; try discriminate Hlt.
      + subst eb. unfold a', b', ez.
        assert (ma < mb)%positive.
        { change (Pos.compare_cont Eq ma mb) with (Pos.compare ma mb) in Hlt.
          destruct (Pos.compare_spec ma mb); try discriminate Hlt. assumption. }
        pose proof (aligned_same_exponent ma mb ea ltac:(assumption)). lia.
      + pose proof (canonical_aligned_lt ma mb ea eb Ca Cb ltac:(lia)) as H.
        unfold a', b', ez. lia. }
  destruct (cond_Zopp sa (Z.pos a') - cond_Zopp sb (Z.pos b')) as [|p|p];
    try lia.
  cbn [binary_normalize].
  destruct (binary_round_nonzero true p ez Hez) as (M1 & e1 & HM & ->).
  apply rounded_negative, HM.
Qed.
End Subtraction.

(* ================================================================== *)
(** ** Literals *)

(** The decimal literals are the correctly rounded quotients. *)
Lemma decimal_literals :
  f32_0_1 = (F32.of_Z 1 / F32.of_Z 10)%f32 /\
  f32_1_1 = (F32.of_Z 11 / F32.of_Z 10)%f32 /\
  EPSILON_1e4 = (F64.of_Z 1 / F64.of_Z 10000)%f64.
Proof. repeat split; vm_compute; reflexivity. Qed.

(* ================================================================== *)
(** ** Not-a-number through the vector operations *)

Lemma dot_nan_r (a b : Vec3f) : Vec3.all_nan b -> Vec3.dot a b = S754_nan.
Proof.
  intros (Hx & Hy & Hz). unfold Vec3.dot, F32.add, F32.mul.
  rewrite Hx, Hy, Hz, !SFmul_nan_r, !SFadd_nan_r. reflexivity.
Qed.

Lemma squaredNorm_nan (a : Vec3f) : Vec3.all_nan a -> Vec3.squaredNorm a = S754_nan.
Proof. apply dot_nan_r. Qed.

Lemma norm_nan (a : Vec3f) : Vec3.all_nan a -> Vec3.norm a = S754_nan.
Proof. intros H. unfold Vec3.norm. rewrite (squaredNorm_nan a H). reflexivity. Qed.

Lemma scale_nan (a : Vec3f) : Vec3.all_nan (Vec3.scale a S754_nan).
Proof.
  unfold Vec3.all_nan, Vec3.scale, Vec3.map, F32.mul; simpl.
  rewrite !SFmul_nan_r. auto.
Qed.

Lemma lscale_nan (a : Vec3f) : Vec3.all_nan (Vec3.lscale S754_nan a).
Proof. unfold Vec3.all_nan; simpl; auto. Qed.

Lemma add_nan_r (a b : Vec3f) : Vec3.all_nan b -> Vec3.all_nan (Vec3.add a b).
Proof.
  intros (Hx & Hy & Hz). unfold Vec3.all_nan, Vec3.add, Vec3.zip, F32.add; simpl.
  rewrite Hx, Hy, Hz, !SFadd_nan_r. auto.
Qed.

Lemma sub_nan_r (a b : Vec3f) : Vec3.all_nan b -> Vec3.all_nan (Vec3.sub a b).
Proof.
  intros (Hx & Hy & Hz). unfold Vec3.all_nan, Vec3.sub, Vec3.zip, F32.sub; simpl.
  rewrite Hx, Hy, Hz, !SFsub_nan_r. auto.
Qed.

Lemma sub_nan_l (a b : Vec3f) : Vec3.all_nan a -> Vec3.all_nan (Vec3.sub a b).
Proof.
  intros (Hx & Hy & Hz). unfold Vec3.all_nan, Vec3.sub, Vec3.zip, F32.sub; simpl.
  rewrite Hx, Hy, Hz. auto.
Qed.

Lemma pointAt_nan (l : ParametrizedLine) : Vec3.all_nan (Line.pointAt l S754_nan).
Proof. apply add_nan_r, scale_nan. Qed.

Lemma signedDistance_nan (pl : Hyperplane) (p : Vec3f) :
  Vec3.all_nan p -> Plane.signedDistance pl p = S754_nan.
Proof.
  intros H. unfold Plane.signedDistance. rewrite (dot_nan_r _ _ H). reflexivity.
Qed.

(* ================================================================== *)
(** ** Containment *)

(** The three tests of [is_inside], as one boolean. *)
Lemma is_inside_tests (EPSILON : F64.t) (h : DrainHole) (pt : Vec3f) :
  is_inside EPSILON h pt =
  negb (F64.of_float (axial_distance h pt) <? EPSILON)%f64
  && negb (axial_distance h pt >? height h)%f32
  && (radial_sqr_distance h pt <? F32.sqr (radius h))%f32.
Proof.
  unfold is_inside.
  destruct (F64.of_float (axial_distance h pt) <? EPSILON)%f64;
    destruct (axial_distance h pt >? height h)%f32;
    destruct (radial_sqr_distance h pt <? F32.sqr (radius h))%f32; reflexivity.
Qed.

(** For numbers, "not below" is "at least" and "not above" is "at most". *)
Lemma is_inside_closed_interval (EPSILON : F64.t) (h : DrainHole) (pt : Vec3f) :
  is_nan EPSILON = false ->
  is_nan (height h) = false ->
  is_nan (axial_distance h pt) = false ->
  is_inside EPSILON h pt =
  (EPSILON <=? F64.of_float (axial_distance h pt))%f64
  && (axial_distance h pt <=? height h)%f32
  && (radial_sqr_distance h pt <? F32.sqr (radius h))%f32.
Proof.
  intros He Hh Hd. rewrite is_inside_tests.
  pose proof (SFconv_not_nan F64.prec F64.emax _ Hd) as Hd'.
  unfold F64.leb, F32.leb, F64.ltb, F32.gtb, F64.of_float.
  rewrite (SFleb_negb_ltb _ _ Hd' He), (SFleb_negb_ltb _ _ Hh Hd).
  reflexivity.
Qed.


(* ================================================================== *)
(** ** The scenarios of the specification *)

(** A line through the side of the unit hole, orthogonal to the axis at
    half height: hits at the parameters 4 and 6, with normals orthogonal
    to the axis. *)
Example scenario_through_the_side :
  get_intersections is_approx_eps hole_unit_z (vec3 0 (-5) 1) (vec3 0 1 0)
    = (true, ((f32 4, vec3d 0 1 0), (f32 6, vec3d 0 (-1) 0))).
Proof. vm_compute. reflexivity. Qed.

(** A line along the axis from below: hits at the parameters 5 and 7, on
    the near cap with normal [+z] and on the far cap with normal [-z]. *)
Example scenario_along_the_axis :
  let r := get_intersections is_approx_eps hole_unit_z (vec3 0 0 (-5)) (vec3 0 0 1) in
  fst r = true /\
  fst (fst (snd r)) = f32 5 /\ dz (snd (fst (snd r))) = f64 1 /\
  fst (snd (snd r)) = f32 7 /\ dz (snd (snd (snd r))) = f64 (-1).
Proof. repeat split; vm_compute; reflexivity. Qed.

(** A line that misses the bounding sphere of the hole is rejected at
    once, and [out] keeps its initial entries. *)
Lemma outside_bounding_sphere_rejected (is_approx : F32.t -> F32.t -> bool)
    (h : DrainHole) (s dir : Vec3f) :
  outside_bounding_sphere h (ray_of s dir) = true ->
  get_intersections is_approx h s dir = (false, out_init).
Proof.
  intros H. unfold get_intersections, hits_found. rewrite H. reflexivity.
Qed.

(* ================================================================== *)
(** ** Intersections: accepted hits carry a number *)

Lemma accept_ok (st : Found) (h : Hit) :
  params_ok st -> is_nan (fst h) = false -> params_ok (accept st h).
Proof.
  destruct st as [[|[|n]] [o0 o1]]; unfold params_ok; simpl; auto.
Qed.

Section HitFacts.
Variable is_approx : F32.t -> F32.t -> bool.

Lemma cap_accepts_param (h : DrainHole) (ray : ParametrizedLine) (i : Z) :
  cap_accepts h ray i = true -> is_nan (fst (cap_hit h ray i)) = false.
Proof.
  unfold cap_accepts, cap_hit, Line.intersectionPoint; simpl.
  destruct (Line.intersectionParameter ray (cap_plane h i)) eqn:E;
    try reflexivity.
  rewrite (squaredNorm_nan _ (sub_nan_r _ _ (pointAt_nan ray))).
  discriminate.
Qed.

Lemma wall_accepts_nan (h : DrainHole) (ray : ParametrizedLine) (base : Hyperplane)
    (w : WallSetup) (i : Z) :
  wall_par w i = S754_nan -> wall_accepts h ray base w i = false.
Proof.
  intros E. unfold wall_accepts, wall_vert_dist. rewrite E.
  rewrite (signedDistance_nan base _ (pointAt_nan ray)). reflexivity.
Qed.

Lemma wall_accepts_param (h : DrainHole) (ray : ParametrizedLine) (base : Hyperplane)
    (w : WallSetup) (i : Z) :
  wall_accepts h ray base w i = true -> is_nan (fst (wall_hit h w i)) = false.
Proof.
  intros H. simpl. destruct (wall_par w i) eqn:E; try reflexivity.
  rewrite (wall_accepts_nan h ray base w i E) in H. discriminate.
Qed.

(** Without a real square root there is no candidate parameter. *)
Lemma wall_par_nan (w : WallSetup) (i : Z) :
  wall_dist w = S754_nan -> wall_par w i = S754_nan.
Proof.
  intros E. unfold wall_par, wall_isect. rewrite E.
  unfold F32.mul at 1. rewrite SFmul_nan_r.
  rewrite (norm_nan _ (sub_nan_l _ _ (add_nan_r _ _ (lscale_nan _)))).
  reflexivity.
Qed.

Lemma cap_iter_ok (h : DrainHole) (ray : ParametrizedLine) (i : Z) (st : Found) :
  params_ok st -> params_ok (cap_iter h ray i st).
Proof.
  intros H. unfold cap_iter. destruct (cap_accepts h ray i) eqn:E; auto.
  apply accept_ok; auto. apply cap_accepts_param, E.
Qed.

Lemma wall_iter_ok (h : DrainHole) (ray : ParametrizedLine) (base : Hyperplane)
    (w : WallSetup) (i : Z) (st : Found) :
  params_ok st -> params_ok (wall_iter h ray base w i st).
Proof.
  intros H. unfold wall_iter. destruct (Nat.eqb (fst st) 2); auto.
  destruct (wall_accepts h ray base w i) eqn:E; auto.
  apply accept_ok; auto. apply (wall_accepts_param h ray base w i E).
Qed.

Lemma hits_found_ok (h : DrainHole) (s dir : Vec3f) :
  params_ok (hits_found is_approx h s dir).
Proof.
  unfold hits_found. destruct (outside_bounding_sphere h (ray_of s dir)).
  - exact I.
  - destruct (caps is_approx h (ray_of s dir)) as [st base] eqn:E.
    assert (Hst : params_ok st).
    { unfold caps in E. destruct (not_parallel_to_caps is_approx h (ray_of s dir));
        inversion E; subst; [apply cap_iter_ok, cap_iter_ok|]; exact I. }
    unfold wall. destruct (wall_runs is_approx h (ray_of s dir) st); auto.
    apply wall_iter_ok, wall_iter_ok, Hst.
Qed.

Lemma sort_hits_sorted (out : Hits) :
  is_nan (fst (fst out)) = false -> is_nan (fst (snd out)) = false ->
  (fst (fst (sort_hits out)) <=? fst (snd (sort_hits out)))%f32 = true.
Proof.
  intros H0 H1. unfold sort_hits, F32.gtb, F32.leb.
  destruct (SFltb (fst (snd out)) (fst (fst out))) eqn:E; simpl.
  - apply SFltb_leb, E.
  - rewrite (SFleb_negb_ltb _ _ H1 H0), E. reflexivity.
Qed.
End HitFacts.

(** The line through [(1,-5,1)] along [+y] touches the unit hole in the
    single point [(1,0,1)]: its point at the parameter [a/b] is within the
    radius only for [a/b = 5].  The function accepts that point twice and
    reports an intersection, with both parameters equal to 5. *)
Lemma tangent_line_reported :
  let s := vec3 1 (-5) 1 in
  let dir := vec3 0 1 0 in
  (forall a b : Z, 0 < b ->
   (b * b + (a - 5 * b) * (a - 5 * b) <= b * b <-> a = 5 * b)) /\
  Line.pointAt (ray_of s dir) (f32 5) = vec3 1 0 1 /\
  radial_sqr_distance hole_unit_z (vec3 1 0 1) = sqr_radius hole_unit_z /\
  fst (hits_found is_approx_eps hole_unit_z s dir) = 2%nat /\
  get_intersections is_approx_eps hole_unit_z s dir
    = (true, ((f32 5, vec3d (-1) 0 0), (f32 5, vec3d (-1) 0 0))).
Proof.
  split; [intros a b Hb; split; nia|]. repeat split; vm_compute; reflexivity.
Qed.

(** C2 (amended).  [get_intersections] returns true exactly when two hits
    were accepted (end caps plus lateral wall), and reports no intersection
    for any other count; whenever it returns true the two returned
    parameters are in ascending order. *)
Theorem get_intersections_two_sorted (is_approx : F32.t -> F32.t -> bool)
    (h : DrainHole) (s dir : Vec3f) :
  let r := get_intersections is_approx h s dir in
  (fst r = true <-> fst (hits_found is_approx h s dir) = 2%nat) /\
  (fst (hits_found is_approx h s dir) <> 2%nat -> fst r = false) /\
  (fst r = true -> (fst (fst (snd r)) <=? fst (snd (snd r)))%f32 = true).
Proof.
  pose proof (hits_found_ok is_approx h s dir) as Hok.
  unfold get_intersections.
  destruct (hits_found is_approx h s dir) as [found out]; simpl.
  destruct (Nat.eqb found 2) eqn:E; simpl.
  - apply Nat.eqb_eq in E. subst found. destruct Hok as [H0 H1].
    repeat split; auto; try tauto. intros _. apply sort_hits_sorted; assumption.
  - apply Nat.eqb_neq in E. repeat split; auto; try tauto; discriminate.
Qed.

(* ================================================================== *)
(** ** Intersections: the parameters of the lateral wall *)

(** C3.  The line from [(0,5,1)] along [+y] meets the wall of the unit
    hole behind its origin, at parameters -4 and -6.  The function reports
    the parameters 4 and 6: the points at those parameters are 9 and 11
    away from the axis, while the points at -4 and -6 lie on the wall. *)
Theorem wall_parameter_sign_lost :
  let s := vec3 0 5 1 in
  let dir := vec3 0 1 0 in
  let ray := ray_of s dir in
  get_intersections is_approx_eps hole_unit_z s dir
    = (true, ((f32 4, vec3d 0 (-1) 0), (f32 6, vec3d 0 1 0))) /\
  Line.pointAt ray (f32 4) = vec3 0 9 1 /\
  Line.pointAt ray (f32 6) = vec3 0 11 1 /\
  radial_sqr_distance hole_unit_z (vec3 0 9 1) = f32 81 /\
  radial_sqr_distance hole_unit_z (vec3 0 11 1) = f32 121 /\
  Line.pointAt ray (f32 (-4)) = vec3 0 1 1 /\
  Line.pointAt ray (f32 (-6)) = vec3 0 (-1) 1 /\
  radial_sqr_distance hole_unit_z (vec3 0 1 1) = sqr_radius hole_unit_z /\
  radial_sqr_distance hole_unit_z (vec3 0 (-1) 1) = sqr_radius hole_unit_z /\
  axial_distance hole_unit_z (vec3 0 1 1) = f32 1 /\
  axial_distance hole_unit_z (vec3 0 (-1) 1) = f32 1.
Proof. repeat split; vm_compute; reflexivity. Qed.

(* ================================================================== *)
(** ** Intersections: rescaling the direction *)

(** Rescaling the direction changes the result.  A direction of length
    2^-100 has a squared norm that rounds to zero, so it is used as it is,
    and the line that crosses the hole is rejected; 2^100 times that
    direction is the unit vector, for which two hits are found.  Rescaling
    the direction [(1,1,1)] by 3 changes the last digit of the normalized
    direction and with it the returned parameters. *)
Lemma rescaled_direction_differs :
  let tiny := mkVec3f (f32_pow2 (-100)) F32.zero F32.zero in
  let s := vec3 (-5) 0 1 in
  (f32_pow2 100 >? F32.zero)%f32 = true /\
  Vec3.lscale (f32_pow2 100) tiny = vec3 1 0 0 /\
  Vec3.normalized tiny = tiny /\
  fst (get_intersections is_approx_eps hole_unit_z s tiny) = false /\
  get_intersections is_approx_eps hole_unit_z s (Vec3.lscale (f32_pow2 100) tiny)
    = (true, ((f32 4, vec3d 1 0 0), (f32 6, vec3d (-1) 0 0))) /\
  Vec3.lscale (f32 3) (vec3 1 1 1) = vec3 3 3 3 /\
  fst (fst (snd (get_intersections is_approx_eps hole_unit_z (vec3 (-2) (-2) (-1)) (vec3 1 1 1))))
    = S754_finite false 9392543 (-22) /\
  fst (fst (snd (get_intersections is_approx_eps hole_unit_z (vec3 (-2) (-2) (-1)) (vec3 3 3 3))))
    = S754_finite false 9392541 (-22).
Proof. repeat split; vm_compute; reflexivity. Qed.

(** The result depends on the direction only through its normalization. *)
Lemma get_intersections_normalized (is_approx : F32.t -> F32.t -> bool)
    (h : DrainHole) (s dir dir' : Vec3f) :
  Vec3.normalized dir' = Vec3.normalized dir ->
  get_intersections is_approx h s dir' = get_intersections is_approx h s dir.
Proof.
  intros H. unfold get_intersections, hits_found, ray_of. rewrite H. reflexivity.
Qed.

(* ================================================================== *)
(** ** Intersections: a negative square-root argument *)

(** When the squared distance of the closest point exceeds the squared
    radius, and both are well-formed floats, the argument of the square root
    in the lateral-wall phase is negative. *)
Lemma exceeding_radius_negative_argument (h : DrainHole) (ray : ParametrizedLine)
    (base : Hyperplane) :
  let w := wall_setup h ray base in
  let closest_sqr := Vec3.squaredNorm (Vec3.sub (closest w) (pos h)) in
  F32.valid (sqr_radius h) = true -> F32.valid closest_sqr = true ->
  (closest_sqr >? sqr_radius h)%f32 = true ->
  (sqrt_arg w <? F32.zero)%f32 = true.
Proof.
  intros w closest_sqr Va Vb Hgt.
  apply (SFsub_lt_negative F32.prec F32.emax eq_refl (sqr_radius h) closest_sqr Va Vb Hgt).
Qed.

(** C10.  When the lateral-wall step runs and the argument of its square
    root is negative, the root is not a number, every value derived from
    it is not a number, neither candidate passes the height test, the
    step leaves [(found, out)] as it was and the function returns false. *)
Theorem negative_root_no_wall_hit (is_approx : F32.t -> F32.t -> bool)
    (h : DrainHole) (s dir : Vec3f) :
  let ray := ray_of s dir in
  let st := fst (caps is_approx h ray) in
  let base := snd (caps is_approx h ray) in
  let w := wall_setup h ray base in
  outside_bounding_sphere h ray = false ->
  wall_runs is_approx h ray st = true ->
  (sqrt_arg w <? F32.zero)%f32 = true ->
  wall_dist w = S754_nan /\
  wall_accepts h ray base w (-1) = false /\
  wall_accepts h ray base w 1 = false /\
  wall is_approx h ray base st = st /\
  fst (get_intersections is_approx h s dir) = false.
Proof.
  intros ray st base w Hsphere Hruns Hneg.
  assert (Hd : wall_dist w = S754_nan).
  { unfold w, wall_setup; simpl. apply (SFsqrt_negative F32.prec F32.emax), Hneg. }
  assert (Ha : forall i, wall_accepts h ray base w i = false).
  { intros i. apply wall_accepts_nan, wall_par_nan, Hd. }
  assert (Hw : wall is_approx h ray base st = st).
  { unfold wall. rewrite Hruns. fold w. unfold wall_iter.
    rewrite (Ha (-1)), (Ha 1).
    destruct (Nat.eqb (fst st) 2) eqn:E; rewrite ?E; reflexivity. }
  repeat split; auto.
  unfold get_intersections, hits_found. fold ray. rewrite Hsphere.
  unfold st, base in Hw, Hruns.
  destruct (caps is_approx h ray) as [st0 base0]. simpl in Hw, Hruns.
  rewrite Hw. unfold wall_runs in Hruns.
  apply andb_true_iff in Hruns. destruct Hruns as [Hf _].
  destruct st0 as [found out]. simpl in *. rewrite Hf. reflexivity.
Qed.

Lemma negative_root_no_wall_hit_witness :
  let s := mkVec3f (f32 5 / f32 4)%f32 (f32 (-5)) (f32 1) in
  let dir := vec3 0 1 0 in
  let ray := ray_of s dir in
  let st := fst (caps is_approx_eps hole_unit_z ray) in
  let base := snd (caps is_approx_eps hole_unit_z ray) in
  let w := wall_setup hole_unit_z ray base in
  wall_dist w = S754_nan /\
  wall_accepts hole_unit_z ray base w (-1) = false /\
  wall_accepts hole_unit_z ray base w 1 = false /\
  wall is_approx_eps hole_unit_z ray base st = st /\
  fst (get_intersections is_approx_eps hole_unit_z s dir) = false.
Proof.
  apply (negative_root_no_wall_hit is_approx_eps hole_unit_z
           (mkVec3f (f32 5 / f32 4)%f32 (f32 (-5)) (f32 1)) (vec3 0 1 0));
    vm_compute; reflexivity.
Defined.

(* ================================================================== *)
(** ** The scale factor stays between 1 and 8 *)

Lemma f64_consts :
  F64.one = S754_finite false 4503599627370496 (-52) /\
  MAX_OVERSAMPL = S754_finite false 7881299347898368 (-50) /\
  F64_eight = S754_finite false 4503599627370496 (-49).
Proof. repeat split; reflexivity. Qed.

Lemma voxel_scale_bounds (q : F64.t) :
  F64.valid q = true ->
  (F64.zero <=? q)%f64 = true ->
  (q <=? F64.one)%f64 = true ->
  (F64.one <=? F64.one + MAX_OVERSAMPL * q)%f64 = true /\
  (F64.one + MAX_OVERSAMPL * q <=? F64_eight)%f64 = true.
Proof.
  intros Hv H0 H1.
  destruct q as [[]|[]| |[] m e]; try discriminate H0; try discriminate H1;
    try (split; reflexivity).
  destruct f64_consts as (E1 & E7 & E8). rewrite E1, E7, E8 in *.
  apply SFleb_finite_inv in H1.
  unfold F64.valid, valid_binary, bounded, canonical_mantissa in Hv.
  apply andb_true_iff in Hv. destruct Hv as [Hc Hb].
  apply Z.eqb_eq in Hc. apply Z.leb_le in Hb.
  destruct (digits2_pos_bounds m) as [_ Hhi].
  assert (Hd : Z.pos (digits2_pos m) <= 53).
  { unfold fexp, F64.prec in Hc. lia. }
  assert (He : e <= -52) by lia.
  assert (Hm : Z.pos m <= 2 ^ (- e)).
  { destruct H1 as [Hl|[-> Hl]]; [|exact Hl].
    assert (2 ^ Z.pos (digits2_pos m) <= 2 ^ (- e)) by (apply Z.pow_le_mono_r; lia).
    lia. }
  assert (Hpe : 0 < 2 ^ (- e)) by (apply Z.pow_pos_nonneg; lia).
  (* the product *)
  unfold F64.leb, F64.add, F64.mul, F64.prec, F64.emax.
  cbn [SFmul xorb].
  destruct (round_le 53 1024 eq_refl false (Z.pos (7881299347898368 * m)) (-50 + e)
              7881299347898368 (-50)) as [Ey|(M & E & Ey & HE & HM)].
  - reflexivity.
  - assert (52 < Zdigits2 (Z.pos (7881299347898368 * m))).
    { apply Zdigits2_gt; try lia. }
    unfold fexp. lia.
  - split; zcmp.
  - unfold emin. lia.
  - lia.
  - replace (-50 - (-50 + e)) with (- e) by lia. rewrite Pos2Z.inj_mul. nia.
  - rewrite Ey. split; reflexivity.
  - rewrite Ey. cbn [SFadd cond_Zopp].
    set (ez := Z.min (-52) E).
    destruct (shl_align_spec 4503599627370496%positive (-52) ez) as [Ha Hae].
    destruct (shl_align_spec M E ez) as [Hb' Hbe].
    set (a := fst (shl_align 4503599627370496%positive (-52) ez)) in *.
    set (b := fst (shl_align M E ez)) in *.
    assert (Haz : snd (shl_align 4503599627370496%positive (-52) ez) = ez) by (unfold ez in *; lia).
    assert (Hbz : snd (shl_align M E ez) = ez) by (unfold ez in *; lia).
    rewrite Haz in Ha. rewrite Hbz in Hb'.
    change (Z.pos a + Z.pos b) with (Z.pos (a + b)).
    cbn [binary_normalize].
    assert (Hez : ez <= -52) by (unfold ez; lia).
    assert (Hp1 : 0 < 2 ^ (-52 - ez)) by (apply Z.pow_pos_nonneg; lia).
    assert (Hp2 : 0 < 2 ^ (E - ez)) by (apply Z.pow_pos_nonneg; unfold ez; lia).
    assert (Hp3 : 2 ^ (- ez) = 4503599627370496 * 2 ^ (-52 - ez)).
    { replace (- ez) with (52 + (-52 - ez)) by lia. rewrite Z.pow_add_r by lia. reflexivity. }
    assert (Hbnd : Z.pos b <= 7 * 2 ^ (- ez)).
    { rewrite Hb'. replace (- ez) with ((- E) + (E - ez)) by lia.
      rewrite Z.pow_add_r by (unfold ez; lia).
      assert (Z.pos M <= 7 * 2 ^ (- E)); [|nia].
      replace (- E) with (50 + (-50 - E)) by lia. rewrite Z.pow_add_r by lia.
      change (2 ^ 50) with 1125899906842624. lia. }
    split.
    + destruct (binary_round_ge 53 1024 eq_refl false (a + b) ez 4503599627370496 (-52))
        as [Er|(M' & E' & Er & Hr)].
      * split; zcmp.
      * unfold emin. lia.
      * exact Hez.
      * rewrite Pos2Z.inj_add. lia.
      * rewrite Er. reflexivity.
      * rewrite Er. apply SFleb_finite. lia.
    + destruct (binary_round_le 53 1024 eq_refl false (a + b) ez 4503599627370496 (-49))
        as [Er|(M' & E' & Er & Hr1 & Hr2)].
      * split; zcmp.
      * unfold emin. lia.
      * lia.
      * rewrite Pos2Z.inj_add.
        replace (-49 - ez) with (3 + (-52 - ez)) by lia.
        rewrite Z.pow_add_r by lia. change (2 ^ 3) with 8. lia.
      * rewrite Er. reflexivity.
      * rewrite Er. apply SFleb_finite.
        destruct (Z.eq_dec E' (-49)) as [->|]; [right|left; lia].
        split; [reflexivity|]. rewrite Z.sub_diag, Z.pow_0_r in Hr2. lia.
Qed.

(* ================================================================== *)
(** ** The interior-shell pipeline *)

Lemma SFeqb_zero_not_gt (x : spec_float) :
  SFeqb x (S754_zero false) = true -> SFltb (S754_zero false) x = false.
Proof.
  destruct x as [s|[]| |[] m e]; simpl; intros H; try discriminate; reflexivity.
Qed.

Lemma stops_at_cancel_spec {M G : Type} (tr tr1 tr2 : list (Call M G)) :
  stops_at_cancel tr = true -> tr = tr1 ++ CStop true :: tr2 -> tr2 = [].
Proof.
  revert tr. induction tr1 as [|c tr1 IH]; intros tr H E; subst tr; simpl in H.
  - destruct tr2; [reflexivity | discriminate].
  - destruct c as [[]| | | | |]; try (apply (IH _ H eq_refl)).
    destruct (tr1 ++ CStop true :: tr2) eqn:E; [|discriminate].
    destruct tr1; discriminate.
Qed.

Section PipelineFacts.
Variables TriangleMesh FloatGrid : Type.
Variable TriangleMesh_empty : TriangleMesh.
Variable TriangleMesh_scale : F32.t -> TriangleMesh -> TriangleMesh.
Variable L : string -> string.
Variable W : Type.
Variable handler : forall X : Type, Event TriangleMesh FloatGrid X -> W -> X * W.
Variable mesh : TriangleMesh.
Variable hc : HollowingConfig.

(** Every run of [generate_interior] is one of the listed outcomes. *)
Lemma run_outcome (w : W) :
  outcome TriangleMesh_empty TriangleMesh_scale L mesh hc
    (result_of (hollow TriangleMesh_empty TriangleMesh_scale L handler mesh hc w))
    (trace_of (hollow TriangleMesh_empty TriangleMesh_scale L handler mesh hc w)).
Proof.
  unfold hollow, result_of, trace_of, generate_interior, _generate_interior,
    _grid_to_mesh.
  run_step.
  answer handler. destruct a; run_step; [apply cancelled_first|].
  answer handler. answer handler. destruct a0 as [grid|]; run_step.
  2:{ answer handler. apply engine_failed. }
  answer handler. destruct a0; run_step; [apply cancelled_second|].
  answer handler.
  destruct (closing_distance hc >? F64.zero)%f64 eqn:Hc; run_step.
  - answer handler. answer handler. destruct a2; run_step.
    + eapply (cancelled_third _ _ _ _ _ _ _ grid [CRedistance grid _ _ a1] (a1, _)).
      unfold closing_stage. rewrite Hc. eauto.
    + answer handler. answer handler. answer handler. destruct a4; run_step.
      * eapply (cancelled_fourth _ _ _ _ _ _ _ grid [CRedistance grid _ _ a1] (a1, _)).
        unfold closing_stage. rewrite Hc. eauto.
      * answer handler.
        eapply (completed _ _ _ _ _ _ _ grid [CRedistance grid _ _ a1] (a1, _)).
        unfold closing_stage. rewrite Hc. eauto.
  - answer handler. destruct a1; run_step.
    + eapply (cancelled_third _ _ _ _ _ _ _ grid [] (grid, _)).
      unfold closing_stage. rewrite Hc. auto.
    + answer handler. answer handler. answer handler. destruct a3; run_step.
      * eapply (cancelled_fourth _ _ _ _ _ _ _ grid [] (grid, _)).
        unfold closing_stage. rewrite Hc. auto.
      * answer handler.
        eapply (completed _ _ _ _ _ _ _ grid [] (grid, _)).
        unfold closing_stage. rewrite Hc. auto.
Qed.

(** C4.  The scale is [1 + 7 * quality], between 1 and 8 for a quality
    between 0 and 1.  Unless the first cancellation query stops the run,
    the run reports 0 and then hands to the grid construction the input
    mesh scaled by [float(scale)], the exterior band
    [0.1f * float(offset)] and the interior band
    [1.1f * float(offset + D)], where [offset = scale * min_thickness] and
    [D = scale * closing_distance]; a redistancing uses the same interior
    band.  A run that is neither cancelled nor left without a grid ends
    with the extraction, a last query and the report 100, and returns the
    extracted mesh scaled by [float(1 / scale)]. *)
Theorem scaling_and_ranges (w : W) :
  let voxel_scale := (F64.one + F64.of_Z 7 * quality hc)%f64 in
  let offset := (voxel_scale * min_thickness hc)%f64 in
  let D := (voxel_scale * closing_distance hc)%f64 in
  let out_range := (f32_0_1 * F64.to_float offset)%f32 in
  let in_range := (f32_1_1 * F64.to_float (offset + D)%f64)%f32 in
  let label := L "Hollowing" in
  let o := hollow TriangleMesh_empty TriangleMesh_scale L handler mesh hc w in
  (F64.valid (quality hc) = true /\
   (F64.zero <=? quality hc)%f64 = true /\ (quality hc <=? F64.one)%f64 = true ->
   (F64.one <=? voxel_scale)%f64 = true /\ (voxel_scale <=? F64_eight)%f64 = true) /\
  (trace_of o = [CStop true] \/
   exists answer rest,
     trace_of o =
       CStop false :: CStatus 0 label ::
       CMeshToGrid (TriangleMesh_scale (F64.to_float voxel_scale) mesh)
                   out_range in_range answer :: rest) /\
  (forall g iso band g', In (CRedistance g iso band g') (trace_of o) ->
   band = F64.of_float in_range) /\
  (In (CStop true) (trace_of o) \/
   (exists m a b, In (CMeshToGrid m a b None) (trace_of o)) \/
   exists before g iso ad omesh,
     trace_of o = before ++ [CGridToMesh g iso ad omesh; CStop false; CStatus 100 label] /\
     result_of o = TriangleMesh_scale (F64.to_float (F64.one / voxel_scale)%f64) omesh).
Proof.
  cbv zeta.
  split; [intros (Hv & H0 & H1); apply voxel_scale_bounds; assumption|].
  split_run (run_outcome w)
    (hollow TriangleMesh_empty TriangleMesh_scale L handler mesh hc w) hc.
  all: split; [first [left; reflexivity | right; eexists; eexists; reflexivity]|].
  all: split; [intros; cbn [In] in *; in_cases; reflexivity|].
  all: try (left; cbn [In]; tauto).
  all: try (right; left; do 3 eexists; cbn [In]; eauto 8; fail).
  all: right; right.
  - eexists [_; _; _; _; _; _; _; _], _, _, _, _. split; reflexivity.
  - eexists [_; _; _; _; _; _; _], _, _, _, _. split; reflexivity.
Qed.

(** C5.  Every run is cancelled at the first or the second query, or left
    without a grid, or reaches the closing stage right after the report
    30.  There, with a positive closing distance, the built grid is
    redistanced at level [-(offset + D)] with band [double(in_range)], and
    the level of the extraction is [D]; otherwise (a closing distance
    equal to zero is such a case) nothing is redistanced, the grid is the
    built one and the level is [-offset].  What follows the closing stage
    is the third query and, unless it cancels the run, the report 70 and
    then the extraction from that grid at that level with adaptivity 0. *)
Theorem closing_then_extraction (w : W) :
  let voxel_scale := voxel_scale_of hc in
  let offset := (voxel_scale * min_thickness hc)%f64 in
  let D := (voxel_scale * closing_distance hc)%f64 in
  let in_range := (f32_1_1 * F64.to_float (offset + D)%f64)%f32 in
  let label := L "Hollowing" in
  let tr := trace_of (hollow TriangleMesh_empty TriangleMesh_scale L handler mesh hc w) in
  (F64.eqb (closing_distance hc) F64.zero = true ->
   (closing_distance hc >? F64.zero)%f64 = false) /\
  (tr = [CStop true] \/
   (exists m a b,
      tr = [CStop false; CStatus 0 label; CMeshToGrid m a b None;
            CLog "Returned OpenVDB grid is NULL"]) \/
   (exists m a b g0,
      tr = [CStop false; CStatus 0 label; CMeshToGrid m a b (Some g0); CStop true]) \/
   exists m a b g0 closing g iso after,
     tr = [CStop false; CStatus 0 label; CMeshToGrid m a b (Some g0);
           CStop false; CStatus 30 label] ++ closing ++ after /\
     ((closing_distance hc >? F64.zero)%f64 = true ->
      closing = [CRedistance g0 (- (offset + D))%f64 (F64.of_float in_range) g] /\
      iso = D) /\
     ((closing_distance hc >? F64.zero)%f64 = false ->
      closing = [] /\ g = g0 /\ iso = (- offset)%f64) /\
     (after = [CStop true] \/
      exists omesh last,
        after = CStop false :: CStatus 70 label ::
                CGridToMesh g iso F64.zero omesh :: last)).
Proof.
  cbv zeta. split; [apply SFeqb_zero_not_gt|].
  split_run (run_outcome w)
    (hollow TriangleMesh_empty TriangleMesh_scale L handler mesh hc w) hc.
  all: try (left; reflexivity).
  all: try (right; left; do 3 eexists; reflexivity).
  all: try (right; right; left; do 4 eexists; reflexivity).
  all: right; right; right.
  all: do 4 eexists.
  all: first
    [ exists [CRedistance grid (- (offset_of (voxel_scale_of hc) (min_thickness hc)
                                  + D_of (voxel_scale_of hc) (closing_distance hc)))%f64
                (F64.of_float (in_range_of (offset_of (voxel_scale_of hc) (min_thickness hc))
                                 (D_of (voxel_scale_of hc) (closing_distance hc)))) grid'],
             grid', (D_of (voxel_scale_of hc) (closing_distance hc));
      eexists; split; [reflexivity|];
      split; [intros _; split; reflexivity|];
      split; [intros Hx; discriminate Hx|];
      first [left; reflexivity | right; do 2 eexists; reflexivity]
    | exists [], grid, (- offset_of (voxel_scale_of hc) (min_thickness hc))%f64;
      eexists; split; [reflexivity|];
      split; [intros Hx; discriminate Hx|];
      split; [intros _; repeat split; reflexivity|];
      first [left; reflexivity | right; do 2 eexists; reflexivity] ].
Qed.

(** C6.  Every run has one of the listed shapes: the cancellation query is
    made only at the four stage boundaries, each before the report and the
    work of the next stage.  Nothing follows a query that answered true,
    and the result is then the empty mesh.  When all four queries answered
    false the reports are 0, 30, 70, 100, in this order, each with the
    label; on every run the reports are an initial part of that list. *)
Theorem cancellation_and_progress (w : W) :
  let o := hollow TriangleMesh_empty TriangleMesh_scale L handler mesh hc w in
  let tr := trace_of o in
  let label := L "Hollowing" in
  let reports := [(0%N, label); (30%N, label); (70%N, label); (100%N, label)] in
  outcome TriangleMesh_empty TriangleMesh_scale L mesh hc (result_of o) tr /\
  (List.length (polls tr) <= 4)%nat /\
  (forall tr1 tr2, tr = tr1 ++ CStop true :: tr2 -> tr2 = []) /\
  (In true (polls tr) -> result_of o = TriangleMesh_empty) /\
  (polls tr = [false; false; false; false] -> statuses tr = reports) /\
  (exists rest, reports = statuses tr ++ rest).
Proof.
  cbv zeta. split; [apply run_outcome|].
  split_run (run_outcome w)
    (hollow TriangleMesh_empty TriangleMesh_scale L handler mesh hc w) hc.
  all: cbn [polls statuses List.length].
  all: repeat split;
    try lia;
    try (intros tr1 tr2 E; refine (stops_at_cancel_spec _ tr1 tr2 _ E); reflexivity);
    try reflexivity;
    try discriminate;
    try (intros H; cbn [In] in H; intuition discriminate);
    try (eexists; reflexivity).
Qed.

(** C7.  When the engine's grid construction returns no grid, the run
    logs an error and ends there with the empty mesh: after the failed call
    nothing but the log entry happens. *)
Theorem engine_failure_returns_empty (w : W)
    (m : TriangleMesh) (a b : F32.t) :
  let o := hollow TriangleMesh_empty TriangleMesh_scale L handler mesh hc w in
  In (CMeshToGrid m a b None) (trace_of o) ->
  result_of o = TriangleMesh_empty /\
  trace_of o =
    [CStop false; CStatus 0 (L "Hollowing"); CMeshToGrid m a b None;
     CLog "Returned OpenVDB grid is NULL"].
Proof.
  cbv zeta.
  split_run (run_outcome w)
    (hollow TriangleMesh_empty TriangleMesh_scale L handler mesh hc w) hc.
  all: cbn [In]; intros H; in_cases; split; reflexivity.
Qed.

End PipelineFacts.

Lemma scaling_and_ranges_witness :
  let hc := Toy.config 1 2 1 in
  let voxel_scale := voxel_scale_of hc in
  let offset := offset_of voxel_scale (min_thickness hc) in
  let D := D_of voxel_scale (closing_distance hc) in
  ((F64.one <=? voxel_scale)%f64 = true /\ (voxel_scale <=? F64_eight)%f64 = true) /\
  (exists answer rest,
     trace_of (Toy.go 9 true hc) =
       CStop false :: CStatus 0 "Hollowing" ::
       CMeshToGrid (Toy.scale (f32 8) Toy.triangle)
                   (out_range_of offset) (in_range_of offset D) answer :: rest) /\
  (exists before g iso ad omesh,
     trace_of (Toy.go 9 true hc) =
       before ++ [CGridToMesh g iso ad omesh; CStop false; CStatus 100 "Hollowing"] /\
     result_of (Toy.go 9 true hc) = Toy.scale (F64.to_float (F64.one / f64 8)%f64) omesh).
Proof.
  destruct (scaling_and_ranges Toy.Mesh Toy.Grid [] Toy.scale Toy.translate
              nat (Toy.handler 9 true) Toy.triangle (Toy.config 1 2 1) O)
    as (Hbound & Hengine & _ & Hresult).
  split; [apply Hbound; repeat split|]. split.
  - destruct Hengine as [H|H]; [vm_compute in H; discriminate H | exact H].
  - destruct Hresult as [H|[(m & a & b & H)|H]].
    + vm_compute in H. in_cases.
    + vm_compute in H. in_cases.
    + exact H.
Defined.

Lemma engine_failure_returns_empty_witness :
  let hc := Toy.config 1 2 1 in
  let offset := offset_of (voxel_scale_of hc) (min_thickness hc) in
  let D := D_of (voxel_scale_of hc) (closing_distance hc) in
  let m := Toy.scale (F64.to_float (voxel_scale_of hc)) Toy.triangle in
  result_of (Toy.go 9 false hc) = [] /\
  trace_of (Toy.go 9 false hc) =
    [CStop false; CStatus 0 "Hollowing";
     CMeshToGrid m (out_range_of offset) (in_range_of offset D) None;
     CLog "Returned OpenVDB grid is NULL"].
Proof.
  apply (engine_failure_returns_empty Toy.Mesh Toy.Grid [] Toy.scale Toy.translate
           nat (Toy.handler 9 false) Toy.triangle (Toy.config 1 2 1) O).
  vm_compute. right. right. left. reflexivity.
Defined.

Lemma closing_then_extraction_witness :
  let hc := Toy.config 1 2 1 in
  let hc0 := Toy.config 1 2 0 in
  let offset := offset_of (voxel_scale_of hc) (min_thickness hc) in
  let D := D_of (voxel_scale_of hc) (closing_distance hc) in
  (exists m a b g0 g omesh last,
     trace_of (Toy.go 9 true hc) =
       [CStop false; CStatus 0 "Hollowing"; CMeshToGrid m a b (Some g0);
        CStop false; CStatus 30 "Hollowing";
        CRedistance g0 (- (offset + D))%f64 (F64.of_float (in_range_of offset D)) g;
        CStop false; CStatus 70 "Hollowing"; CGridToMesh g D F64.zero omesh] ++ last) /\
  (exists m a b g0 omesh last,
     trace_of (Toy.go 9 true hc0) =
       [CStop false; CStatus 0 "Hollowing"; CMeshToGrid m a b (Some g0);
        CStop false; CStatus 30 "Hollowing";
        CStop false; CStatus 70 "Hollowing";
        CGridToMesh g0 (- offset_of (voxel_scale_of hc0) (min_thickness hc0))%f64
                    F64.zero omesh] ++ last).
Proof.
  split.
  - destruct (closing_then_extraction Toy.Mesh Toy.Grid [] Toy.scale Toy.translate
                nat (Toy.handler 9 true) Toy.triangle (Toy.config 1 2 1) O)
      as (_ & [H|[(m & a & b & H)|[(m & a & b & g0 & H)|H]]]);
      try (vm_compute in H; discriminate H).
    destruct H as (m & a & b & g0 & closing & g & iso & after & Htr & Hpos & _ & Hafter).
    destruct (Hpos eq_refl) as [-> ->].
    destruct Hafter as [-> | (omesh & last & ->)].
    + vm_compute in Htr. discriminate Htr.
    + exists m, a, b, g0, g, omesh, last. exact Htr.
  - destruct (closing_then_extraction Toy.Mesh Toy.Grid [] Toy.scale Toy.translate
                nat (Toy.handler 9 true) Toy.triangle (Toy.config 1 2 0) O)
      as (_ & [H|[(m & a & b & H)|[(m & a & b & g0 & H)|H]]]);
      try (vm_compute in H; discriminate H).
    destruct H as (m & a & b & g0 & closing & g & iso & after & Htr & _ & Hzero & Hafter).
    destruct (Hzero eq_refl) as (-> & -> & ->).
    destruct Hafter as [-> | (omesh & last & ->)].
    + vm_compute in Htr. discriminate Htr.
    + exists m, a, b, g0, omesh, last. exact Htr.
Defined.

Lemma cancellation_and_progress_witness :
  let hc := Toy.config 1 2 1 in
  statuses (trace_of (Toy.go 9 true hc))
    = [(0%N, "Hollowing"%string); (30%N, "Hollowing"%string);
       (70%N, "Hollowing"%string); (100%N, "Hollowing"%string)] /\
  result_of (Toy.go 2 true hc) = [].
Proof.
  split.
  - destruct (cancellation_and_progress Toy.Mesh Toy.Grid [] Toy.scale Toy.translate
                nat (Toy.handler 9 true) Toy.triangle (Toy.config 1 2 1) O)
      as (_ & _ & _ & _ & Hall & _).
    apply Hall. vm_compute. reflexivity.
  - destruct (cancellation_and_progress Toy.Mesh Toy.Grid [] Toy.scale Toy.translate
                nat (Toy.handler 2 true) Toy.triangle (Toy.config 1 2 1) O)
      as (_ & _ & _ & Hcancel & _).
    apply Hcancel. vm_compute. right. right. left. reflexivity.
Defined.

(* ================================================================== *)
(** * Further properties *)

(* ================================================================== *)
(** ** Signs, zeros and not-a-number *)

Section MoreFloatFacts.
Variables prec emax : Z.

Lemma is_nan_eq (x : spec_float) : is_nan x = true -> x = S754_nan.
Proof. destruct x; simpl; intros H; try discriminate; reflexivity. Qed.

Lemma SFltb_nan_r (x : spec_float) : SFltb x S754_nan = false.
Proof. destruct x; reflexivity. Qed.

Lemma SFdiv_nan_r (x : spec_float) : SFdiv prec emax x S754_nan = S754_nan.
Proof. destruct x; reflexivity. Qed.

(** Negating both factors leaves the product unchanged. *)
Lemma SFmul_opp_opp (x y : spec_float) :
  SFmul prec emax (SFopp x) (SFopp y) = SFmul prec emax x y.
Proof.
  destruct x as [[]|[]| |[] mx ex], y as [[]|[]| |[] my ey]; reflexivity.
Qed.

(** A square is never negative. *)
Lemma SFmul_self_sign (x : spec_float) : signed_as false (SFmul prec emax x x).
Proof.
  destruct x as [[]|[]| |[] m e]; simpl; try reflexivity;
    apply binary_round_aux_sign; lia.
Qed.

Lemma SFadd_sign (x y : spec_float) :
  signed_as false x -> signed_as false y -> signed_as false (SFadd prec emax x y).
Proof.
  destruct x as [sx|sx| |sx mx ex], y as [sy|sy| |sy my ey]; simpl;
    intros Hx Hy; subst; simpl; try reflexivity.
  apply binary_round_sign.
Qed.

Lemma SFsqrt_sign (x : spec_float) :
  signed_as false x -> signed_as false (SFsqrt prec emax x).
Proof.
  destruct x as [sx|sx| |sx mx ex]; simpl; intros Hx; subst; simpl; try reflexivity.
  unfold SFsqrt_core_binary.
  set (m' := match ex - 2 * _ with Z0 => _ | Zpos _ => _ | Zneg _ => _ end).
  pose proof (Z.sqrtrem_spec m') as Hs.
  destruct (Z.sqrtrem m') as [q r].
  assert (Hm : 0 <= m').
  { unfold m'. destruct (ex - 2 * _); try lia. apply Z.shiftl_nonneg. lia. }
  specialize (Hs Hm).
  apply binary_round_aux_sign. lia.
Qed.

Lemma SFdiv_sign (x y : spec_float) :
  signed_as false x -> signed_as false y -> signed_as false (SFdiv prec emax x y).
Proof.
  destruct x as [sx|sx| |sx mx ex], y as [sy|sy| |sy my ey]; simpl;
    intros Hx Hy; subst; simpl; try reflexivity.
  unfold SFdiv_core_binary.
  set (m' := match _ - _ - _ with Z0 => _ | Zpos _ => _ | Zneg _ => _ end).
  assert (Hm : 0 <= m').
  { unfold m'. destruct (_ - _ - _); try lia. apply Z.shiftl_nonneg. lia. }
  pose proof (Z_div_mod m' (Z.pos my) ltac:(lia)) as Hd.
  destruct (Z.div_eucl m' (Z.pos my)) as [q r].
  apply binary_round_aux_sign. nia.
Qed.

(** A number that is not negative is at least zero. *)
Lemma signed_zero_leb (x : spec_float) :
  signed_as false x -> is_nan x = false -> SFleb (S754_zero false) x = true.
Proof.
  destruct x as [sx|sx| |sx mx ex]; simpl; intros Hx Hn; subst; try discriminate; reflexivity.
Qed.

(** [x + (-x)] is [+0] unless it is not a number. *)
Lemma SFadd_opp_self (x : spec_float) :
  is_nan (SFadd prec emax x (SFopp x)) = false ->
  SFadd prec emax x (SFopp x) = S754_zero false.
Proof.
  destruct x as [[]|[]| |s m e]; simpl; intros H; try discriminate; try reflexivity.
  clear H. generalize (fst (shl_align m e (Z.min e e))). intros p.
  destruct s; simpl; rewrite Z.pos_sub_diag; reflexivity.
Qed.

End MoreFloatFacts.

(** *** The order of the numbers is transitive *)

Lemma compare_lex_trans (e1 e2 e3 : Z) (m1 m2 m3 : positive) :
  match (e1 ?= e2) with Lt => Lt | Gt => Gt | Eq => Pos.compare_cont Eq m1 m2 end <> Gt ->
  match (e2 ?= e3) with Lt => Lt | Gt => Gt | Eq => Pos.compare_cont Eq m2 m3 end <> Gt ->
  match (e1 ?= e3) with Lt => Lt | Gt => Gt | Eq => Pos.compare_cont Eq m1 m3 end <> Gt.
Proof.
  change (Pos.compare_cont Eq m1 m2) with (m1 ?= m2)%positive.
  change (Pos.compare_cont Eq m2 m3) with (m2 ?= m3)%positive.
  change (Pos.compare_cont Eq m1 m3) with (m1 ?= m3)%positive.
  destruct (Z.compare_spec e1 e2), (Z.compare_spec e2 e3), (Z.compare_spec e1 e3);
    try lia; try congruence;
    destruct (Pos.compare_spec m1 m2), (Pos.compare_spec m2 m3), (Pos.compare_spec m1 m3);
    try lia; congruence.
Qed.

Lemma compare_lex_trans_neg (e1 e2 e3 : Z) (m1 m2 m3 : positive) :
  match (e1 ?= e2) with Lt => Gt | Gt => Lt | Eq => CompOpp (Pos.compare_cont Eq m1 m2) end <> Gt ->
  match (e2 ?= e3) with Lt => Gt | Gt => Lt | Eq => CompOpp (Pos.compare_cont Eq m2 m3) end <> Gt ->
  match (e1 ?= e3) with Lt => Gt | Gt => Lt | Eq => CompOpp (Pos.compare_cont Eq m1 m3) end <> Gt.
Proof.
  change (Pos.compare_cont Eq m1 m2) with (m1 ?= m2)%positive.
  change (Pos.compare_cont Eq m2 m3) with (m2 ?= m3)%positive.
  change (Pos.compare_cont Eq m1 m3) with (m1 ?= m3)%positive.
  destruct (Z.compare_spec e1 e2), (Z.compare_spec e2 e3), (Z.compare_spec e1 e3);
    try lia; try congruence;
    destruct (Pos.compare_spec m1 m2), (Pos.compare_spec m2 m3), (Pos.compare_spec m1 m3);
    simpl; try lia; congruence.
Qed.

Lemma not_Gt_true (c : comparison) :
  match c with Lt | Eq => true | Gt => false end = true <-> c <> Gt.
Proof. destruct c; split; congruence. Qed.

Lemma SFleb_trans (x y z : spec_float) :
  SFleb x y = true -> SFleb y z = true -> SFleb x z = true.
Proof.
  unfold SFleb.
  destruct x as [[]|[]| |[] mx ex], y as [[]|[]| |[] my ey], z as [[]|[]| |[] mz ez];
    cbn [SFcompare]; try (intros; reflexivity); try (intros; discriminate).
  - rewrite !not_Gt_true. apply compare_lex_trans_neg.
  - rewrite !not_Gt_true. apply compare_lex_trans.
Qed.

(** *** A NaN coefficient spreads through the vector operations *)

Lemma has_nan_cases (a : Vec3f) :
  has_nan a = true -> vx a = S754_nan \/ vy a = S754_nan \/ vz a = S754_nan.
Proof.
  unfold has_nan. rewrite !orb_true_iff.
  intros [[H|H]|H]; apply is_nan_eq in H; auto.
Qed.

Lemma all_nan_has_nan (a : Vec3f) : Vec3.all_nan a -> has_nan a = true.
Proof. intros (H & _). unfold has_nan. rewrite H. reflexivity. Qed.

Lemma dot_has_nan_r (a b : Vec3f) : has_nan b = true -> Vec3.dot a b = S754_nan.
Proof.
  intros H. unfold Vec3.dot, F32.add, F32.mul.
  destruct (has_nan_cases b H) as [E|[E|E]]; rewrite E;
    rewrite ?SFmul_nan_r, ?SFadd_nan_r; reflexivity.
Qed.

Lemma dot_has_nan_l (a b : Vec3f) : has_nan a = true -> Vec3.dot a b = S754_nan.
Proof.
  intros H. unfold Vec3.dot, F32.add, F32.mul.
  destruct (has_nan_cases a H) as [E|[E|E]]; rewrite E; cbn [SFmul SFadd];
    rewrite ?SFadd_nan_r; reflexivity.
Qed.

Lemma squaredNorm_has_nan (a : Vec3f) : has_nan a = true -> Vec3.squaredNorm a = S754_nan.
Proof. apply dot_has_nan_r. Qed.

Lemma add_has_nan_l (a b : Vec3f) : has_nan a = true -> has_nan (Vec3.add a b) = true.
Proof.
  intros H. unfold has_nan, Vec3.add, Vec3.zip, F32.add; cbn [vx vy vz].
  destruct (has_nan_cases a H) as [E|[E|E]]; rewrite E; cbn [SFadd is_nan];
    rewrite ?orb_true_r; reflexivity.
Qed.

Lemma add_has_nan_r (a b : Vec3f) : has_nan b = true -> has_nan (Vec3.add a b) = true.
Proof.
  intros H. unfold has_nan, Vec3.add, Vec3.zip, F32.add; cbn [vx vy vz].
  destruct (has_nan_cases b H) as [E|[E|E]]; rewrite E, SFadd_nan_r; cbn [is_nan];
    rewrite ?orb_true_r; reflexivity.
Qed.

Lemma sub_has_nan_l (a b : Vec3f) : has_nan a = true -> has_nan (Vec3.sub a b) = true.
Proof.
  intros H. unfold has_nan, Vec3.sub, Vec3.zip, F32.sub; cbn [vx vy vz].
  destruct (has_nan_cases a H) as [E|[E|E]]; rewrite E; cbn [SFsub is_nan];
    rewrite ?orb_true_r; reflexivity.
Qed.

Lemma sub_has_nan_r (a b : Vec3f) : has_nan b = true -> has_nan (Vec3.sub a b) = true.
Proof.
  intros H. unfold has_nan, Vec3.sub, Vec3.zip, F32.sub; cbn [vx vy vz].
  destruct (has_nan_cases b H) as [E|[E|E]]; rewrite E, SFsub_nan_r; cbn [is_nan];
    rewrite ?orb_true_r; reflexivity.
Qed.

Lemma scale_has_nan (a : Vec3f) (s : F32.t) : has_nan a = true -> has_nan (Vec3.scale a s) = true.
Proof.
  intros H. unfold has_nan, Vec3.scale, Vec3.map, F32.mul; cbn [vx vy vz].
  destruct (has_nan_cases a H) as [E|[E|E]]; rewrite E; cbn [SFmul is_nan];
    rewrite ?orb_true_r; reflexivity.
Qed.

Lemma lscale_has_nan (s : F32.t) (a : Vec3f) : has_nan a = true -> has_nan (Vec3.lscale s a) = true.
Proof.
  intros H. unfold has_nan, Vec3.lscale, Vec3.map, F32.mul; cbn [vx vy vz].
  destruct (has_nan_cases a H) as [E|[E|E]]; rewrite E, SFmul_nan_r; cbn [is_nan];
    rewrite ?orb_true_r; reflexivity.
Qed.

(** A vector with a NaN coefficient is its own normalization. *)
Lemma normalized_has_nan (a : Vec3f) : has_nan a = true -> Vec3.normalized a = a.
Proof.
  intros H. unfold Vec3.normalized. rewrite (squaredNorm_has_nan a H). reflexivity.
Qed.

(** The squared distance to a line is NaN as soon as a coefficient of the
    point, of the origin or of the direction is. *)
Lemma squaredDistance_has_nan (l : ParametrizedLine) (p : Vec3f) :
  has_nan p || has_nan (origin l) || has_nan (direction l) = true ->
  Line.squaredDistance l p = S754_nan.
Proof.
  intros H. unfold Line.squaredDistance. cbv zeta.
  apply squaredNorm_nan, sub_nan_r.
  assert (E : Vec3.dot (direction l) (Vec3.sub p (origin l)) = S754_nan).
  { rewrite !orb_true_iff in H. destruct H as [[H|H]|H].
    - apply dot_has_nan_r, sub_has_nan_l, H.
    - apply dot_has_nan_r, sub_has_nan_r, H.
    - apply dot_has_nan_l, H. }
  rewrite E. apply lscale_nan.
Qed.

Lemma projection_nan (pl : Hyperplane) (p : Vec3f) :
  Plane.signedDistance pl p = S754_nan -> Vec3.all_nan (Plane.projection pl p).
Proof.
  intros E. unfold Plane.projection. rewrite E. apply sub_nan_r, lscale_nan.
Qed.

Lemma signedDistance_has_nan (pl : Hyperplane) (p : Vec3f) :
  has_nan p || has_nan (pl_normal pl) || is_nan (pl_offset pl) = true ->
  Plane.signedDistance pl p = S754_nan.
Proof.
  intros H. unfold Plane.signedDistance, F32.add.
  rewrite !orb_true_iff in H. destruct H as [[H|H]|H].
  - rewrite (dot_has_nan_r _ _ H). reflexivity.
  - rewrite (dot_has_nan_l _ _ H). reflexivity.
  - apply is_nan_eq in H. rewrite H. apply SFadd_nan_r.
Qed.

Lemma make_offset_has_nan (n e : Vec3f) :
  has_nan e = true -> is_nan (pl_offset (Plane.make n e)) = true.
Proof.
  intros H. unfold Plane.make. cbn [pl_offset]. rewrite (dot_has_nan_r _ _ H). reflexivity.
Qed.

(** *** Squared norms and norms are never negative *)

Lemma squaredNorm_sign (a : Vec3f) : signed_as false (Vec3.squaredNorm a).
Proof.
  unfold Vec3.squaredNorm, Vec3.dot, F32.add, F32.mul.
  repeat apply SFadd_sign; apply SFmul_self_sign.
Qed.

Lemma norm_sign (a : Vec3f) : signed_as false (Vec3.norm a).
Proof. apply SFsqrt_sign, squaredNorm_sign. Qed.

Lemma sqr_opp (x : F32.t) : F32.sqr (F32.opp x) = F32.sqr x.
Proof. apply SFmul_opp_opp. Qed.

(* ================================================================== *)
(** ** Containment: edge cases *)

(** X1.  [is_inside] answers false whenever a coordinate of the point, of
    the hole's position or of its axis is NaN, or the radius is NaN: the
    squared radial distance, or the squared radius, is then NaN and the
    last comparison fails. *)
Theorem is_inside_nan (EPSILON : F64.t) (h : DrainHole) (pt : Vec3f) :
  has_nan pt || has_nan (pos h) || has_nan (normal h) || is_nan (radius h) = true ->
  is_inside EPSILON h pt = false.
Proof.
  intros H. rewrite is_inside_tests.
  apply orb_true_iff in H. destruct H as [H|H].
  - unfold radial_sqr_distance.
    rewrite (squaredDistance_has_nan (mkLine (pos h) (normal h)) pt H).
    apply andb_false_r.
  - apply is_nan_eq in H. rewrite H.
    unfold F32.ltb, F32.sqr, F32.mul. cbn [SFmul]. rewrite SFltb_nan_r.
    apply andb_false_r.
Qed.

Lemma is_inside_nan_witness :
  is_inside EPSILON_1e4 hole_unit_z (mkVec3f (f32 0) F32.nan (f32 1)) = false.
Proof.
  apply (is_inside_nan EPSILON_1e4 hole_unit_z (mkVec3f (f32 0) F32.nan (f32 1))).
  reflexivity.
Defined.

(** X2.  With a positive tolerance the hole's own position, the centre of
    its base, is not inside it: its axial distance [n.pos + (-(n.pos))] is
    exactly [+0] whenever it is a number, and zero is below the
    tolerance. *)
Theorem is_inside_base_centre (EPSILON : F64.t) (h : DrainHole) :
  (F64.zero <? EPSILON)%f64 = true ->
  is_nan (axial_distance h (pos h)) = false ->
  axial_distance h (pos h) = S754_zero false /\
  is_inside EPSILON h (pos h) = false.
Proof.
  intros He Hn.
  assert (E : axial_distance h (pos h) = S754_zero false).
  { unfold axial_distance, Plane.signedDistance, Plane.make in *.
    cbn [pl_normal pl_offset] in *.
    apply (SFadd_opp_self F32.prec F32.emax), Hn. }
  split; [exact E|].
  rewrite is_inside_tests, E.
  change (F64.of_float (S754_zero false)) with F64.zero. rewrite He. reflexivity.
Qed.

Lemma is_inside_base_centre_witness :
  axial_distance hole_unit_z (pos hole_unit_z) = S754_zero false /\
  is_inside EPSILON_1e4 hole_unit_z (pos hole_unit_z) = false.
Proof.
  apply (is_inside_base_centre EPSILON_1e4 hole_unit_z); reflexivity.
Defined.

(** X3.  A hole whose squared radius is zero contains no point at all, not
    even the points of its axis: a squared distance is never below zero.
    This covers the radius zero and every radius so small that its square
    rounds to zero. *)
Theorem is_inside_vanishing_radius (EPSILON : F64.t) (h : DrainHole) (pt : Vec3f) :
  F32.eqb (F32.sqr (radius h)) F32.zero = true ->
  is_inside EPSILON h pt = false.
Proof.
  intros H. rewrite is_inside_tests.
  assert (E : (radial_sqr_distance h pt <? F32.sqr (radius h))%f32 = false).
  { pose proof (squaredNorm_sign
      (Vec3.sub (Vec3.sub pt (pos h))
         (Vec3.lscale (Vec3.dot (normal h) (Vec3.sub pt (pos h))) (normal h)))) as Hs.
    unfold radial_sqr_distance, Line.squaredDistance. cbn [origin direction].
    revert Hs H. generalize (Vec3.squaredNorm
      (Vec3.sub (Vec3.sub pt (pos h))
         (Vec3.lscale (Vec3.dot (normal h) (Vec3.sub pt (pos h))) (normal h)))).
    generalize (F32.sqr (radius h)). intros r2 d Hs H.
    destruct r2 as [s|[]| |[] m e]; try discriminate H;
      destruct d as [s'|s'| |s' m' e']; simpl in Hs; subst; reflexivity. }
  rewrite E. apply andb_false_r.
Qed.

Lemma is_inside_vanishing_radius_witness :
  (radius needle_hole >? F32.zero)%f32 = true /\
  radial_sqr_distance needle_hole (vec3 0 0 1) = F32.zero /\
  is_inside EPSILON_1e4 needle_hole (vec3 0 0 1) = false.
Proof.
  split; [reflexivity|]. split; [vm_compute; reflexivity|].
  apply (is_inside_vanishing_radius EPSILON_1e4 needle_hole (vec3 0 0 1)).
  vm_compute. reflexivity.
Defined.

(** X4.  Containment is monotone in the height and in the tolerance: a
    point inside a hole is inside the hole of the same base, axis and
    radius with any greater height, under any smaller tolerance. *)
Theorem is_inside_monotone (EPSILON EPSILON' : F64.t) (h : DrainHole) (ht : F32.t)
    (pt : Vec3f) :
  (EPSILON' <=? EPSILON)%f64 = true ->
  (height h <=? ht)%f32 = true ->
  is_inside EPSILON h pt = true ->
  is_inside EPSILON' (with_height h ht) pt = true.
Proof.
  intros Hee Hle. rewrite !is_inside_tests.
  change (axial_distance (with_height h ht) pt) with (axial_distance h pt).
  change (radial_sqr_distance (with_height h ht) pt) with (radial_sqr_distance h pt).
  cbn [with_height radius height].
  rewrite !andb_true_iff, !negb_true_iff. intros [[H1 H2] H3].
  unfold F32.gtb, F32.leb, F64.ltb, F64.leb in *.
  destruct (SFleb_not_nan _ _ Hle) as [Nh Nt].
  destruct (SFleb_not_nan _ _ Hee) as [Ne' Ne].
  repeat split; try assumption.
  - destruct (is_nan (F64.of_float (axial_distance h pt))) eqn:Nd.
    + apply is_nan_eq in Nd. rewrite Nd. reflexivity.
    + pose proof (SFleb_negb_ltb _ _ Nd Ne) as E1. rewrite H1 in E1.
      pose proof (SFleb_trans _ _ _ Hee E1) as E2.
      pose proof (SFleb_negb_ltb _ _ Nd Ne') as E3. rewrite E2 in E3.
      destruct (SFltb (F64.of_float (axial_distance h pt)) EPSILON');
        [discriminate E3 | reflexivity].
  - destruct (is_nan (axial_distance h pt)) eqn:Nd.
    + apply is_nan_eq in Nd. rewrite Nd. apply SFltb_nan_r.
    + pose proof (SFleb_negb_ltb _ _ Nh Nd) as E1. rewrite H2 in E1.
      pose proof (SFleb_trans _ _ _ E1 Hle) as E2.
      pose proof (SFleb_negb_ltb _ _ Nt Nd) as E3. rewrite E2 in E3.
      destruct (SFltb ht (axial_distance h pt)); [discriminate E3 | reflexivity].
Qed.

Lemma is_inside_monotone_witness :
  is_inside (F64.of_Z 0) (with_height hole_unit_z (f32 3)) (vec3 0 0 1) = true.
Proof.
  apply (is_inside_monotone EPSILON_1e4 (F64.of_Z 0) hole_unit_z (f32 3) (vec3 0 0 1));
    reflexivity.
Defined.

(** X5.  Both queries read the radius only through its square: the hole
    with the radius negated contains the same points and gives the same
    intersections. *)
Theorem radius_sign_irrelevant (h : DrainHole) :
  (forall EPSILON pt,
     is_inside EPSILON (negate_radius h) pt = is_inside EPSILON h pt) /\
  (forall is_approx s dir,
     get_intersections is_approx (negate_radius h) s dir
     = get_intersections is_approx h s dir).
Proof.
  split.
  - intros EPSILON pt. unfold is_inside. cbn [negate_radius radius height].
    rewrite sqr_opp. reflexivity.
  - intros is_approx s dir.
    unfold get_intersections, hits_found, outside_bounding_sphere, caps, wall,
      wall_runs, wall_iter, wall_accepts, wall_hit, wall_setup, cap_iter, cap_accepts,
      cap_hit, cap_plane, cylinder_center, not_parallel_to_caps, sqr_dist_limit, center,
      sqr_radius.
    cbn [negate_radius radius height pos normal].
    rewrite sqr_opp. reflexivity.
Qed.

(* ================================================================== *)
(** ** Intersections: the output array *)

Lemma accept_untouched (st : Found) (h : Hit) :
  rest_untouched st -> (fst st < 2)%nat -> rest_untouched (accept st h).
Proof.
  destruct st as [[|[|n]] [o0 o1]]; unfold rest_untouched; simpl; intros H L; try lia; auto.
  inversion H. reflexivity.
Qed.

Section SlotFacts.
Variable is_approx : F32.t -> F32.t -> bool.

Lemma cap_iter_untouched (h : DrainHole) (ray : ParametrizedLine) (i : Z) (st : Found) :
  rest_untouched st -> (fst st < 2)%nat ->
  rest_untouched (cap_iter h ray i st) /\ (fst (cap_iter h ray i st) <= S (fst st))%nat.
Proof.
  intros H L. unfold cap_iter. destruct (cap_accepts h ray i).
  - split; [apply accept_untouched; assumption | simpl; lia].
  - split; [assumption | lia].
Qed.

Lemma wall_iter_untouched (h : DrainHole) (ray : ParametrizedLine) (base : Hyperplane)
    (w : WallSetup) (i : Z) (st : Found) :
  rest_untouched st -> rest_untouched (wall_iter h ray base w i st).
Proof.
  intros H. unfold wall_iter. destruct (Nat.eqb (fst st) 2) eqn:E; [assumption|].
  destruct (wall_accepts h ray base w i); [|assumption].
  apply accept_untouched; [assumption|].
  apply Nat.eqb_neq in E. destruct st as [[|[|[|n]]] o]; simpl in *; try lia; contradiction.
Qed.

Lemma hits_found_untouched (h : DrainHole) (s dir : Vec3f) :
  rest_untouched (hits_found is_approx h s dir).
Proof.
  unfold hits_found. destruct (outside_bounding_sphere h (ray_of s dir)).
  - reflexivity.
  - destruct (caps is_approx h (ray_of s dir)) as [st base] eqn:E.
    assert (Hst : rest_untouched st).
    { unfold caps in E. destruct (not_parallel_to_caps is_approx h (ray_of s dir));
        inversion E; subst; [|reflexivity].
      destruct (cap_iter_untouched h (ray_of s dir) 1 (O, out_init)) as [H1 L1];
        [reflexivity | simpl; lia |].
      apply cap_iter_untouched; [assumption | simpl in L1; lia]. }
    unfold wall. destruct (wall_runs is_approx h (ray_of s dir) st); [|assumption].
    apply wall_iter_untouched, wall_iter_untouched, Hst.
Qed.

End SlotFacts.

(** X6.  The count of accepted hits never exceeds the two entries of the
    output array, so every write [out[found]] is in bounds.  When the
    function returns false the second entry still holds its initial value,
    a NaN parameter and the zero vector; when no hit was accepted the whole
    array does. *)
Theorem failure_leaves_sentinel (is_approx : F32.t -> F32.t -> bool)
    (h : DrainHole) (s dir : Vec3f) :
  let st := hits_found is_approx h s dir in
  let r := get_intersections is_approx h s dir in
  (fst st <= 2)%nat /\
  (fst r = false -> snd (snd r) = (F32.nan, Vec3.Zero)) /\
  (fst st = 0%nat -> r = (false, out_init)).
Proof.
  cbv zeta. pose proof (hits_found_untouched is_approx h s dir) as H.
  unfold get_intersections.
  destruct (hits_found is_approx h s dir) as [[|[|[|n]]] out];
    unfold rest_untouched in H; simpl in *; try contradiction.
  - subst out. repeat split; auto; lia.
  - repeat split; auto; try lia; discriminate.
  - repeat split; auto; try lia; discriminate.
Qed.

(* ================================================================== *)
(** ** Intersections: the parameters of wall hits are never negative *)

Lemma wall_par_sign (h : DrainHole) (ray : ParametrizedLine) (base : Hyperplane) (i : Z) :
  signed_as false (wall_par (wall_setup h ray base) i).
Proof.
  unfold wall_par, wall_setup. cbn [par_scale proj_origin].
  apply SFdiv_sign; apply norm_sign.
Qed.

Lemma accept_signed (st : Found) (h : Hit) :
  params_signed st -> signed_as false (fst h) -> params_signed (accept st h).
Proof.
  destruct st as [[|[|n]] [o0 o1]]; unfold params_signed; simpl; auto.
Qed.

Lemma wall_signed (is_approx : F32.t -> F32.t -> bool) (h : DrainHole)
    (ray : ParametrizedLine) (base : Hyperplane) (st : Found) :
  params_signed st -> params_signed (wall is_approx h ray base st).
Proof.
  intros H. unfold wall. destruct (wall_runs is_approx h ray st); [|assumption].
  assert (Hi : forall i st', params_signed st' ->
               params_signed (wall_iter h ray base (wall_setup h ray base) i st')).
  { intros i st' H'. unfold wall_iter. destruct (Nat.eqb (fst st') 2); [assumption|].
    destruct (wall_accepts h ray base (wall_setup h ray base) i); [|assumption].
    apply accept_signed; [assumption|]. apply wall_par_sign. }
  apply Hi, Hi, H.
Qed.

(** X7.  The parameter of a wall hit is a quotient of two norms: every
    accepted wall hit has a parameter that is at least zero.  In
    particular, for a line that the end-cap phase skips (direction
    orthogonal to the axis within the tolerance) both reported parameters
    are at least zero, on whichever side of the origin the hole lies. *)
Theorem wall_parameters_nonnegative (is_approx : F32.t -> F32.t -> bool)
    (h : DrainHole) (s dir : Vec3f) :
  let ray := ray_of s dir in
  let r := get_intersections is_approx h s dir in
  (forall base i,
     wall_accepts h ray base (wall_setup h ray base) i = true ->
     (F32.zero <=? fst (wall_hit h (wall_setup h ray base) i))%f32 = true) /\
  (not_parallel_to_caps is_approx h ray = false -> fst r = true ->
   (F32.zero <=? fst (fst (snd r)))%f32 = true /\
   (F32.zero <=? fst (snd (snd r)))%f32 = true).
Proof.
  cbv zeta. split.
  - intros base i Ha. apply signed_zero_leb.
    + apply wall_par_sign.
    + apply (wall_accepts_param h (ray_of s dir) base _ i Ha).
  - intros Hp.
    pose proof (hits_found_ok is_approx h s dir) as Hok.
    assert (Hs : params_signed (hits_found is_approx h s dir)).
    { unfold hits_found. destruct (outside_bounding_sphere h (ray_of s dir)); [exact I|].
      unfold caps. rewrite Hp. apply wall_signed. exact I. }
    unfold get_intersections.
    destruct (hits_found is_approx h s dir) as [found out].
    destruct (Nat.eqb found 2) eqn:E; simpl; [|discriminate].
    apply Nat.eqb_eq in E. subst found. intros _.
    destruct Hok as [N0 N1]. destruct Hs as [S0 S1]. simpl in *.
    unfold sort_hits. destruct (fst (fst out) >? fst (snd out))%f32; simpl;
      split; apply signed_zero_leb; assumption.
Qed.

Lemma wall_parameters_nonnegative_witness :
  let r := get_intersections is_approx_eps hole_unit_z (vec3 0 5 1) (vec3 0 1 0) in
  fst r = true /\
  (F32.zero <=? fst (fst (snd r)))%f32 = true /\
  (F32.zero <=? fst (snd (snd r)))%f32 = true.
Proof.
  split; [vm_compute; reflexivity|].
  apply (wall_parameters_nonnegative is_approx_eps hole_unit_z (vec3 0 5 1) (vec3 0 1 0));
    vm_compute; reflexivity.
Defined.

(* ================================================================== *)
(** ** Intersections: NaN among the inputs *)

Lemma cylinder_center_has_nan (h : DrainHole) (i : Z) :
  has_nan (pos h) || has_nan (normal h) || is_nan (height h) = true ->
  has_nan (cylinder_center h i) = true.
Proof.
  intros H. unfold cylinder_center.
  rewrite !orb_true_iff in H. destruct H as [[H|H]|H].
  - apply add_has_nan_l, H.
  - apply add_has_nan_r, lscale_has_nan, H.
  - apply is_nan_eq in H. rewrite H. unfold F32.mul. rewrite SFmul_nan_r.
    apply add_has_nan_r, all_nan_has_nan, lscale_nan.
Qed.

Section NanInputs.
Variable is_approx : F32.t -> F32.t -> bool.
Variable h : DrainHole.
Variables s dir : Vec3f.
Hypothesis Hnan : has_nan s || has_nan dir || hole_has_nan h = true.

Lemma nan_input_cases :
  has_nan (origin (ray_of s dir)) = true \/ has_nan (direction (ray_of s dir)) = true \/
  has_nan (pos h) = true \/ has_nan (normal h) = true \/
  radius h = S754_nan \/ height h = S754_nan.
Proof.
  unfold hole_has_nan in Hnan. rewrite !orb_true_iff in Hnan.
  destruct Hnan as [[H|H]|[[[H|H]|H]|H]]; auto 7.
  - right. left. unfold ray_of. cbn [direction]. rewrite (normalized_has_nan dir H). exact H.
  - apply is_nan_eq in H. auto 7.
  - apply is_nan_eq in H. auto 7.
Qed.

(** No end cap accepts its candidate. *)
Lemma nan_cap_rejected (i : Z) : cap_accepts h (ray_of s dir) i = false.
Proof.
  unfold cap_accepts, F32.ltb.
  destruct nan_input_cases as [H|[H|[H|[H|[H|H]]]]].
  - rewrite squaredNorm_has_nan; [reflexivity|].
    apply sub_has_nan_r. unfold Line.intersectionPoint, Line.pointAt.
    apply add_has_nan_l, H.
  - rewrite squaredNorm_has_nan; [reflexivity|].
    apply sub_has_nan_r. unfold Line.intersectionPoint, Line.pointAt.
    apply add_has_nan_r, scale_has_nan, H.
  - rewrite squaredNorm_has_nan; [reflexivity|].
    apply sub_has_nan_l, cylinder_center_has_nan. nan_or H.
  - rewrite squaredNorm_has_nan; [reflexivity|].
    apply sub_has_nan_l, cylinder_center_has_nan. nan_or H.
  - unfold sqr_radius, F32.sqr, F32.mul. rewrite H. cbn [SFmul]. apply SFltb_nan_r.
  - rewrite squaredNorm_has_nan; [reflexivity|].
    apply sub_has_nan_l, cylinder_center_has_nan. nan_or H.
Qed.

Lemma nan_caps :
  fst (caps is_approx h (ray_of s dir)) = (O, out_init) /\
  pl_normal (snd (caps is_approx h (ray_of s dir))) = normal h /\
  (has_nan (pos h) = true ->
   is_nan (pl_offset (snd (caps is_approx h (ray_of s dir)))) = true).
Proof.
  unfold caps. destruct (not_parallel_to_caps is_approx h (ray_of s dir)); cbn [fst snd].
  - unfold cap_iter. rewrite !nan_cap_rejected. repeat split.
    intros H. apply make_offset_has_nan, cylinder_center_has_nan. nan_or H.
  - repeat split. intros H. apply make_offset_has_nan, H.
Qed.

(** No wall candidate passes the height test. *)
Lemma nan_wall_rejected (base : Hyperplane) (i : Z) :
  pl_normal base = normal h ->
  (has_nan (pos h) = true -> is_nan (pl_offset base) = true) ->
  wall_accepts h (ray_of s dir) base (wall_setup h (ray_of s dir) base) i = false.
Proof.
  intros Hn Ho.
  assert (Horigin : Vec3.all_nan (proj_origin (wall_setup h (ray_of s dir) base)) ->
                    wall_par (wall_setup h (ray_of s dir) base) i = S754_nan).
  { intros H. unfold wall_par. rewrite (norm_nan _ (sub_nan_r _ _ H)). reflexivity. }
  assert (Hplane : forall p, has_nan (pos h) = true \/ has_nan (normal h) = true ->
                   Plane.signedDistance base p = S754_nan).
  { intros p [H|H]; apply signedDistance_has_nan.
    - rewrite (Ho H). apply orb_true_r.
    - rewrite Hn. nan_or H. }
  destruct nan_input_cases as [H|[H|[H|[H|[H|H]]]]].
  - apply wall_accepts_nan, Horigin. unfold wall_setup. cbn [proj_origin].
    apply projection_nan, signedDistance_has_nan. nan_or H.
  - apply wall_accepts_nan. unfold wall_par, wall_setup. cbn [par_scale proj_origin].
    rewrite (norm_nan (Vec3.sub (Plane.projection base
               (Vec3.add (origin (ray_of s dir)) (direction (ray_of s dir)))) _)).
    + apply SFdiv_nan_r.
    + apply sub_nan_l, projection_nan, signedDistance_has_nan.
      nan_or (add_has_nan_r (origin (ray_of s dir)) _ H).
  - apply wall_accepts_nan, Horigin. unfold wall_setup. cbn [proj_origin].
    apply projection_nan, Hplane. auto.
  - apply wall_accepts_nan, Horigin. unfold wall_setup. cbn [proj_origin].
    apply projection_nan, Hplane. auto.
  - apply wall_accepts_nan, wall_par_nan. unfold wall_setup. cbn [wall_dist].
    unfold sqr_radius, F32.sqr, F32.mul. rewrite H. reflexivity.
  - unfold wall_accepts. cbv zeta. rewrite H. unfold F32.ltb. rewrite SFltb_nan_r.
    apply andb_false_r.
Qed.

Lemma nan_hits_found : hits_found is_approx h s dir = (O, out_init).
Proof.
  unfold hits_found. cbv zeta.
  destruct (outside_bounding_sphere h (ray_of s dir)); [reflexivity|].
  destruct nan_caps as (Hst & Hn & Ho).
  destruct (caps is_approx h (ray_of s dir)) as [st base]. cbn [fst snd] in *. subst st.
  unfold wall. destruct (wall_runs is_approx h (ray_of s dir) (O, out_init)); [|reflexivity].
  cbv zeta. unfold wall_iter. cbn [fst Nat.eqb].
  rewrite (nan_wall_rejected base (-1) Hn Ho). cbn [fst Nat.eqb].
  rewrite (nan_wall_rejected base 1 Hn Ho). reflexivity.
Qed.

End NanInputs.

(** X8.  When a coordinate of the line's origin or direction, or a field of
    the hole, is NaN, [get_intersections] returns false and leaves both
    entries of the output array at their initial value, whatever the
    approximate comparison answers: the bounding-sphere test lets the line
    pass, but no end cap and no wall candidate is accepted. *)
Theorem get_intersections_nan_input (is_approx : F32.t -> F32.t -> bool)
    (h : DrainHole) (s dir : Vec3f) :
  has_nan s || has_nan dir || hole_has_nan h = true ->
  get_intersections is_approx h s dir = (false, out_init).
Proof.
  intros H. unfold get_intersections. rewrite (nan_hits_found is_approx h s dir H).
  reflexivity.
Qed.

Lemma get_intersections_nan_input_witness :
  outside_bounding_sphere hole_unit_z
    (ray_of (mkVec3f F32.nan (f32 (-5)) (f32 1)) (vec3 0 1 0)) = false /\
  get_intersections is_approx_eps hole_unit_z (mkVec3f F32.nan (f32 (-5)) (f32 1)) (vec3 0 1 0)
    = (false, out_init).
Proof.
  split; [vm_compute; reflexivity|].
  apply (get_intersections_nan_input is_approx_eps hole_unit_z
           (mkVec3f F32.nan (f32 (-5)) (f32 1)) (vec3 0 1 0)).
  reflexivity.
Defined.

(* ================================================================== *)
(** ** Intersections: a zero direction *)

Section ZeroSign.
Variables prec emax : Z.

Lemma zeq_refl (x : spec_float) : zeq x x.
Proof. left. reflexivity. Qed.

Lemma zeq_zero (x y : spec_float) : is_zero x = true -> is_zero y = true -> zeq x y.
Proof. right. auto. Qed.

Lemma SFadd_zero_zeq (x d : spec_float) :
  is_zero d = true -> zeq (SFadd prec emax x d) x.
Proof.
  destruct d as [sd| | |]; try discriminate. intros _.
  destruct x as [sx|sx| |sx mx ex]; try apply zeq_refl.
  simpl. destruct sx, sd; apply zeq_zero; reflexivity.
Qed.

Lemma zeq_mul (a a' b b' : spec_float) :
  zeq a a' -> zeq b b' -> zeq (SFmul prec emax a b) (SFmul prec emax a' b').
Proof.
  intros [->|[Ha Ha']] [->|[Hb Hb']]; try apply zeq_refl.
  - destruct b as [sb| | |]; try discriminate. destruct b' as [sb'| | |]; try discriminate.
    destruct a' as [s|s| |s m e]; simpl; try apply zeq_refl; apply zeq_zero; reflexivity.
  - destruct a as [sa| | |]; try discriminate. destruct a' as [sa'| | |]; try discriminate.
    destruct b' as [s|s| |s m e]; simpl; try apply zeq_refl; apply zeq_zero; reflexivity.
  - destruct a as [sa| | |]; try discriminate. destruct a' as [sa'| | |]; try discriminate.
    destruct b as [sb| | |]; try discriminate. destruct b' as [sb'| | |]; try discriminate.
    apply zeq_zero; reflexivity.
Qed.

Lemma zeq_add (a a' b b' : spec_float) :
  zeq a a' -> zeq b b' -> zeq (SFadd prec emax a b) (SFadd prec emax a' b').
Proof.
  intros [->|[Ha Ha']] [->|[Hb Hb']]; try apply zeq_refl.
  - destruct b as [sb| | |]; try discriminate. destruct b' as [sb'| | |]; try discriminate.
    destruct a' as [s|s| |s m e]; simpl; try apply zeq_refl.
    destruct s, sb, sb'; apply zeq_zero; reflexivity.
  - destruct a as [sa| | |]; try discriminate. destruct a' as [sa'| | |]; try discriminate.
    destruct b' as [s|s| |s m e]; simpl; try apply zeq_refl.
    destruct sa, sa', s; apply zeq_zero; reflexivity.
  - destruct a as [sa| | |]; try discriminate. destruct a' as [sa'| | |]; try discriminate.
    destruct b as [sb| | |]; try discriminate. destruct b' as [sb'| | |]; try discriminate.
    simpl. destruct sa, sb, sa', sb'; apply zeq_zero; reflexivity.
Qed.

Lemma zeq_sub (a a' b b' : spec_float) :
  zeq a a' -> zeq b b' -> zeq (SFsub prec emax a b) (SFsub prec emax a' b').
Proof.
  intros [->|[Ha Ha']] [->|[Hb Hb']]; try apply zeq_refl.
  - destruct b as [sb| | |]; try discriminate. destruct b' as [sb'| | |]; try discriminate.
    destruct a' as [s|s| |s m e]; simpl; try apply zeq_refl.
    destruct s, sb, sb'; apply zeq_zero; reflexivity.
  - destruct a as [sa| | |]; try discriminate. destruct a' as [sa'| | |]; try discriminate.
    destruct b' as [s|s| |s m e]; simpl; try apply zeq_refl.
    destruct sa, sa', s; apply zeq_zero; reflexivity.
  - destruct a as [sa| | |]; try discriminate. destruct a' as [sa'| | |]; try discriminate.
    destruct b as [sb| | |]; try discriminate. destruct b' as [sb'| | |]; try discriminate.
    simpl. destruct sa, sb, sa', sb'; apply zeq_zero; reflexivity.
Qed.

(** Numbers equal up to the sign of a zero differ by a zero, or by NaN. *)
Lemma zeq_sub_null (x y : spec_float) : zeq x y -> null (SFsub prec emax x y).
Proof.
  intros [->|[Hx Hy]].
  - destruct y as [[]|[]| |s m e]; simpl; try exact I.
    generalize (fst (shl_align m e (Z.min e e))). intros p.
    destruct s; simpl; rewrite Z.pos_sub_diag; exact I.
  - destruct x as [[]| | |]; try discriminate; destruct y as [[]| | |]; try discriminate; exact I.
Qed.

Lemma null_mul_zero (x d : spec_float) : is_zero d = true -> null (SFmul prec emax x d).
Proof.
  destruct d as [sd| | |]; try discriminate. intros _.
  destruct x as [sx|sx| |sx mx ex]; exact I.
Qed.

Lemma null_add (x y : spec_float) : null x -> null y -> null (SFadd prec emax x y).
Proof.
  destruct x as [sx| | |]; try contradiction; destruct y as [sy| | |]; try contradiction;
    intros _ _; simpl; try exact I.
  destruct sx, sy; exact I.
Qed.

Lemma null_mul_self (x : spec_float) : null x -> null (SFmul prec emax x x).
Proof. destruct x; try contradiction; intros _; exact I. Qed.

Lemma null_sqrt (x : spec_float) : null x -> null (SFsqrt prec emax x).
Proof. destruct x; try contradiction; intros _; exact I. Qed.

(** Nothing divided by nothing is not a number. *)
Lemma null_div_nan (x y : spec_float) : null x -> null y -> SFdiv prec emax x y = S754_nan.
Proof.
  destruct x as [sx| | |]; try contradiction; destruct y as [sy| | |]; try contradiction;
    reflexivity.
Qed.

(** A zero times the quotient of anything by nothing is not a number. *)
Lemma zero_mul_div_null (d x y : spec_float) :
  is_zero d = true -> null y ->
  SFmul prec emax d (SFdiv prec emax x y) = S754_nan.
Proof.
  destruct d as [sd| | |]; try discriminate. intros _.
  destruct y as [sy| | |]; try contradiction; intros _;
    destruct x as [sx|sx| |sx mx ex]; reflexivity.
Qed.

End ZeroSign.

Lemma zero_vector_cases (d : Vec3f) :
  zero_vector d = true ->
  is_zero (vx d) = true /\ is_zero (vy d) = true /\ is_zero (vz d) = true.
Proof. unfold zero_vector. rewrite !andb_true_iff. tauto. Qed.

Lemma add_zero_vzeq (s d : Vec3f) : zero_vector d = true -> vzeq (Vec3.add s d) s.
Proof.
  intros H. destruct (zero_vector_cases d H) as (Hx & Hy & Hz).
  repeat split; apply SFadd_zero_zeq; assumption.
Qed.

Lemma dot_zeq (a b b' : Vec3f) : vzeq b b' -> zeq (Vec3.dot a b) (Vec3.dot a b').
Proof.
  intros (Hx & Hy & Hz). unfold Vec3.dot.
  repeat apply zeq_add; apply zeq_mul; try apply zeq_refl; assumption.
Qed.

Lemma projection_zeq (pl : Hyperplane) (p p' : Vec3f) :
  vzeq p p' -> vzeq (Plane.projection pl p) (Plane.projection pl p').
Proof.
  intros H.
  assert (Hd : zeq (Plane.signedDistance pl p) (Plane.signedDistance pl p')).
  { unfold Plane.signedDistance. apply zeq_add; [apply dot_zeq, H | apply zeq_refl]. }
  destruct H as (Hx & Hy & Hz).
  repeat split; cbn [Plane.projection Vec3.sub Vec3.zip Vec3.lscale Vec3.map vx vy vz];
    apply zeq_sub; try assumption; apply zeq_mul; try assumption; apply zeq_refl.
Qed.

Lemma sub_vnull (a b : Vec3f) : vzeq a b -> vnull (Vec3.sub a b).
Proof.
  intros (Hx & Hy & Hz). repeat split; apply zeq_sub_null; assumption.
Qed.

Lemma norm_null (a : Vec3f) : vnull a -> null (Vec3.norm a).
Proof.
  intros (Hx & Hy & Hz). unfold Vec3.norm, Vec3.squaredNorm, Vec3.dot.
  apply null_sqrt. repeat apply null_add; apply null_mul_self; assumption.
Qed.

Lemma divs_null_nan (a : Vec3f) (x : F32.t) : vnull a -> null x -> Vec3.all_nan (Vec3.divs a x).
Proof.
  intros (Hx & Hy & Hz) H. repeat split; apply null_div_nan; assumption.
Qed.

Lemma dot_zero_null (n d : Vec3f) : zero_vector d = true -> null (Vec3.dot n d).
Proof.
  intros H. destruct (zero_vector_cases d H) as (Hx & Hy & Hz). unfold Vec3.dot.
  repeat apply null_add; apply null_mul_zero; assumption.
Qed.

(** The zero vector is its own normalization. *)
Lemma normalized_zero (d : Vec3f) : zero_vector d = true -> Vec3.normalized d = d.
Proof.
  intros H. destruct (zero_vector_cases d H) as (Hx & Hy & Hz).
  destruct d as [[[]| | |] [[]| | |] [[]| | |]]; try discriminate; reflexivity.
Qed.

Section ZeroDirection.
Variable is_approx : F32.t -> F32.t -> bool.
Variable h : DrainHole.
Variables s dir : Vec3f.
Hypothesis Hzero : zero_vector dir = true.

Lemma zero_ray : ray_of s dir = mkLine s dir.
Proof. unfold ray_of. rewrite (normalized_zero dir Hzero). reflexivity. Qed.

(** The intersection parameter with a cap plane is a quotient by zero (or
    by NaN); the candidate point is not a number. *)
Lemma zero_cap_rejected (i : Z) : cap_accepts h (ray_of s dir) i = false.
Proof.
  rewrite zero_ray. unfold cap_accepts, F32.ltb.
  rewrite squaredNorm_nan; [reflexivity|].
  apply sub_nan_r. unfold Line.intersectionPoint, Line.pointAt. cbn [origin direction].
  apply add_nan_r.
  destruct (zero_vector_cases dir Hzero) as (Hx & Hy & Hz).
  pose proof (dot_zero_null (pl_normal (cap_plane h i)) dir Hzero) as Hn.
  unfold Line.intersectionParameter. cbn [origin direction].
  repeat split; cbn [Vec3.scale Vec3.map vx vy vz];
    apply zero_mul_div_null; assumption.
Qed.

(** The projected direction has no length; dividing by it leaves no
    number anywhere in the wall phase. *)
Lemma zero_wall_rejected (base : Hyperplane) (i : Z) :
  wall_accepts h (ray_of s dir) base (wall_setup h (ray_of s dir) base) i = false.
Proof.
  rewrite zero_ray. apply wall_accepts_nan, wall_par_nan.
  unfold wall_setup. cbn [wall_dist origin direction].
  set (proj_dir := Vec3.sub (Plane.projection base (Vec3.add s dir)) (Plane.projection base s)).
  assert (Hn : vnull proj_dir).
  { apply sub_vnull, projection_zeq, add_zero_vzeq, Hzero. }
  pose proof (divs_null_nan proj_dir (Vec3.norm proj_dir) Hn (norm_null proj_dir Hn)) as Hd.
  unfold Line.projection. cbn [origin direction].
  rewrite (dot_has_nan_l _ _ (all_nan_has_nan _ Hd)).
  rewrite (squaredNorm_nan _ (sub_nan_l _ _ (add_nan_r _ _ (lscale_nan _)))).
  unfold F32.sub. rewrite SFsub_nan_r. reflexivity.
Qed.

Lemma zero_hits_found : hits_found is_approx h s dir = (O, out_init).
Proof.
  unfold hits_found. cbv zeta.
  destruct (outside_bounding_sphere h (ray_of s dir)); [reflexivity|].
  unfold caps, cap_iter. rewrite !zero_cap_rejected.
  destruct (not_parallel_to_caps is_approx h (ray_of s dir));
    unfold wall;
    destruct (wall_runs is_approx h (ray_of s dir) (O, out_init)); try reflexivity;
    cbv zeta; unfold wall_iter; cbn [fst Nat.eqb];
    rewrite (zero_wall_rejected _ (-1)); cbn [fst Nat.eqb];
    rewrite (zero_wall_rejected _ 1); reflexivity.
Qed.

End ZeroDirection.

(** X9.  For the zero direction (every coordinate a zero, of either sign)
    [get_intersections] returns false and leaves both entries of the output
    array at their initial value, for every hole and every origin, even an
    origin inside the hole: the direction cannot be normalized and is used
    as it is, after which every candidate is not a number. *)
Theorem get_intersections_zero_direction (is_approx : F32.t -> F32.t -> bool)
    (h : DrainHole) (s dir : Vec3f) :
  zero_vector dir = true ->
  get_intersections is_approx h s dir = (false, out_init).
Proof.
  intros H. unfold get_intersections. rewrite (zero_hits_found is_approx h s dir H).
  reflexivity.
Qed.

Lemma get_intersections_zero_direction_witness :
  is_inside EPSILON_1e4 hole_unit_z (vec3 0 0 1) = true /\
  outside_bounding_sphere hole_unit_z (ray_of (vec3 0 0 1) (vec3 0 0 0)) = false /\
  get_intersections is_approx_eps hole_unit_z (vec3 0 0 1) (vec3 0 0 0) = (false, out_init).
Proof.
  split; [reflexivity|]. split; [vm_compute; reflexivity|].
  apply (get_intersections_zero_direction is_approx_eps hole_unit_z (vec3 0 0 1) (vec3 0 0 0)).
  reflexivity.
Defined.

(* ================================================================== *)
(** ** Equality of holes *)

Lemma SFeqb_sym (x y : spec_float) : SFeqb x y = SFeqb y x.
Proof.
  unfold SFeqb. rewrite (SFcompare_antisym x y).
  destruct (SFcompare x y) as [[]|]; reflexivity.
Qed.

(** Only NaN differs from itself. *)
Lemma SFeqb_refl (x : spec_float) : SFeqb x x = negb (is_nan x).
Proof.
  destruct x as [s|[]| |[] m e]; try reflexivity;
    unfold SFeqb; simpl; rewrite Z.compare_refl, Pos.compare_cont_refl; reflexivity.
Qed.

Lemma Vec3f_eqb_sym (a b : Vec3f) : Vec3f_eqb a b = Vec3f_eqb b a.
Proof.
  unfold Vec3f_eqb, F32.eqb.
  rewrite (SFeqb_sym (vx a)), (SFeqb_sym (vy a)), (SFeqb_sym (vz a)). reflexivity.
Qed.

Lemma Vec3f_eqb_refl (a : Vec3f) : Vec3f_eqb a a = negb (has_nan a).
Proof.
  unfold Vec3f_eqb, has_nan, F32.eqb. rewrite !SFeqb_refl, !negb_orb. reflexivity.
Qed.

Section AbsoluteDifference.
Variables prec emax : Z.

Lemma SFabs_binary_round (s : bool) (m : positive) (e : Z) :
  SFabs (binary_round prec emax s m e) = binary_round prec emax false m e.
Proof.
  unfold binary_round. destruct (shl_align m e _) as [mz ez].
  unfold binary_round_aux.
  destruct (shr_fexp prec emax (Z.pos mz) ez loc_Exact) as [mrs' e'].
  destruct (shr_fexp prec emax _ e' loc_Exact) as [mrs'' e''].
  destruct (shr_m mrs''); try reflexivity.
  destruct (e'' <=? emax - prec); reflexivity.
Qed.

Lemma SFabs_binary_normalize_opp (m e : Z) :
  SFabs (binary_normalize prec emax (- m) e false)
  = SFabs (binary_normalize prec emax m e false).
Proof.
  destruct m as [|p|p]; simpl; try reflexivity; rewrite !SFabs_binary_round; reflexivity.
Qed.

(** The distance between two numbers does not depend on their order. *)
Lemma SFabs_sub_sym (x y : spec_float) :
  SFabs (SFsub prec emax x y) = SFabs (SFsub prec emax y x).
Proof.
  destruct x as [[]|[]| |sx mx ex], y as [[]|[]| |sy my ey]; try reflexivity.
  cbn [SFsub]. rewrite (Z.min_comm ey ex).
  rewrite <- SFabs_binary_normalize_opp. f_equal. f_equal. lia.
Qed.
End AbsoluteDifference.

(** The approximate comparison of the library is symmetric. *)
Lemma is_approx_eps_sym (a b : F32.t) : is_approx_eps a b = is_approx_eps b a.
Proof.
  unfold is_approx_eps, F64.abs, F64.sub. rewrite SFabs_sub_sym. reflexivity.
Qed.

(** X10.  [operator==] on holes is symmetric whenever the approximate
    comparison of radius and height is. *)
Theorem DrainHole_eqb_sym (is_approx : F32.t -> F32.t -> bool) (h sp : DrainHole) :
  (forall a b, is_approx a b = is_approx b a) ->
  DrainHole_eqb is_approx h sp = DrainHole_eqb is_approx sp h.
Proof.
  intros Hs. unfold DrainHole_eqb.
  rewrite (Vec3f_eqb_sym (pos h)), (Vec3f_eqb_sym (normal h)),
    (Hs (radius h)), (Hs (height h)). reflexivity.
Qed.

Lemma DrainHole_eqb_sym_witness :
  DrainHole_eqb is_approx_eps hole_unit_z thin_hole
  = DrainHole_eqb is_approx_eps thin_hole hole_unit_z.
Proof.
  apply (DrainHole_eqb_sym is_approx_eps hole_unit_z thin_hole is_approx_eps_sym).
Defined.

(** X11.  A hole compares equal to itself exactly when no coordinate of its
    position or of its axis is NaN and its radius and its height are
    approximately equal to themselves: the exact comparison of the vectors
    fails on NaN, and on nothing else. *)
Theorem DrainHole_eqb_refl (is_approx : F32.t -> F32.t -> bool) (h : DrainHole) :
  DrainHole_eqb is_approx h h = true <->
  has_nan (pos h) = false /\ has_nan (normal h) = false /\
  is_approx (radius h) (radius h) = true /\ is_approx (height h) (height h) = true.
Proof.
  unfold DrainHole_eqb. rewrite !Vec3f_eqb_refl, !andb_true_iff, !negb_true_iff. tauto.
Qed.

(* ================================================================== *)
(** ** Scaling a Contour3D up and down *)

(** The product of a [double] by a power of two, when no digit is lost. *)
Lemma mul_pow2_rounded (s : bool) (m : positive) (e j : Z) :
  let e1 := fexp 53 1024 (Z.pos (digits2_pos m) + e + j) in
  let n := e1 - (e + j - 52) in
  0 <= n -> (Z.pos m * 2 ^ 52) mod 2 ^ n = 0 ->
  F64.mul (S754_finite s m e) (F64_pow2 j)
  = rounded 53 1024 s (Z.pos m * 2 ^ 52 / 2 ^ n) e1.
Proof.
  intros e1 n Hn Hmod.
  unfold F64.mul, F64_pow2, F64.prec, F64.emax. cbn [SFmul]. rewrite xorb_false_r.
  change (Z.pos (m * 4503599627370496)) with (Z.pos m * 2 ^ 52).
  assert (Hd : Zdigits2 (Z.pos m * 2 ^ 52) + (e + (j - 52)) = Z.pos (digits2_pos m) + e + j).
  { rewrite Zdigits2_shift by lia. cbn [Zdigits2]. lia. }
  destruct (binary_round_aux_exact 53 1024 eq_refl s (Z.pos m * 2 ^ 52) (e + (j - 52)))
    as (M1 & _ & HM & _ & E).
  - lia.
  - rewrite Hd. fold e1. unfold n in Hn. lia.
  - rewrite E. rewrite Hd in HM |- *. fold e1 in HM |- *.
    replace (e1 - (e + (j - 52))) with n in HM by (unfold n; lia).
    rewrite (HM Hmod). reflexivity.
Qed.

(** Multiplying by [2^k] and then by [2^-k] gives the number back. *)
Lemma mul_pow2_round_trip (k : Z) (x : F64.t) :
  0 <= k -> scalable k x = true ->
  F64.mul (F64.mul x (F64_pow2 k)) (F64_pow2 (- k)) = x.
Proof.
  intros Hk Hx. destruct x as [s|s| |s m e]; try (simpl; rewrite ?xorb_false_r; reflexivity).
  cbn [scalable] in Hx. apply andb_true_iff in Hx. destruct Hx as [Hv Hb].
  apply Z.leb_le in Hb.
  unfold F64.valid, valid_binary, bounded, F64.prec, F64.emax in Hv.
  apply andb_true_iff in Hv. destruct Hv as [Hc Hbe]. apply Z.leb_le in Hbe.
  pose proof (canonical_digits 53 1024 m e Hc) as (He & Hm & _).
  unfold canonical_mantissa in Hc. apply Z.eqb_eq in Hc.
  destruct (digits2_pos_bounds m) as [Hlo Hhi].
  set (d := Z.pos (digits2_pos m)) in *.
  assert (Hd : 1 <= d <= 53) by (unfold d, fexp, emin in *; lia).
  (* up: the product is [m * 2^(e + k - e1)] at the exponent [e1] *)
  set (e1 := fexp 53 1024 (d + e + k)).
  assert (He1 : e1 <= e + k /\ d + e + k - 53 <= e1 /\ emin 53 1024 <= e1)
    by (unfold e1, fexp, emin in *; lia).
  set (n := e1 - (e + k - 52)).
  assert (Hn : 0 <= n <= 52) by (unfold n; lia).
  assert (Hsplit : 2 ^ 52 = 2 ^ (e + k - e1) * 2 ^ n).
  { rewrite <- Z.pow_add_r by lia. f_equal. unfold n. lia. }
  assert (Hpn : 0 < 2 ^ n) by (apply Z.pow_pos_nonneg; lia).
  assert (Hpq : 0 < 2 ^ (e + k - e1)) by (apply Z.pow_pos_nonneg; lia).
  assert (Hquot : Z.pos m * 2 ^ 52 / 2 ^ n = Z.pos m * 2 ^ (e + k - e1)).
  { rewrite Hsplit, Z.mul_assoc, Z.div_mul by lia. reflexivity. }
  rewrite (mul_pow2_rounded s m e k).
  2:{ fold d. fold e1. fold n. lia. }
  2:{ fold d. fold e1. fold n. rewrite Hsplit, Z.mul_assoc. apply Z.mod_mul. lia. }
  fold d. fold e1. fold n. rewrite Hquot.
  set (M' := Z.pos m * 2 ^ (e + k - e1)).
  assert (HM'pos : 0 < M') by (unfold M'; lia).
  assert (HM'lt : M' < 2 ^ 53).
  { unfold M'. apply Z.lt_le_trans with (2 ^ d * 2 ^ (e + k - e1)).
    - apply Z.mul_lt_mono_pos_r; lia.
    - rewrite <- Z.pow_add_r by lia. apply Z.pow_le_mono_r; lia. }
  unfold rounded.
  destruct (Z.eqb_spec M' 0); [lia|].
  destruct (Z.ltb_spec M' (2 ^ 53)); [|lia].
  destruct (Z.leb_spec e1 (1024 - 53)); [|lia].
  (* down: the digits come back to the exponent [e] *)
  assert (Hd' : Z.pos (digits2_pos (Z.to_pos M')) = d + (e + k - e1)).
  { change (Z.pos (digits2_pos (Z.to_pos M'))) with (Zdigits2 (Z.pos (Z.to_pos M'))).
    rewrite Z2Pos.id by lia. unfold M'. rewrite Zdigits2_shift by lia. reflexivity. }
  set (n2 := fexp 53 1024 (Z.pos (digits2_pos (Z.to_pos M')) + e1 + - k) - (e1 + - k - 52)).
  assert (Hfe : fexp 53 1024 (Z.pos (digits2_pos (Z.to_pos M')) + e1 + - k) = e).
  { rewrite Hd'. replace (d + (e + k - e1) + e1 + - k) with (d + e) by lia. exact Hc. }
  assert (Hn2 : n2 = 52 + (e + k - e1)) by (unfold n2; rewrite Hfe; lia).
  assert (Hq2 : Z.pos (Z.to_pos M') * 2 ^ 52 = Z.pos m * 2 ^ n2).
  { rewrite Z2Pos.id by lia. unfold M'. rewrite Hn2, (Z.add_comm 52), Z.pow_add_r by lia. lia. }
  assert (Hpn2 : 0 < 2 ^ n2) by (apply Z.pow_pos_nonneg; lia).
  rewrite (mul_pow2_rounded s (Z.to_pos M') e1 (- k)).
  2:{ fold n2. lia. }
  2:{ fold n2. rewrite Hq2. apply Z.mod_mul. lia. }
  fold n2. rewrite Hfe, Hq2, Z.div_mul by lia.
  unfold rounded. cbn [Z.eqb].
  destruct (Z.ltb_spec (Z.pos m) (2 ^ 53)); [|lia].
  destruct (Z.leb_spec e (1024 - 53)); [|lia].
  reflexivity.
Qed.

(** The inverses of the scales 1, 2, 4 and 8 are exact. *)
Lemma inverse_pow2 (k : Z) : 0 <= k <= 3 -> (F64.one / F64_pow2 k)%f64 = F64_pow2 (- k).
Proof.
  intros H.
  assert (E : k = 0 \/ k = 1 \/ k = 2 \/ k = 3) by lia.
  destruct E as [-> | [-> | [-> | ->]]]; vm_compute; reflexivity.
Qed.

(** X12.  The two factors by which [_generate_interior] scales a
    [Contour3D], [voxel_scale] before the volumetric work and
    [1. / voxel_scale] after it, undo each other exactly for the scales 1,
    2, 4 and 8: scaling a surface up and then down gives back the same
    points, bit for bit, and the same faces, provided that no coordinate
    overflows when scaled up. *)
Theorem contour_scale_round_trip (Faces : Type) (k : Z) (m : Contour3D Faces) :
  0 <= k <= 3 ->
  forallb (scalable_point k) (points m) = true ->
  _scale_Contour3D (F64.one / F64_pow2 k)%f64 (_scale_Contour3D (F64_pow2 k) m) = m.
Proof.
  intros Hk Hpts. rewrite (inverse_pow2 k Hk).
  destruct m as [pts fs]. unfold _scale_Contour3D. cbn [points faces] in *.
  f_equal. rewrite map_map.
  induction pts as [|p pts IH]; [reflexivity|].
  cbn [forallb] in Hpts. apply andb_true_iff in Hpts. destruct Hpts as [Hp Hrest].
  cbn [List.map]. rewrite (IH Hrest). f_equal.
  unfold scalable_point in Hp. rewrite !andb_true_iff in Hp. destruct Hp as [[Hx Hy] Hz].
  destruct p as [x y z]. unfold Vec3d_scale. cbn [dx dy dz] in *.
  fold (F64.mul x (F64_pow2 k)). fold (F64.mul y (F64_pow2 k)). fold (F64.mul z (F64_pow2 k)).
  rewrite !mul_pow2_round_trip by (lia || assumption). reflexivity.
Qed.

Lemma contour_scale_round_trip_witness :
  let hc := Toy.config 1 2 1 in
  let m := mkContour3D [vec3d 0 0 0; vec3d 4 (-3) 0;
                        mkVec3d (F64.one / f64 3)%f64 (f64 1) (f64 7)]
             [(0, 1, 2)] in
  voxel_scale_of hc = F64_pow2 3 /\
  _scale_Contour3D (F64.one / voxel_scale_of hc)%f64 (_scale_Contour3D (voxel_scale_of hc) m) = m.
Proof.
  split; [vm_compute; reflexivity|].
  apply (contour_scale_round_trip (list (Z * Z * Z)) 3
           (mkContour3D [vec3d 0 0 0; vec3d 4 (-3) 0;
                         mkVec3d (F64.one / f64 3)%f64 (f64 1) (f64 7)] [(0, 1, 2)])).
  - lia.
  - vm_compute. reflexivity.
Defined.

(* ================================================================== *)
(** ** The interior-shell pipeline: edge cases *)

Section PipelineEdges.
Variables TriangleMesh FloatGrid : Type.
Variable TriangleMesh_empty : TriangleMesh.
Variable TriangleMesh_scale : F32.t -> TriangleMesh -> TriangleMesh.
Variable L : string -> string.
Variable W : Type.
Variable handler : forall X : Type, Event TriangleMesh FloatGrid X -> W -> X * W.
Variable mesh : TriangleMesh.
Variable hc : HollowingConfig.

(** X13.  A closing distance that is not above zero, be it zero, negative
    or NaN, skips the redistancing: no run redistances the grid, and the
    surface is extracted from the grid as it was built, at the level
    [-offset] and with adaptivity 0. *)
Theorem nonpositive_closing_skips_redistance (w : W) :
  let offset := offset_of (voxel_scale_of hc) (min_thickness hc) in
  let tr := trace_of (hollow TriangleMesh_empty TriangleMesh_scale L handler mesh hc w) in
  (closing_distance hc >? F64.zero)%f64 = false ->
  (forall c, In c tr -> is_redistance c = false) /\
  (forall g iso ad m, In (CGridToMesh g iso ad m) tr ->
   iso = (- offset)%f64 /\ ad = F64.zero /\
   exists m0 a b, In (CMeshToGrid m0 a b (Some g)) tr).
Proof.
  cbv zeta. intros Hz.
  split_run (run_outcome TriangleMesh FloatGrid TriangleMesh_empty TriangleMesh_scale L
               W handler mesh hc w)
    (hollow TriangleMesh_empty TriangleMesh_scale L handler mesh hc w) hc.
  all: try congruence.
  all: repeat split; intros;
    cbn [In] in *; in_cases;
    try reflexivity;
    try (repeat eexists; cbn [In]; eauto 12; fail).
Qed.

(** X14.  Every run begins with a cancellation query.  Each operation of
    the volumetric engine is called at most once per run; a redistancing
    works on the grid that the construction returned; and the error is
    logged only after the construction returned no grid, in which case the
    result is the empty mesh. *)
Theorem engine_call_discipline (w : W) :
  let o := hollow TriangleMesh_empty TriangleMesh_scale L handler mesh hc w in
  let tr := trace_of o in
  (exists a rest, tr = CStop a :: rest) /\
  (count_calls is_mesh_to_grid tr <= 1)%nat /\
  (count_calls is_redistance tr <= 1)%nat /\
  (count_calls is_grid_to_mesh tr <= 1)%nat /\
  (forall g iso band g', In (CRedistance g iso band g') tr ->
   exists m a b, In (CMeshToGrid m a b (Some g)) tr) /\
  (forall msg, In (CLog msg) tr ->
   result_of o = TriangleMesh_empty /\
   exists m a b, In (CMeshToGrid m a b None) tr).
Proof.
  cbv zeta.
  split_run (run_outcome TriangleMesh FloatGrid TriangleMesh_empty TriangleMesh_scale L
               W handler mesh hc w)
    (hollow TriangleMesh_empty TriangleMesh_scale L handler mesh hc w) hc.
  all: unfold count_calls;
    cbn [filter is_mesh_to_grid is_redistance is_grid_to_mesh List.length].
  all: repeat split; try lia; try (do 2 eexists; reflexivity);
    intros; cbn [In] in *; in_cases;
    try (repeat eexists; cbn [In]; eauto 12; fail).
Qed.

End PipelineEdges.

Lemma nonpositive_closing_skips_redistance_witness :
  let hc := mkHollowingConfig (f64 2) (f64 1) S754_nan in
  let tr := trace_of (Toy.go 9 true hc) in
  (forall c, In c tr -> is_redistance c = false) /\
  (forall g iso ad m, In (CGridToMesh g iso ad m) tr ->
   iso = (- offset_of (voxel_scale_of hc) (min_thickness hc))%f64 /\ ad = F64.zero /\
   exists m0 a b, In (CMeshToGrid m0 a b (Some g)) tr).
Proof.
  apply (nonpositive_closing_skips_redistance Toy.Mesh Toy.Grid [] Toy.scale Toy.translate
           nat (Toy.handler 9 true) Toy.triangle (mkHollowingConfig (f64 2) (f64 1) S754_nan) O).
  reflexivity.
Defined.

(* ================================================================== *)
(** ** Rounding to nearest is monotone *)

Lemma shr_1_bits (mrs : shr_record) :
  0 <= shr_m mrs ->
  shr_r (shr_1 mrs) = Z.odd (shr_m mrs) /\
  shr_s (shr_1 mrs) = shr_r mrs || shr_s mrs.
Proof.
  destruct mrs as [m r s]; cbn [shr_m shr_r shr_s].
  destruct m as [|[p|p|]|p]; cbn [shr_1 shr_r shr_s]; intros H; try lia; auto.
Qed.

Lemma mod_pow2_succ (m k : Z) :
  0 <= k ->
  m mod 2 ^ (k + 1) = m mod 2 ^ k + 2 ^ k * (if Z.odd (m / 2 ^ k) then 1 else 0).
Proof.
  intros Hk. rewrite Z.pow_add_r, Z.pow_1_r by lia.
  assert (0 < 2 ^ k) by (apply Z.pow_pos_nonneg; lia).
  rewrite Z.rem_mul_r by lia. rewrite Zmod_odd. reflexivity.
Qed.

(** After [n + 1] shifts the round bit is bit [n] of the number and the
    sticky bit tells whether a lower bit is set. *)
Lemma iter_shr_1_bits (n : nat) (m : Z) :
  0 <= m ->
  let mrs := Nat.iter (S n) shr_1 (Build_shr_record m false false) in
  shr_r mrs = Z.odd (m / 2 ^ Z.of_nat n) /\
  shr_s mrs = negb (m mod 2 ^ Z.of_nat n =? 0).
Proof.
  intros Hm. induction n as [|n IH].
  - cbv zeta. unfold Nat.iter. cbn [nat_rect].
    destruct (shr_1_bits (Build_shr_record m false false) Hm) as [Hr Hs].
    rewrite Hr, Hs. cbn [shr_m shr_r shr_s orb Z.of_nat]. rewrite Z.pow_0_r, Z.div_1_r, Z.mod_1_r.
    auto.
  - cbv zeta in IH |- *. destruct IH as [IHr IHs].
    set (mrs0 := Build_shr_record m false false) in *.
    destruct (iter_shr_1_m (S n) mrs0 Hm) as [H0 Hmm].
    rewrite Nat.iter_succ.
    destruct (shr_1_bits (Nat.iter (S n) shr_1 mrs0) H0) as [Hr Hs].
    rewrite Hr, Hs, Hmm, IHr, IHs. cbn [shr_m mrs0].
    split; [reflexivity|].
    rewrite (Nat2Z.inj_succ n), <- Z.add_1_r.
    rewrite (mod_pow2_succ m (Z.of_nat n)) by lia.
    assert (Hp : 0 < 2 ^ Z.of_nat n) by (apply Z.pow_pos_nonneg; lia).
    pose proof (Z.mod_pos_bound m (2 ^ Z.of_nat n) Hp) as Hb.
    destruct (Z.odd (m / 2 ^ Z.of_nat n)); cbn [orb].
    + symmetry. apply negb_true_iff, Z.eqb_neq. lia.
    + rewrite Z.mul_0_r, Z.add_0_r. reflexivity.
Qed.

(** The shift by [n] digits followed by the rounding is [rne]. *)
Lemma shr_rne (m e n : Z) :
  0 <= m -> 0 <= n ->
  round_nearest_even (shr_m (fst (shr (shr_record_of_loc m loc_Exact) e n)))
    (loc_of_shr_record (fst (shr (shr_record_of_loc m loc_Exact) e n)))
  = rne m n.
Proof.
  intros Hm Hn. destruct n as [|p|p]; try lia; cbn [shr shr_record_of_loc fst].
  - unfold rne. rewrite Z.pow_0_r, Z.div_1_r, Z.mod_1_r. reflexivity.
  - rewrite iter_pos_nat.
    set (mrs0 := {| shr_m := m; shr_r := false; shr_s := false |}).
    destruct (iter_shr_1_m (Pos.to_nat p) mrs0 Hm) as [_ E].
    rewrite positive_nat_Z in E. cbn [shr_m mrs0] in E.
    destruct (Pos2Nat.is_succ p) as [k Hk].
    pose proof (iter_shr_1_bits k m Hm) as Hb. cbv zeta in Hb. fold mrs0 in Hb.
    rewrite <- Hk in Hb. destruct Hb as [Hr Hs].
    assert (Hpk : Z.pos p = Z.of_nat k + 1) by lia.
    assert (H2k : 0 < 2 ^ Z.of_nat k) by (apply Z.pow_pos_nonneg; lia).
    pose proof (Z.mod_pos_bound m (2 ^ Z.of_nat k) H2k) as Hlow.
    unfold rne. rewrite <- E. rewrite Hpk.
    rewrite (mod_pow2_succ m (Z.of_nat k)) by lia.
    rewrite (Z.pow_add_r 2 (Z.of_nat k) 1), Z.pow_1_r by lia.
    destruct (Nat.iter (Pos.to_nat p) shr_1 mrs0) as [m' r' s'].
    cbn [shr_m shr_r shr_s] in *. subst r' s'.
    destruct (Z.odd (m / 2 ^ Z.of_nat k)); cbn [loc_of_shr_record].
    + destruct (Z.eqb_spec (m mod 2 ^ Z.of_nat k) 0) as [E0|N0]; cbn [negb round_nearest_even].
      * rewrite E0.
        destruct (Z.ltb_spec (2 * (0 + 2 ^ Z.of_nat k * 1)) (2 ^ Z.of_nat k * 2)); [lia|].
        destruct (Z.ltb_spec (2 ^ Z.of_nat k * 2) (2 * (0 + 2 ^ Z.of_nat k * 1))); [lia|].
        reflexivity.
      * destruct (Z.ltb_spec (2 * (m mod 2 ^ Z.of_nat k + 2 ^ Z.of_nat k * 1)) (2 ^ Z.of_nat k * 2)); [lia|].
        destruct (Z.ltb_spec (2 ^ Z.of_nat k * 2) (2 * (m mod 2 ^ Z.of_nat k + 2 ^ Z.of_nat k * 1))); [|lia].
        reflexivity.
    + rewrite Z.mul_0_r, Z.add_0_r.
      destruct (Z.ltb_spec (2 * (m mod 2 ^ Z.of_nat k)) (2 ^ Z.of_nat k * 2)); [|lia].
      destruct (m mod 2 ^ Z.of_nat k =? 0); reflexivity.
Qed.

Lemma rne_bounds (m n : Z) : m / 2 ^ n <= rne m n <= m / 2 ^ n + 1.
Proof.
  unfold rne. destruct (2 * (m mod 2 ^ n) <? 2 ^ n); [lia|].
  destruct (2 ^ n <? 2 * (m mod 2 ^ n)); [lia|].
  destruct (Z.even (m / 2 ^ n)); lia.
Qed.

Lemma rne_exact (m n : Z) : 0 <= n -> m mod 2 ^ n = 0 -> rne m n = m / 2 ^ n.
Proof.
  intros Hn E. unfold rne. rewrite E.
  assert (0 < 2 ^ n) by (apply Z.pow_pos_nonneg; lia).
  destruct (Z.ltb_spec (2 * 0) (2 ^ n)); [reflexivity | lia].
Qed.

(** Rounding to nearest is monotone. *)
Lemma rne_mono (m m' n : Z) : 0 <= n -> m <= m' -> rne m n <= rne m' n.
Proof.
  intros Hn Hle.
  assert (Hp : 0 < 2 ^ n) by (apply Z.pow_pos_nonneg; lia).
  pose proof (Z.div_le_mono m m' (2 ^ n) Hp Hle) as Hq.
  destruct (Z.eq_dec (m / 2 ^ n) (m' / 2 ^ n)) as [E|N].
  - pose proof (Z.div_mod m (2 ^ n) ltac:(lia)) as D.
    pose proof (Z.div_mod m' (2 ^ n) ltac:(lia)) as D'.
    assert (Hr : m mod 2 ^ n <= m' mod 2 ^ n) by (rewrite E in D; lia).
    unfold rne. rewrite E.
    destruct (Z.ltb_spec (2 * (m mod 2 ^ n)) (2 ^ n));
      destruct (Z.ltb_spec (2 * (m' mod 2 ^ n)) (2 ^ n)); try lia;
      destruct (Z.ltb_spec (2 ^ n) (2 * (m mod 2 ^ n)));
      destruct (Z.ltb_spec (2 ^ n) (2 * (m' mod 2 ^ n))); try lia;
      destruct (Z.even (m' / 2 ^ n)); lia.
  - pose proof (rne_bounds m n). pose proof (rne_bounds m' n). lia.
Qed.

(** Rounding sees the quotient, not its representation. *)
Lemma rne_scale (m n j : Z) : 0 <= n -> 0 <= j -> rne (m * 2 ^ j) (n + j) = rne m n.
Proof.
  intros Hn Hj.
  assert (Hp : 0 < 2 ^ n) by (apply Z.pow_pos_nonneg; lia).
  assert (Hpj : 0 < 2 ^ j) by (apply Z.pow_pos_nonneg; lia).
  unfold rne. rewrite Z.pow_add_r by lia.
  rewrite Z.div_mul_cancel_r by lia.
  rewrite Z.mul_mod_distr_r by lia.
  destruct (Z.ltb_spec (2 * (m mod 2 ^ n * 2 ^ j)) (2 ^ n * 2 ^ j));
    destruct (Z.ltb_spec (2 * (m mod 2 ^ n)) (2 ^ n)); try nia; try reflexivity.
  destruct (Z.ltb_spec (2 ^ n * 2 ^ j) (2 * (m mod 2 ^ n * 2 ^ j)));
    destruct (Z.ltb_spec (2 ^ n) (2 * (m mod 2 ^ n))); try nia; reflexivity.
Qed.

Section RoundingOrder.
Variables prec emax : Z.
Hypothesis Hprec : 0 < prec.

(** The rounding of [m * 2^e], in full. *)
Lemma binary_round_aux_rne (s : bool) (m e : Z) :
  0 < m ->
  let e1 := fexp prec emax (Zdigits2 m + e) in
  let n := e1 - e in
  0 <= n ->
  rne m n <= 2 ^ prec /\
  (emin prec emax < e1 -> 2 ^ (prec - 1) <= rne m n) /\
  binary_round_aux prec emax s m e loc_Exact = rounded prec emax s (rne m n) e1.
Proof.
  intros Hm e1 n Hn.
  assert (Hpn : 0 < 2 ^ n) by (apply Z.pow_pos_nonneg; lia).
  assert (Hq0 : 0 <= m / 2 ^ n) by (apply Z.div_pos; lia).
  destruct (Zdigits2_bounds m Hm) as [Hlo Hhi].
  pose proof (Zdigits2_pos m Hm) as Hdpos.
  assert (Hq : m / 2 ^ n < 2 ^ prec).
  { apply Z.div_lt_upper_bound; [lia|].
    rewrite <- Z.pow_add_r by lia.
    eapply Z.lt_le_trans; [exact Hhi|]. apply Z.pow_le_mono_r; [lia|].
    pose proof (fexp_ge prec emax (Zdigits2 m + e)). unfold n, e1. lia. }
  pose proof (rne_bounds m n) as HM.
  set (M1 := rne m n) in *.
  split; [lia|]. split.
  { intros He. assert (En : n = Zdigits2 m - prec) by (unfold n, e1, fexp in *; lia).
    assert (2 ^ (prec - 1) <= m / 2 ^ n); [|lia].
    apply Z.div_le_lower_bound; [lia|].
    rewrite Z.mul_comm, <- Z.pow_add_r by lia.
    replace (prec - 1 + n) with (Zdigits2 m - 1) by lia. exact Hlo. }
  unfold binary_round_aux, shr_fexp. fold e1. fold n.
  pose proof (shr_rne m e n (Z.lt_le_incl _ _ Hm) Hn) as Hrne.
  destruct (shr_exact m e n (Z.lt_le_incl _ _ Hm) Hn) as (_ & E2 & _).
  destruct (shr (shr_record_of_loc m loc_Exact) e n) as [mrs' e'].
  cbn [fst snd] in Hrne, E2. subst e'. rewrite Hrne. fold M1.
  replace (e + n) with e1 by (unfold n; lia).
  assert (He1 : emin prec emax <= e1) by apply fexp_ge_emin.
  unfold rounded.
  destruct (Z.eqb_spec M1 0) as [HZ|NZ].
  - rewrite HZ. cbn [Zdigits2]. rewrite shr_none.
    + reflexivity.
    + unfold fexp, emin in *. lia.
  - assert (HM1 : 0 < M1) by lia.
    destruct (Z.ltb_spec M1 (2 ^ prec)) as [Hlt|Hge].
    + rewrite shr_none.
      * cbn [shr_m shr_record_of_loc fst]. destruct M1; try lia. reflexivity.
      * pose proof (Zdigits2_le M1 prec HM1 (Z.lt_le_incl _ _ Hprec) Hlt).
        unfold fexp, emin in *. lia.
    + assert (HM2 : M1 = 2 ^ prec) by lia.
      assert (Hd : Zdigits2 M1 = prec + 1).
      { apply Z.le_antisymm.
        - apply Zdigits2_le; try lia. rewrite Z.add_1_r, Z.pow_succ_r by lia. lia.
        - pose proof (Zdigits2_gt M1 prec HM1 (Z.lt_le_incl _ _ Hprec) Hge). lia. }
      rewrite Hd.
      replace (fexp prec emax (prec + 1 + e1) - e1) with 1
        by (unfold fexp, emin in *; lia).
      destruct (shr_exact M1 e1 1 (Z.lt_le_incl _ _ HM1)) as (F1 & F2 & _); [lia|].
      destruct (shr (shr_record_of_loc M1 loc_Exact) e1 1) as [mrs'' e''].
      cbn [fst snd] in F1, F2. subst e''. rewrite F1.
      replace (M1 / 2 ^ 1) with (2 ^ (prec - 1)).
      * assert (0 < 2 ^ (prec - 1)) by (apply Z.pow_pos_nonneg; lia).
        destruct (2 ^ (prec - 1)); try lia. reflexivity.
      * rewrite HM2. replace prec with (Z.succ (prec - 1)) at 2 by lia.
        rewrite Z.pow_succ_r by lia. rewrite Z.pow_1_r.
        rewrite Z.mul_comm, Z.div_mul by lia. reflexivity.
Qed.

(** What rounding leaves is a well-formed float. *)
Lemma rounded_valid (s : bool) (M e1 : Z) :
  0 <= M <= 2 ^ prec -> emin prec emax <= e1 ->
  (emin prec emax < e1 -> 2 ^ (prec - 1) <= M) ->
  valid_binary prec emax (rounded prec emax s M e1) = true.
Proof.
  intros HM He Hn. unfold rounded.
  assert (Hpp : 0 < 2 ^ (prec - 1)) by (apply Z.pow_pos_nonneg; lia).
  destruct (Z.eqb_spec M 0); [reflexivity|].
  destruct (Z.ltb_spec M (2 ^ prec)) as [Hlt|Hge].
  - destruct (Z.leb_spec e1 (emax - prec)) as [Hb|Hb]; [|reflexivity].
    cbn [valid_binary]. unfold bounded, canonical_mantissa.
    apply andb_true_iff. split; [|apply Z.leb_le; exact Hb].
    apply Z.eqb_eq.
    change (Z.pos (digits2_pos (Z.to_pos M))) with (Zdigits2 (Z.pos (Z.to_pos M))).
    rewrite Z2Pos.id by lia.
    pose proof (Zdigits2_le M prec ltac:(lia) ltac:(lia) Hlt) as Hd.
    pose proof (Zdigits2_pos M ltac:(lia)) as Hd0.
    destruct (Z.eq_dec e1 (emin prec emax)) as [->|Ne].
    + unfold fexp. lia.
    + pose proof (Zdigits2_gt M (prec - 1) ltac:(lia) ltac:(lia) (Hn ltac:(lia))).
      unfold fexp. lia.
  - destruct (Z.leb_spec (e1 + 1) (emax - prec)) as [Hb|Hb]; [|reflexivity].
    cbn [valid_binary]. unfold bounded, canonical_mantissa.
    apply andb_true_iff. split; [|apply Z.leb_le; exact Hb].
    apply Z.eqb_eq.
    change (Z.pos (digits2_pos (Z.to_pos (2 ^ (prec - 1)))))
      with (Zdigits2 (Z.pos (Z.to_pos (2 ^ (prec - 1))))).
    rewrite Z2Pos.id by lia.
    assert (Hd : Zdigits2 (2 ^ (prec - 1)) = prec).
    { apply Z.le_antisymm.
      - apply Zdigits2_le; try lia. apply Z.pow_lt_mono_r; lia.
      - pose proof (Zdigits2_gt (2 ^ (prec - 1)) (prec - 1) ltac:(lia) ltac:(lia) ltac:(lia)).
        lia. }
    rewrite Hd. unfold fexp. lia.
Qed.

Lemma binary_round_aux_valid (s : bool) (m e : Z) :
  0 < m -> 0 <= fexp prec emax (Zdigits2 m + e) - e ->
  valid_binary prec emax (binary_round_aux prec emax s m e loc_Exact) = true.
Proof.
  intros Hm Hn.
  destruct (binary_round_aux_rne s m e Hm Hn) as (H1 & H2 & ->).
  apply rounded_valid; auto.
  - pose proof (rne_bounds m (fexp prec emax (Zdigits2 m + e) - e)).
    assert (0 <= m / 2 ^ (fexp prec emax (Zdigits2 m + e) - e)).
    { apply Z.div_pos; [lia|]. apply Z.pow_pos_nonneg; lia. }
    lia.
  - apply fexp_ge_emin.
Qed.

(** Among the results of rounding, a smaller mantissa at the same exponent
    gives a smaller float. *)
Lemma rounded_leb_same (M M' e1 : Z) :
  0 <= M <= M' -> M' <= 2 ^ prec ->
  SFleb (rounded prec emax false M e1) (rounded prec emax false M' e1) = true.
Proof.
  intros HM HM'. unfold rounded.
  assert (Hpp : 0 < 2 ^ (prec - 1)) by (apply Z.pow_pos_nonneg; lia).
  destruct (Z.eqb_spec M 0) as [->|NM].
  - destruct (Z.eqb_spec M' 0); [reflexivity|].
    destruct (M' <? 2 ^ prec); [destruct (e1 <=? emax - prec)|destruct (e1 + 1 <=? emax - prec)];
      reflexivity.
  - destruct (Z.eqb_spec M' 0); [lia|].
    destruct (Z.ltb_spec M (2 ^ prec)); destruct (Z.ltb_spec M' (2 ^ prec)); try lia.
    + destruct (e1 <=? emax - prec); [|reflexivity].
      apply SFleb_finite. right. split; [reflexivity|]. rewrite !Z2Pos.id by lia. lia.
    + destruct (Z.leb_spec e1 (emax - prec)); destruct (Z.leb_spec (e1 + 1) (emax - prec));
        try reflexivity; try lia.
      apply SFleb_finite. left. lia.
    + destruct (e1 + 1 <=? emax - prec); [|reflexivity].
      apply SFleb_finite. right. split; [reflexivity|]. lia.
Qed.

(** A result at a greater exponent, with a full mantissa, is greater. *)
Lemma rounded_leb_less (M M' e1 e1' : Z) :
  0 <= M <= 2 ^ prec -> 2 ^ (prec - 1) <= M' <= 2 ^ prec -> e1 < e1' ->
  SFleb (rounded prec emax false M e1) (rounded prec emax false M' e1') = true.
Proof.
  intros HM HM' He. unfold rounded.
  assert (Hpp : 0 < 2 ^ (prec - 1)) by (apply Z.pow_pos_nonneg; lia).
  destruct (Z.eqb_spec M' 0); [lia|].
  destruct (Z.eqb_spec M 0) as [->|NM].
  - destruct (M' <? 2 ^ prec); [destruct (e1' <=? emax - prec)|destruct (e1' + 1 <=? emax - prec)];
      reflexivity.
  - destruct (Z.ltb_spec M (2 ^ prec)); destruct (Z.ltb_spec M' (2 ^ prec));
      destruct (Z.leb_spec e1 (emax - prec)); destruct (Z.leb_spec (e1 + 1) (emax - prec));
      destruct (Z.leb_spec e1' (emax - prec)); destruct (Z.leb_spec (e1' + 1) (emax - prec));
      try reflexivity; try lia;
      apply SFleb_finite; rewrite ?Z2Pos.id by lia; lia.
Qed.

(** Rounding is monotone: of two positive numbers [m1 * 2^e1 <= m2 * 2^e2]
    the first does not round above the second. *)
Lemma binary_round_aux_mono (m1 e1 m2 e2 e0 : Z) :
  0 < m1 -> 0 < m2 ->
  0 <= fexp prec emax (Zdigits2 m1 + e1) - e1 ->
  0 <= fexp prec emax (Zdigits2 m2 + e2) - e2 ->
  e0 <= e1 -> e0 <= e2 ->
  m1 * 2 ^ (e1 - e0) <= m2 * 2 ^ (e2 - e0) ->
  SFleb (binary_round_aux prec emax false m1 e1 loc_Exact)
        (binary_round_aux prec emax false m2 e2 loc_Exact) = true.
Proof.
  intros Hm1 Hm2 Hn1 Hn2 H01 H02 Hv.
  destruct (Zdigits2_bounds m1 Hm1) as [Hlo1 Hhi1].
  destruct (Zdigits2_bounds m2 Hm2) as [Hlo2 Hhi2].
  pose proof (Zdigits2_pos m1 Hm1) as Hd1. pose proof (Zdigits2_pos m2 Hm2) as Hd2.
  assert (Hmag : Zdigits2 m1 + e1 <= Zdigits2 m2 + e2).
  { destruct (Z.le_gt_cases (Zdigits2 m1 + e1) (Zdigits2 m2 + e2)) as [|Hgt]; [assumption|].
    exfalso.
    assert (Hp1 : 0 < 2 ^ (e1 - e0)) by (apply Z.pow_pos_nonneg; lia).
    assert (Hp2 : 0 < 2 ^ (e2 - e0)) by (apply Z.pow_pos_nonneg; lia).
    assert (A : m2 * 2 ^ (e2 - e0) < 2 ^ (Zdigits2 m2 + (e2 - e0))).
    { rewrite Z.pow_add_r by lia. nia. }
    assert (B : 2 ^ (Zdigits2 m1 - 1 + (e1 - e0)) <= m1 * 2 ^ (e1 - e0)).
    { rewrite Z.pow_add_r by lia. nia. }
    assert (C : 2 ^ (Zdigits2 m2 + (e2 - e0)) <= 2 ^ (Zdigits2 m1 - 1 + (e1 - e0))).
    { apply Z.pow_le_mono_r; lia. }
    lia. }
  destruct (binary_round_aux_rne false m1 e1 Hm1 Hn1) as (U1 & N1 & ->).
  destruct (binary_round_aux_rne false m2 e2 Hm2 Hn2) as (U2 & N2 & ->).
  set (E1 := fexp prec emax (Zdigits2 m1 + e1)) in *.
  set (E2 := fexp prec emax (Zdigits2 m2 + e2)) in *.
  assert (HE : E1 <= E2) by (unfold E1, E2, fexp; lia).
  assert (L1 : 0 <= rne m1 (E1 - e1)).
  { pose proof (rne_bounds m1 (E1 - e1)).
    assert (0 <= m1 / 2 ^ (E1 - e1)); [|lia].
    apply Z.div_pos; [lia|]. apply Z.pow_pos_nonneg; lia. }
  destruct (Z.eq_dec E1 E2) as [Eq|Ne].
  - rewrite <- Eq in *.
    apply rounded_leb_same; [|exact U2]. split; [exact L1|].
    rewrite <- (rne_scale m1 (E1 - e1) (e1 - e0)) by lia.
    rewrite <- (rne_scale m2 (E1 - e2) (e2 - e0)) by lia.
    replace (E1 - e2 + (e2 - e0)) with (E1 - e1 + (e1 - e0)) by lia.
    apply rne_mono; [lia | exact Hv].
  - apply rounded_leb_less; try lia.
    split; [|exact U2]. apply N2. pose proof (fexp_ge_emin prec emax (Zdigits2 m1 + e1)).
    fold E1 in H. lia.
Qed.

(** The same for [binary_round], which first aligns the mantissa. *)
Lemma binary_round_aligned (s : bool) (m : positive) (e : Z) :
  exists mz ez,
    binary_round prec emax s m e = binary_round_aux prec emax s (Z.pos mz) ez loc_Exact /\
    ez <= e /\ Z.pos mz = Z.pos m * 2 ^ (e - ez) /\
    0 <= fexp prec emax (Zdigits2 (Z.pos mz) + ez) - ez.
Proof.
  unfold binary_round.
  destruct (shl_align_spec m e (fexp prec emax (Z.pos (digits2_pos m) + e))) as [Hm Hz].
  destruct (shl_align m e (fexp prec emax (Z.pos (digits2_pos m) + e))) as [mz ez].
  cbn [fst snd] in Hm, Hz. exists mz, ez.
  split; [reflexivity|]. split; [lia|]. split; [exact Hm|].
  rewrite Hm, Zdigits2_shift by lia. cbn [Zdigits2].
  replace (Z.pos (digits2_pos m) + (e - ez) + ez) with (Z.pos (digits2_pos m) + e) by lia.
  lia.
Qed.

Lemma binary_round_mono (m1 m2 : positive) (e1 e2 e0 : Z) :
  e0 <= e1 -> e0 <= e2 ->
  Z.pos m1 * 2 ^ (e1 - e0) <= Z.pos m2 * 2 ^ (e2 - e0) ->
  SFleb (binary_round prec emax false m1 e1) (binary_round prec emax false m2 e2) = true.
Proof.
  intros H1 H2 Hv.
  destruct (binary_round_aligned false m1 e1) as (mz1 & ez1 & -> & Hz1 & Hm1 & Hn1).
  destruct (binary_round_aligned false m2 e2) as (mz2 & ez2 & -> & Hz2 & Hm2 & Hn2).
  set (e00 := Z.min e0 (Z.min ez1 ez2)).
  apply (binary_round_aux_mono (Z.pos mz1) ez1 (Z.pos mz2) ez2 e00); try lia.
  rewrite Hm1, Hm2, <- !Z.mul_assoc, <- !Z.pow_add_r by lia.
  replace (e1 - ez1 + (ez1 - e00)) with ((e1 - e0) + (e0 - e00)) by lia.
  replace (e2 - ez2 + (ez2 - e00)) with ((e2 - e0) + (e0 - e00)) by lia.
  rewrite !Z.pow_add_r, !Z.mul_assoc by lia.
  apply Z.mul_le_mono_nonneg_r; [|exact Hv].
  apply Z.pow_nonneg. lia.
Qed.

Lemma binary_round_valid (s : bool) (m : positive) (e : Z) :
  valid_binary prec emax (binary_round prec emax s m e) = true.
Proof.
  destruct (binary_round_aligned s m e) as (mz & ez & -> & _ & _ & Hn).
  apply binary_round_aux_valid; [lia | exact Hn].
Qed.

(** For well-formed floats the order is the order of the values. *)
Lemma SFleb_value (m1 m2 : positive) (e1 e2 : Z) :
  canonical_mantissa prec emax m1 e1 = true ->
  canonical_mantissa prec emax m2 e2 = true ->
  SFleb (S754_finite false m1 e1) (S754_finite false m2 e2) = true ->
  Z.pos m1 * 2 ^ (e1 - Z.min e1 e2) <= Z.pos m2 * 2 ^ (e2 - Z.min e1 e2).
Proof.
  intros C1 C2 H. apply SFleb_finite_inv in H. destruct H as [Hlt|[-> Hle]].
  - pose proof (canonical_aligned_lt prec emax Hprec m1 m2 e1 e2 C1 C2 Hlt) as A.
    destruct (shl_align_spec m1 e1 (Z.min e1 e2)) as [S1 T1].
    destruct (shl_align_spec m2 e2 (Z.min e1 e2)) as [S2 T2].
    rewrite S1, S2, T1, T2 in A.
    replace (Z.min e1 (Z.min e1 e2)) with (Z.min e1 e2) in A by lia.
    replace (Z.min e2 (Z.min e1 e2)) with (Z.min e1 e2) in A by lia.
    lia.
  - rewrite Z.min_id, Z.sub_diag. simpl. lia.
Qed.

End RoundingOrder.

Lemma SFltb_leb_trans (x y z : spec_float) :
  SFltb x y = true -> SFleb y z = true -> SFltb x z = true.
Proof.
  intros Hlt Hle.
  destruct (SFltb_not_nan _ _ Hlt) as [Nx Ny].
  destruct (SFleb_not_nan _ _ Hle) as [_ Nz].
  destruct (SFltb x z) eqn:E; [reflexivity|].
  pose proof (SFleb_negb_ltb x z Nx Nz) as H. rewrite E in H. cbn [negb] in H.
  pose proof (SFleb_trans _ _ _ Hle H) as H2.
  pose proof (SFleb_negb_ltb x y Nx Ny) as H3. rewrite Hlt, H2 in H3. discriminate.
Qed.

Section Products.
Variables prec emax : Z.
Hypothesis Hprec : 0 < prec.
Hypothesis Hemin : emin prec emax <= 0.

(** The product of two well-formed floats needs no left shift before it is
    rounded. *)
Lemma product_shift (m1 m2 : positive) (e1 e2 : Z) :
  canonical_mantissa prec emax m1 e1 = true ->
  canonical_mantissa prec emax m2 e2 = true ->
  0 <= fexp prec emax (Zdigits2 (Z.pos (m1 * m2)) + (e1 + e2)) - (e1 + e2).
Proof.
  intros C1 C2.
  unfold canonical_mantissa in C1, C2. apply Z.eqb_eq in C1, C2.
  destruct (digits2_pos_bounds m1) as [L1 U1]. destruct (digits2_pos_bounds m2) as [L2 U2].
  set (d1 := Z.pos (digits2_pos m1)) in *. set (d2 := Z.pos (digits2_pos m2)) in *.
  assert (Hd1 : 1 <= d1) by (unfold d1; lia). assert (Hd2 : 1 <= d2) by (unfold d2; lia).
  assert (HD : d1 + d2 - 2 < Zdigits2 (Z.pos (m1 * m2))).
  { apply Zdigits2_gt; try lia. rewrite Pos2Z.inj_mul.
    replace (d1 + d2 - 2) with ((d1 - 1) + (d2 - 1)) by lia.
    rewrite Z.pow_add_r by lia.
    assert (0 < 2 ^ (d1 - 1)) by (apply Z.pow_pos_nonneg; lia).
    assert (0 < 2 ^ (d2 - 1)) by (apply Z.pow_pos_nonneg; lia). nia. }
  unfold fexp in *. lia.
Qed.

(** Multiplying by a non-negative float is monotone. *)
Lemma SFmul_mono (x y c : spec_float) :
  valid_binary prec emax x = true -> valid_binary prec emax y = true ->
  valid_binary prec emax c = true ->
  SFleb (S754_zero false) x = true -> SFleb x y = true ->
  SFleb (S754_zero false) c = true ->
  is_nan (SFmul prec emax x c) = false -> is_nan (SFmul prec emax y c) = false ->
  SFleb (SFmul prec emax x c) (SFmul prec emax y c) = true.
Proof.
  intros Vx Vy Vc Hx Hxy Hc Nx Ny.
  destruct c as [sc|[]| |[] mc ec]; try discriminate Hc;
    destruct x as [sx|[]| |[] mx ex]; try discriminate Hx; try discriminate Nx;
    destruct y as [sy|[]| |[] my ey]; try discriminate Hxy; try discriminate Ny;
    try reflexivity;
    try (cbn [SFmul xorb]; destruct sc; reflexivity);
    try (cbn [SFmul xorb]; destruct sx; reflexivity).
  - (* zero times c, finite times c *)
    cbn [SFmul xorb]. 
    destruct (binary_round_aux_sign prec emax false (Z.pos (my * mc)) (ey + ec) loc_Exact
                ltac:(lia)) as [Hn Hs].
    destruct sx; cbn [xorb];
      destruct (binary_round_aux prec emax false (Z.pos (my * mc)) (ey + ec) loc_Exact)
        as [s|s| |s m e]; simpl in Hs; subst; try discriminate; reflexivity.
  - cbn [SFmul xorb].
    destruct (binary_round_aux_sign prec emax false (Z.pos (mx * mc)) (ex + ec) loc_Exact
                ltac:(lia)) as [Hn Hs].
    destruct (binary_round_aux prec emax false (Z.pos (mx * mc)) (ex + ec) loc_Exact)
        as [s|s| |s m e]; simpl in Hs; subst; try discriminate; reflexivity.
  - cbn [SFmul xorb].
    cbn [valid_binary] in Vx, Vy, Vc. unfold bounded in Vx, Vy, Vc.
    apply andb_true_iff in Vx, Vy, Vc.
    destruct Vx as [Cx _], Vy as [Cy _], Vc as [Cc _].
    pose proof (SFleb_value prec emax Hprec mx my ex ey Cx Cy Hxy) as Hv.
    set (e0 := Z.min ex ey) in *.
    apply (binary_round_aux_mono prec emax Hprec _ _ _ _ (e0 + ec)); try lia.
    + apply product_shift; assumption.
    + apply product_shift; assumption.
    + rewrite !Pos2Z.inj_mul.
      replace (ex + ec - (e0 + ec)) with (ex - e0) by lia.
      replace (ey + ec - (e0 + ec)) with (ey - e0) by lia. nia.
Qed.

End Products.

Section Squares.
Variables prec emax : Z.
Hypothesis Hprec : 0 < prec.
Hypothesis Hemin : emin prec emax <= 0.

(** A non-negative result of rounding is at least zero and at most
    infinity. *)
Lemma round_between (m e : Z) :
  0 <= m ->
  SFleb (S754_zero false) (binary_round_aux prec emax false m e loc_Exact) = true /\
  SFleb (binary_round_aux prec emax false m e loc_Exact) (S754_infinity false) = true.
Proof.
  intros Hm.
  destruct (binary_round_aux_sign prec emax false m e loc_Exact Hm) as [Hn Hs].
  destruct (binary_round_aux prec emax false m e loc_Exact) as [s|s| |s m' e'];
    simpl in Hs; subst; try discriminate; split; reflexivity.
Qed.

(** Squaring is monotone on the non-negative floats. *)
Lemma SFsqr_mono (x y : spec_float) :
  valid_binary prec emax x = true -> valid_binary prec emax y = true ->
  SFleb (S754_zero false) x = true -> SFleb x y = true ->
  SFleb (SFmul prec emax x x) (SFmul prec emax y y) = true.
Proof.
  intros Vx Vy Hx Hxy.
  destruct x as [sx|[]| |[] mx ex]; try discriminate Hx;
    destruct y as [sy|[]| |[] my ey]; try discriminate Hxy;
    cbn [SFmul xorb]; rewrite ?xorb_nilpotent; try reflexivity;
    try (apply round_between; lia).
  cbn [valid_binary] in Vx, Vy. unfold bounded in Vx, Vy.
  apply andb_true_iff in Vx, Vy. destruct Vx as [Cx _], Vy as [Cy _].
  pose proof (SFleb_value prec emax Hprec mx my ex ey Cx Cy Hxy) as Hv.
  set (e0 := Z.min ex ey) in *.
  apply (binary_round_aux_mono prec emax Hprec _ _ _ _ (e0 + e0)); try lia.
  - apply product_shift; assumption.
  - apply product_shift; assumption.
  - rewrite !Pos2Z.inj_mul.
    replace (ex + ex - (e0 + e0)) with ((ex - e0) + (ex - e0)) by lia.
    replace (ey + ey - (e0 + e0)) with ((ey - e0) + (ey - e0)) by lia.
    rewrite !Z.pow_add_r by lia.
    assert (0 < 2 ^ (ex - e0)) by (apply Z.pow_pos_nonneg; lia).
    assert (0 < 2 ^ (ey - e0)) by (apply Z.pow_pos_nonneg; lia).
    nia.
Qed.
End Squares.

(* ================================================================== *)
(** ** Containment: a wider hole *)

(** X15.  Containment is monotone in the radius: a point inside a hole is
    inside the hole of the same base, axis and height with any greater
    radius, since squaring, with its rounding, is monotone on the
    non-negative floats. *)
Theorem is_inside_wider (EPSILON : F64.t) (h : DrainHole) (r : F32.t) (pt : Vec3f) :
  F32.valid (radius h) = true -> F32.valid r = true ->
  (F32.zero <=? radius h)%f32 = true ->
  (radius h <=? r)%f32 = true ->
  is_inside EPSILON h pt = true ->
  is_inside EPSILON (with_radius h r) pt = true.
Proof.
  intros V1 V2 H0 Hle. rewrite !is_inside_tests.
  change (axial_distance (with_radius h r) pt) with (axial_distance h pt).
  change (radial_sqr_distance (with_radius h r) pt) with (radial_sqr_distance h pt).
  cbn [with_radius radius height].
  rewrite !andb_true_iff. intros [[H1 H2] H3]. repeat split; try assumption.
  apply (SFltb_leb_trans _ _ _ H3).
  apply (SFsqr_mono F32.prec F32.emax eq_refl); try assumption. discriminate.
Qed.

Lemma is_inside_wider_witness :
  is_inside EPSILON_1e4 (with_radius hole_unit_z (f32 3)) (vec3 0 0 1) = true.
Proof.
  apply (is_inside_wider EPSILON_1e4 hole_unit_z (f32 3) (vec3 0 0 1)); reflexivity.
Defined.

(* ================================================================== *)
(** ** The voxel scale grows with the quality *)

Lemma SFmul_comm (prec emax : Z) (x y : spec_float) :
  SFmul prec emax x y = SFmul prec emax y x.
Proof.
  destruct x as [sx|sx| |sx mx ex], y as [sy|sy| |sy my ey]; cbn [SFmul];
    rewrite ?(xorb_comm sx sy), ?(Pos.mul_comm mx my), ?(Z.add_comm ex ey); reflexivity.
Qed.

Lemma SFleb_refl (x : spec_float) : is_nan x = false -> SFleb x x = true.
Proof.
  intros H. pose proof (SFeqb_refl x) as E. rewrite H in E.
  unfold SFeqb in E. unfold SFleb. destruct (SFcompare x x) as [[]|]; try discriminate E.
  reflexivity.
Qed.

(** The product of a positive finite constant by a non-negative number is
    a well-formed non-negative number. *)
Lemma scaled_valid (prec emax : Z) (mc : positive) (ec : Z) (q : spec_float) :
  0 < prec -> emin prec emax <= 0 ->
  valid_binary prec emax (S754_finite false mc ec) = true ->
  valid_binary prec emax q = true ->
  SFleb (S754_zero false) q = true ->
  valid_binary prec emax (SFmul prec emax (S754_finite false mc ec) q) = true /\
  SFleb (S754_zero false) (SFmul prec emax (S754_finite false mc ec) q) = true.
Proof.
  intros Hprec Hemin Vc Vq Hq.
  destruct q as [sq|[]| |[] mq eq]; try discriminate Hq; cbn [SFmul xorb].
  - destruct sq; split; reflexivity.
  - split; reflexivity.
  - cbn [valid_binary] in Vc, Vq. unfold bounded in Vc, Vq.
    apply andb_true_iff in Vc, Vq. destruct Vc as [Cc _], Vq as [Cq _].
    split.
    + apply binary_round_aux_valid; [assumption | lia |].
      apply product_shift; assumption.
    + apply round_between. lia.
Qed.

(** Adding one is monotone on the non-negative [double]s. *)
Lemma one_plus_mono (y y' : spec_float) :
  F64.valid y = true -> F64.valid y' = true ->
  SFleb (S754_zero false) y = true -> SFleb y y' = true ->
  SFleb (F64.add F64.one y) (F64.add F64.one y') = true.
Proof.
  intros Vy Vy' H0 Hle.
  destruct f64_consts as (E1 & _ & _). rewrite E1.
  unfold F64.add, F64.prec, F64.emax.
  destruct y as [sy|[]| |[] my ey]; try discriminate H0;
    destruct y' as [sy'|[]| |[] my' ey']; try discriminate Hle;
    try reflexivity.
  - (* 1 + 0 <= 1 + y' *)
    cbn [SFadd cond_Zopp].
    set (ez := Z.min (-52) ey').
    destruct (shl_align_spec 4503599627370496%positive (-52) ez) as [Ha Hae].
    destruct (shl_align_spec my' ey' ez) as [Hb Hbe].
    set (a := fst (shl_align 4503599627370496%positive (-52) ez)) in *.
    set (b := fst (shl_align my' ey' ez)) in *.
    rewrite Hae in Ha. replace (Z.min (-52) ez) with ez in Ha by (unfold ez; lia).
    change (Z.pos a + Z.pos b) with (Z.pos (a + b)). cbn [binary_normalize].
    destruct (binary_round_ge 53 1024 eq_refl false (a + b) ez 4503599627370496 (-52))
      as [Er|(M' & E' & Er & Hr)].
    + split; zcmp.
    + unfold emin. lia.
    + unfold ez. lia.
    + rewrite Pos2Z.inj_add. lia.
    + rewrite Er. reflexivity.
    + rewrite Er. apply SFleb_finite. lia.
  - (* 1 + y <= infinity *)
    cbn [SFadd cond_Zopp].
    change (Z.pos (fst (shl_align 4503599627370496 (-52) (Z.min (-52) ey)))
            + Z.pos (fst (shl_align my ey (Z.min (-52) ey))))
      with (Z.pos (fst (shl_align 4503599627370496 (-52) (Z.min (-52) ey))
                   + fst (shl_align my ey (Z.min (-52) ey)))).
    cbn [binary_normalize].
    destruct (binary_round_sign 53 1024 false
                (fst (shl_align 4503599627370496 (-52) (Z.min (-52) ey))
                 + fst (shl_align my ey (Z.min (-52) ey))) (Z.min (-52) ey)) as [Hn Hs].
    destruct (binary_round 53 1024 false _ _) as [s|s| |s m e]; simpl in Hs; subst;
      try discriminate; reflexivity.
  - (* both finite *)
    cbn [valid_binary] in Vy, Vy'. unfold F64.valid, valid_binary, bounded in Vy, Vy'.
    apply andb_true_iff in Vy, Vy'. destruct Vy as [Cy _], Vy' as [Cy' _].
    pose proof (SFleb_value 53 1024 eq_refl my my' ey ey' Cy Cy' Hle) as Hv.
    cbn [SFadd cond_Zopp].
    set (ez := Z.min (-52) ey). set (ez' := Z.min (-52) ey').
    destruct (shl_align_spec 4503599627370496%positive (-52) ez) as [Ha Hae].
    destruct (shl_align_spec my ey ez) as [Hb Hbe].
    destruct (shl_align_spec 4503599627370496%positive (-52) ez') as [Ha' Hae'].
    destruct (shl_align_spec my' ey' ez') as [Hb' Hbe'].
    set (a := fst (shl_align 4503599627370496%positive (-52) ez)) in *.
    set (b := fst (shl_align my ey ez)) in *.
    set (a' := fst (shl_align 4503599627370496%positive (-52) ez')) in *.
    set (b' := fst (shl_align my' ey' ez')) in *.
    rewrite Hae in Ha. rewrite Hbe in Hb. rewrite Hae' in Ha'. rewrite Hbe' in Hb'.
    replace (Z.min (-52) ez) with ez in Ha by (unfold ez; lia).
    replace (Z.min ey ez) with ez in Hb by (unfold ez; lia).
    replace (Z.min (-52) ez') with ez' in Ha' by (unfold ez'; lia).
    replace (Z.min ey' ez') with ez' in Hb' by (unfold ez'; lia).
    change (Z.pos a + Z.pos b) with (Z.pos (a + b)).
    change (Z.pos a' + Z.pos b') with (Z.pos (a' + b')).
    cbn [binary_normalize].
    set (e0 := Z.min ez ez').
    apply (binary_round_mono 53 1024 eq_refl (a + b) (a' + b') ez ez' e0);
      try (unfold e0; lia).
    rewrite !Pos2Z.inj_add, Ha, Hb, Ha', Hb', !Z.mul_add_distr_r.
    rewrite <- !Z.mul_assoc, <- !Z.pow_add_r by (unfold e0, ez, ez'; lia).
    replace (-52 - ez + (ez - e0)) with (-52 - e0) by lia.
    replace (-52 - ez' + (ez' - e0)) with (-52 - e0) by lia.
    apply Z.add_le_mono_l.
    set (em := Z.min ey ey') in *.
    replace (ey - ez + (ez - e0)) with ((ey - em) + (em - e0)) by lia.
    replace (ey' - ez' + (ez' - e0)) with ((ey' - em) + (em - e0)) by lia.
    rewrite !Z.pow_add_r, !Z.mul_assoc by (unfold e0, ez, ez', em; lia).
    apply Z.mul_le_mono_nonneg_r; [|exact Hv].
    apply Z.pow_nonneg. lia.
Qed.

(** X16.  The voxel scale [1 + 7 * quality] is monotone in the quality,
    roundings included: a higher quality never gives a smaller scale. *)
Theorem voxel_scale_monotone (hc hc' : HollowingConfig) :
  F64.valid (quality hc) = true -> F64.valid (quality hc') = true ->
  (F64.zero <=? quality hc)%f64 = true ->
  (quality hc <=? quality hc')%f64 = true ->
  (voxel_scale_of hc <=? voxel_scale_of hc')%f64 = true.
Proof.
  intros V V' H0 Hle. unfold voxel_scale_of, F64.leb.
  set (q := quality hc) in *. set (q' := quality hc') in *.
  assert (H0' : SFleb (S754_zero false) q' = true) by (apply (SFleb_trans _ _ _ H0 Hle)).
  assert (Hemin : emin 53 1024 <= 0) by discriminate.
  destruct f64_consts as (_ & E7 & _). rewrite E7.
  assert (Vc : valid_binary 53 1024 (S754_finite false 7881299347898368 (-50)) = true)
    by reflexivity.
  destruct (scaled_valid 53 1024 7881299347898368 (-50) q eq_refl Hemin Vc V H0) as [Vy Hy].
  destruct (scaled_valid 53 1024 7881299347898368 (-50) q' eq_refl Hemin Vc V' H0')
    as [Vy' Hy'].
  apply one_plus_mono; try assumption.
  unfold F64.mul, F64.prec, F64.emax in *.
  rewrite (SFmul_comm 53 1024 _ q), (SFmul_comm 53 1024 _ q') in *.
  apply (SFmul_mono 53 1024 eq_refl Hemin); try assumption; try reflexivity.
  - apply (SFleb_not_nan _ _ Hy).
  - apply (SFleb_not_nan _ _ Hy').
Qed.

Lemma voxel_scale_monotone_witness :
  (voxel_scale_of (Toy.config 0 2 1) <=? voxel_scale_of (Toy.config 1 2 1))%f64 = true.
Proof.
  apply (voxel_scale_monotone (Toy.config 0 2 1) (Toy.config 1 2 1)); reflexivity.
Defined.

(* ================================================================== *)
(** ** The bands handed to the volumetric engine *)

Section MoreOrder.
Variables prec emax : Z.
Hypothesis Hprec : 0 < prec.
Hypothesis Hemin : emin prec emax <= 0.

(** Rounding a well-formed float gives it back. *)
Lemma binary_round_canonical (s : bool) (m : positive) (e : Z) :
  bounded prec emax m e = true ->
  binary_round prec emax s m e = S754_finite s m e.
Proof.
  intros Hb. unfold bounded in Hb. apply andb_true_iff in Hb. destruct Hb as [Hc Hbe].
  apply Z.leb_le in Hbe.
  pose proof (canonical_digits prec emax m e Hc) as (He & Hm & _).
  unfold canonical_mantissa in Hc. apply Z.eqb_eq in Hc.
  unfold binary_round. rewrite Hc. unfold shl_align. rewrite Z.sub_diag.
  destruct (binary_round_aux_rne prec emax Hprec s (Z.pos m) e) as (_ & _ & ->).
  - lia.
  - cbn [Zdigits2]. rewrite Hc. lia.
  - cbn [Zdigits2]. rewrite Hc, Z.sub_diag, rne_exact by (rewrite ?Z.pow_0_r, ?Z.mod_1_r; lia).
    rewrite Z.pow_0_r, Z.div_1_r. unfold rounded. cbn [Z.eqb].
    destruct (Z.ltb_spec (Z.pos m) (2 ^ prec)); [|lia].
    destruct (Z.leb_spec e (emax - prec)); [|lia]. reflexivity.
Qed.

(** The sum of two well-formed floats is well formed. *)
Lemma SFadd_valid (x y : spec_float) :
  valid_binary prec emax x = true -> valid_binary prec emax y = true ->
  valid_binary prec emax (SFadd prec emax x y) = true.
Proof.
  intros Vx Vy.
  destruct x as [[]|[]| |sx mx ex], y as [[]|[]| |sy my ey]; try reflexivity; try assumption.
  cbn [SFadd]. unfold binary_normalize.
  destruct (cond_Zopp sx _ + cond_Zopp sy _); try reflexivity; apply binary_round_valid;
    assumption.
Qed.

(** Adding a non-negative number does not make a non-negative number
    smaller. *)
Lemma SFadd_ge_l (x y : spec_float) :
  valid_binary prec emax x = true ->
  SFleb (S754_zero false) x = true -> SFleb (S754_zero false) y = true ->
  SFleb x (SFadd prec emax x y) = true /\
  SFleb (S754_zero false) (SFadd prec emax x y) = true.
Proof.
  intros Vx Hx Hy.
  destruct x as [sx|[]| |[] mx ex]; try discriminate Hx;
    destruct y as [sy|[]| |[] my ey]; try discriminate Hy;
    try (split; reflexivity);
    try (destruct sx, sy; split; reflexivity);
    try (destruct sx; split; reflexivity);
    try (cbn [SFadd]; split; [apply SFleb_refl; reflexivity | reflexivity]).
  cbn [SFadd cond_Zopp].
  set (ez := Z.min ex ey).
  destruct (shl_align_spec mx ex ez) as [Ha Hae].
  destruct (shl_align_spec my ey ez) as [Hb Hbe].
  set (a := fst (shl_align mx ex ez)) in *.
  set (b := fst (shl_align my ey ez)) in *.
  rewrite Hae in Ha. replace (Z.min ex ez) with ez in Ha by (unfold ez; lia).
  change (Z.pos a + Z.pos b) with (Z.pos (a + b)). cbn [binary_normalize].
  split.
  - cbn [valid_binary] in Vx.
    rewrite <- (binary_round_canonical false mx ex Vx) at 1.
    apply (binary_round_mono prec emax Hprec mx (a + b) ex ez ez); try (unfold ez; lia).
    rewrite Z.sub_diag, Z.pow_0_r, Pos2Z.inj_add, Ha. lia.
  - destruct (binary_round_sign prec emax false (a + b) ez) as [Hn Hs].
    destruct (binary_round prec emax false (a + b) ez) as [s|s| |s m e]; simpl in Hs; subst;
      try discriminate; reflexivity.
Qed.

End MoreOrder.

(** Narrowing (or widening) a non-negative number to another format is
    monotone, and gives a well-formed non-negative number. *)
Lemma SFconv_mono (prec emax prec' emax' : Z) (x y : spec_float) :
  0 < prec -> 0 < prec' ->
  valid_binary prec emax x = true -> valid_binary prec emax y = true ->
  SFleb (S754_zero false) x = true -> SFleb x y = true ->
  SFleb (SFconv prec' emax' x) (SFconv prec' emax' y) = true /\
  SFleb (S754_zero false) (SFconv prec' emax' x) = true /\
  valid_binary prec' emax' (SFconv prec' emax' x) = true.
Proof.
  intros Hp Hp' Vx Vy Hx Hxy.
  assert (Hsign : forall m e,
            SFleb (S754_zero false) (binary_round prec' emax' false m e) = true /\
            SFleb (binary_round prec' emax' false m e) (S754_infinity false) = true).
  { intros m e. destruct (binary_round_sign prec' emax' false m e) as [Hn Hs].
    destruct (binary_round prec' emax' false m e) as [s|s| |s m' e']; simpl in Hs; subst;
      try discriminate; split; reflexivity. }
  destruct x as [sx|[]| |[] mx ex]; try discriminate Hx;
    destruct y as [sy|[]| |[] my ey]; try discriminate Hxy; cbn [SFconv];
    repeat split; try reflexivity; try (destruct sx; reflexivity);
    try apply Hsign; try apply binary_round_valid; try assumption.
  cbn [valid_binary] in Vx, Vy. unfold bounded in Vx, Vy.
  apply andb_true_iff in Vx, Vy. destruct Vx as [Cx _], Vy as [Cy _].
  pose proof (SFleb_value prec emax Hp mx my ex ey Cx Cy Hxy) as Hv.
  apply (binary_round_mono prec' emax' Hp' mx my ex ey (Z.min ex ey)); try lia.
Qed.

(** X17.  For a quality between 0 and 1 and a wall thickness and a closing
    distance that are not negative, the two band widths handed to
    [mesh_to_grid] are in order: the exterior band [0.1 * offset] is at
    least zero and at most the interior band [1.1 * (offset + D)],
    roundings and the narrowing to [float] included. *)
Theorem bands_ordered (hc : HollowingConfig) :
  let vs := voxel_scale_of hc in
  let offset := offset_of vs (min_thickness hc) in
  let D := D_of vs (closing_distance hc) in
  F64.valid (quality hc) = true ->
  (F64.zero <=? quality hc)%f64 = true -> (quality hc <=? F64.one)%f64 = true ->
  F64.valid (min_thickness hc) = true -> (F64.zero <=? min_thickness hc)%f64 = true ->
  F64.valid (closing_distance hc) = true -> (F64.zero <=? closing_distance hc)%f64 = true ->
  (F32.zero <=? out_range_of offset)%f32 = true /\
  (out_range_of offset <=? in_range_of offset D)%f32 = true.
Proof.
  intros vs offset D Vq Hq0 Hq1 Vt Ht Vc Hc.
  assert (He64 : emin 53 1024 <= 0) by discriminate.
  assert (He32 : emin 24 128 <= 0) by discriminate.
  (* the scale is a positive finite number *)
  destruct (voxel_scale_bounds (quality hc) Vq Hq0 Hq1) as [Hlo Hhi].
  assert (Vvs : valid_binary 53 1024 vs = true).
  { unfold vs, voxel_scale_of, F64.add, F64.mul, F64.prec, F64.emax.
    apply SFadd_valid; [exact eq_refl | reflexivity |].
    destruct f64_consts as (_ & E7 & _). rewrite E7.
    apply (scaled_valid 53 1024 _ _ (quality hc) eq_refl He64); [reflexivity | exact Vq | exact Hq0]. }
  fold (voxel_scale_of hc) in Hlo, Hhi. fold vs in Hlo, Hhi.
  unfold offset, D, offset_of, D_of, out_range_of, in_range_of.
  unfold F32.leb, F64.leb, F32.mul, F64.mul, F64.add, F64.to_float,
    F32.prec, F32.emax, F64.prec, F64.emax in *.
  clearbody vs.
  destruct vs as [sv|[]| |[] mv ev]; try discriminate Hlo; try discriminate Hhi.
  (* offset, D and their sum *)
  destruct (scaled_valid 53 1024 mv ev (min_thickness hc) eq_refl He64 Vvs Vt Ht) as [Vo Ho].
  destruct (scaled_valid 53 1024 mv ev (closing_distance hc) eq_refl He64 Vvs Vc Hc) as [VD HD].
  set (o := SFmul 53 1024 (S754_finite false mv ev) (min_thickness hc)) in *.
  set (d := SFmul 53 1024 (S754_finite false mv ev) (closing_distance hc)) in *.
  destruct (SFadd_ge_l 53 1024 eq_refl o d Vo Ho HD) as [Hos Hs].
  pose proof (SFadd_valid 53 1024 eq_refl o d Vo VD) as Vs.
  set (s := SFadd 53 1024 o d) in *.
  (* narrowed to float *)
  destruct (SFconv_mono 53 1024 24 128 o s eq_refl eq_refl Vo Vs Ho Hos) as (Hab & Ha & Va).
  assert (Hss : SFleb s s = true) by (apply SFleb_refl, (SFleb_not_nan _ _ Hs)).
  destruct (SFconv_mono 53 1024 24 128 s s eq_refl eq_refl Vs Vs Hs Hss) as (_ & Hb & Vb).
  set (a := SFconv 24 128 o) in *. set (b := SFconv 24 128 s) in *.
  (* the two products *)
  unfold f32_0_1, f32_1_1.
  destruct (scaled_valid 24 128 13421773 (-27) a eq_refl He32 eq_refl Va Ha) as [_ P1].
  destruct (scaled_valid 24 128 9227469 (-23) a eq_refl He32 eq_refl Va Ha) as [_ P2].
  destruct (scaled_valid 24 128 9227469 (-23) b eq_refl He32 eq_refl Vb Hb) as [_ P3].
  split; [exact P1|].
  apply SFleb_trans with (SFmul 24 128 (S754_finite false 9227469 (-23)) a).
  - apply (SFmul_mono 24 128 eq_refl He32); try reflexivity; try assumption.
    + apply (SFleb_not_nan _ _ P1).
    + apply (SFleb_not_nan _ _ P2).
  - rewrite (SFmul_comm 24 128 _ a), (SFmul_comm 24 128 _ b) in *.
    apply (SFmul_mono 24 128 eq_refl He32); try reflexivity; try assumption.
    + apply (SFleb_not_nan _ _ P2).
    + apply (SFleb_not_nan _ _ P3).
Qed.

Lemma bands_ordered_witness :
  let hc := Toy.config 1 2 1 in
  let offset := offset_of (voxel_scale_of hc) (min_thickness hc) in
  let D := D_of (voxel_scale_of hc) (closing_distance hc) in
  (F32.zero <=? out_range_of offset)%f32 = true /\
  (out_range_of offset <=? in_range_of offset D)%f32 = true.
Proof.
  apply (bands_ordered (Toy.config 1 2 1)); reflexivity.
Defined.

(* ================================================================== *)
(** ** Containment: a hole lower than the tolerance *)

Section Validity.
Variables prec emax : Z.
Hypothesis Hprec : 0 < prec.
Hypothesis Hemin : emin prec emax <= 0.

Lemma SFmul_valid (x y : spec_float) :
  valid_binary prec emax x = true -> valid_binary prec emax y = true ->
  valid_binary prec emax (SFmul prec emax x y) = true.
Proof.
  intros Vx Vy.
  destruct x as [sx|sx| |sx mx ex], y as [sy|sy| |sy my ey]; try reflexivity.
  cbn [SFmul]. cbn [valid_binary] in Vx, Vy. unfold bounded in Vx, Vy.
  apply andb_true_iff in Vx, Vy. destruct Vx as [Cx _], Vy as [Cy _].
  apply binary_round_aux_valid; [assumption | lia |].
  apply product_shift; assumption.
Qed.

Lemma SFopp_valid (x : spec_float) :
  valid_binary prec emax x = true -> valid_binary prec emax (SFopp x) = true.
Proof. destruct x; auto. Qed.
End Validity.

Lemma valid_vec_cases (a : Vec3f) :
  valid_vec a = true ->
  F32.valid (vx a) = true /\ F32.valid (vy a) = true /\ F32.valid (vz a) = true.
Proof. unfold valid_vec. rewrite !andb_true_iff. tauto. Qed.

Lemma dot_valid (a b : Vec3f) :
  valid_vec a = true -> valid_vec b = true -> F32.valid (Vec3.dot a b) = true.
Proof.
  intros Ha Hb.
  destruct (valid_vec_cases a Ha) as (A1 & A2 & A3).
  destruct (valid_vec_cases b Hb) as (B1 & B2 & B3).
  assert (He : emin 24 128 <= 0) by discriminate.
  unfold Vec3.dot, F32.valid, F32.add, F32.mul, F32.prec, F32.emax in *.
  repeat apply SFadd_valid; try exact eq_refl; apply SFmul_valid; try exact eq_refl;
    assumption.
Qed.

Lemma axial_distance_valid (h : DrainHole) (pt : Vec3f) :
  valid_vec (normal h) = true -> valid_vec (pos h) = true -> valid_vec pt = true ->
  F32.valid (axial_distance h pt) = true.
Proof.
  intros Hn Hp Hpt. unfold axial_distance, Plane.signedDistance, Plane.make.
  cbn [pl_normal pl_offset].
  pose proof (dot_valid (normal h) pt Hn Hpt) as V1.
  pose proof (dot_valid (normal h) (pos h) Hn Hp) as V2.
  unfold F32.valid, F32.add, F32.opp, F32.prec, F32.emax in *.
  apply SFadd_valid; [exact eq_refl | assumption |]. apply SFopp_valid, V2.
Qed.

(** A number at or above a positive one is not negative. *)
Lemma above_positive (prec emax : Z) (e x : spec_float) :
  SFltb (S754_zero false) e = true ->
  SFltb (SFconv prec emax x) e = false -> is_nan x = false ->
  SFleb (S754_zero false) x = true.
Proof.
  intros He Hx Hn.
  destruct (SFltb x (S754_zero false)) eqn:E.
  - destruct (SFconv_negative prec emax x E) as [N S].
    rewrite (SFltb_signed_pos _ _ N S He) in Hx. discriminate.
  - rewrite (SFleb_negb_ltb x (S754_zero false) Hn eq_refl), E. reflexivity.
Qed.

(** X18.  A hole lower than the tolerance is empty: when the height is
    below a positive [EPSILON], no point whose axial distance is a number
    is inside, because a distance of at most the height is below the
    tolerance.  The coordinates are well-formed floats. *)
Theorem is_inside_low_hole (EPSILON : F64.t) (h : DrainHole) (pt : Vec3f) :
  valid_vec (normal h) = true -> valid_vec (pos h) = true -> valid_vec pt = true ->
  F32.valid (height h) = true ->
  (F64.zero <? EPSILON)%f64 = true ->
  (F64.of_float (height h) <? EPSILON)%f64 = true ->
  is_nan (axial_distance h pt) = false ->
  is_inside EPSILON h pt = false.
Proof.
  intros Vn Vp Vpt Vh He Hlow Nd.
  pose proof (axial_distance_valid h pt Vn Vp Vpt) as Vd.
  rewrite is_inside_tests.
  set (d := axial_distance h pt) in *.
  destruct (F64.of_float d <? EPSILON)%f64 eqn:T1; [reflexivity|].
  destruct (d >? height h)%f32 eqn:T2; [reflexivity|].
  exfalso.
  unfold F64.ltb, F64.of_float, F32.gtb, F32.valid, F64.prec, F64.emax, F32.prec, F32.emax in *.
  destruct (SFltb_not_nan _ _ Hlow) as [Nh' Ne].
  assert (Nh : is_nan (height h) = false).
  { destruct (height h); try reflexivity. discriminate Nh'. }
  pose proof (above_positive 53 1024 EPSILON d He T1 Nd) as Hd0.
  assert (Hdh : SFleb d (height h) = true).
  { rewrite (SFleb_negb_ltb (height h) d Nh Nd), T2. reflexivity. }
  destruct (SFconv_mono 24 128 53 1024 d (height h) eq_refl eq_refl Vd Vh Hd0 Hdh)
    as (Hconv & Hd' & _).
  assert (Hed : SFleb EPSILON (SFconv 53 1024 d) = true).
  { rewrite (SFleb_negb_ltb (SFconv 53 1024 d) EPSILON (proj2 (SFleb_not_nan _ _ Hd')) Ne), T1.
    reflexivity. }
  pose proof (SFleb_trans _ _ _ Hed Hconv) as Heh.
  rewrite (SFleb_negb_ltb (SFconv 53 1024 (height h)) EPSILON Nh' Ne), Hlow in Heh.
  discriminate.
Qed.

Lemma is_inside_low_hole_witness :
  (height thin_hole >? F32.zero)%f32 = true /\
  is_inside EPSILON_1e4 thin_hole (mkVec3f F32.zero F32.zero (f32_pow2 (-14))) = false.
Proof.
  split; [reflexivity|].
  apply (is_inside_low_hole EPSILON_1e4 thin_hole (mkVec3f F32.zero F32.zero (f32_pow2 (-14))));
    reflexivity.
Defined.

(* ================================================================== *)
(** ** Intersections: a hole without height *)

(** X19.  A hole whose height is zero or negative has no lateral wall: no
    wall candidate passes the test [0 < vert_dist < height], so
    [get_intersections] returns true only when the end-cap phase ran and
    both end caps accepted their candidate. *)
Theorem flat_hole_no_wall (is_approx : F32.t -> F32.t -> bool)
    (h : DrainHole) (s dir : Vec3f) :
  (height h <=? F32.zero)%f32 = true ->
  let ray := ray_of s dir in
  (forall base w i, wall_accepts h ray base w i = false) /\
  (fst (get_intersections is_approx h s dir) = true ->
   not_parallel_to_caps is_approx h ray = true /\
   cap_accepts h ray 1 = true /\ cap_accepts h ray 0 = true).
Proof.
  intros Hh ray.
  assert (Hw : forall base w i, wall_accepts h ray base w i = false).
  { intros base w i. unfold wall_accepts. cbv zeta.
    destruct (wall_vert_dist ray base w i >? F32.zero)%f32 eqn:A; [|reflexivity].
    destruct (wall_vert_dist ray base w i <? height h)%f32 eqn:B; [|reflexivity].
    exfalso. unfold F32.gtb, F32.ltb, F32.leb in *.
    pose proof (SFltb_leb_trans _ _ _ B Hh) as C.
    pose proof (SFltb_leb_trans _ _ _ A (SFltb_leb _ _ C)) as D.
    discriminate D. }
  split; [exact Hw|].
  unfold get_intersections, hits_found. fold ray.
  destruct (outside_bounding_sphere h ray); [discriminate|].
  unfold caps, wall, wall_iter, cap_iter.
  destruct (not_parallel_to_caps is_approx h ray).
  - destruct (cap_accepts h ray 1), (cap_accepts h ray 0); cbn [accept fst snd];
      destruct (wall_runs is_approx h ray _); cbn [fst snd Nat.eqb negb];
      rewrite ?Hw; cbn [fst snd Nat.eqb negb]; rewrite ?Hw; cbn [fst snd Nat.eqb negb];
      intros H; try discriminate H; auto.
  - destruct (wall_runs is_approx h ray _); cbn [fst snd Nat.eqb negb];
      rewrite ?Hw; cbn [fst snd Nat.eqb negb]; rewrite ?Hw; cbn [fst snd Nat.eqb negb];
      intros H; discriminate H.
Qed.

Lemma flat_hole_no_wall_witness :
  let s := vec3 0 0 (-5) in
  let dir := vec3 0 0 1 in
  fst (get_intersections is_approx_eps flat_hole s dir) = true /\
  not_parallel_to_caps is_approx_eps flat_hole (ray_of s dir) = true /\
  cap_accepts flat_hole (ray_of s dir) 1 = true /\
  cap_accepts flat_hole (ray_of s dir) 0 = true.
Proof.
  cbv zeta.
  destruct (flat_hole_no_wall is_approx_eps flat_hole (vec3 0 0 (-5)) (vec3 0 0 1) eq_refl)
    as [_ Hc].
  assert (E : fst (get_intersections is_approx_eps flat_hole (vec3 0 0 (-5)) (vec3 0 0 1)) = true)
    by (vm_compute; reflexivity).
  split; [exact E | exact (Hc E)].
Defined.

(* ================================================================== *)
(** ** The factor applied to the input mesh *)

(** The voxel scale of a well-formed, non-negative quality is a
    well-formed number. *)
Lemma voxel_scale_valid (hc : HollowingConfig) :
  F64.valid (quality hc) = true -> (F64.zero <=? quality hc)%f64 = true ->
  F64.valid (voxel_scale_of hc) = true.
Proof.
  intros Vq Hq0.
  assert (He64 : emin 53 1024 <= 0) by discriminate.
  unfold voxel_scale_of, F64.valid, F64.add, F64.mul, F64.prec, F64.emax.
  apply SFadd_valid; [exact eq_refl | reflexivity |].
  destruct f64_consts as (_ & E7 & _). rewrite E7.
  apply (scaled_valid 53 1024 _ _ (quality hc) eq_refl He64);
    [reflexivity | exact Vq | exact Hq0].
Qed.

(** X20.  For a quality between 0 and 1 the factor by which [_scale]
    enlarges the input [TriangleMesh], the voxel scale narrowed to
    [float], lies between 1 and 8: the narrowing keeps the bounds of the
    scale. *)
Theorem upscale_factor_bounds (TriangleMesh : Type)
    (TriangleMesh_scale : F32.t -> TriangleMesh -> TriangleMesh)
    (mesh : TriangleMesh) (hc : HollowingConfig) :
  F64.valid (quality hc) = true ->
  (F64.zero <=? quality hc)%f64 = true -> (quality hc <=? F64.one)%f64 = true ->
  let factor := F64.to_float (voxel_scale_of hc) in
  _scale TriangleMesh TriangleMesh_scale (voxel_scale_of hc) mesh
    = TriangleMesh_scale factor mesh /\
  (F32.one <=? factor)%f32 = true /\ (factor <=? f32 8)%f32 = true.
Proof.
  intros Vq Hq0 Hq1 factor. split; [reflexivity|]. unfold factor.
  destruct (voxel_scale_bounds (quality hc) Vq Hq0 Hq1) as [Hlo Hhi].
  pose proof (voxel_scale_valid hc Vq Hq0) as Vvs.
  fold (voxel_scale_of hc) in Hlo, Hhi.
  unfold F32.leb, F64.leb, F64.to_float, F64.valid, F64.prec, F64.emax, F32.prec, F32.emax in *.
  split.
  - destruct (SFconv_mono 53 1024 24 128 F64.one (voxel_scale_of hc) eq_refl eq_refl
                eq_refl Vvs eq_refl Hlo) as (H & _ & _).
    exact H.
  - assert (H0 : SFleb (S754_zero false) (voxel_scale_of hc) = true).
    { apply SFleb_trans with F64.one; [reflexivity | exact Hlo]. }
    destruct (SFconv_mono 53 1024 24 128 (voxel_scale_of hc) F64_eight eq_refl eq_refl
                Vvs eq_refl H0 Hhi) as (H & _ & _).
    exact H.
Qed.

Lemma upscale_factor_bounds_witness :
  let factor := F64.to_float (voxel_scale_of (Toy.config 1 2 1)) in
  _scale Toy.Mesh Toy.scale (voxel_scale_of (Toy.config 1 2 1)) Toy.triangle
    = Toy.scale factor Toy.triangle /\
  (F32.one <=? factor)%f32 = true /\ (factor <=? f32 8)%f32 = true.
Proof.
  apply (upscale_factor_bounds Toy.Mesh Toy.scale Toy.triangle (Toy.config 1 2 1));
    reflexivity.
Defined.

(* ================================================================== *)
(** * Containment in the hole's own frame, directions rescaled by a power of two *)

(* ================================================================== *)
(** ** Rounding in the normal range *)

Section Shift.
Variables prec emax : Z.
Hypothesis Hprec : 0 < prec.

(** The last step of a rounding: renormalization after a carry, and the
    test for overflow. *)
Lemma round_finish (s : bool) (M1 e1 : Z) :
  0 <= M1 <= 2 ^ prec -> emin prec emax <= e1 ->
  (let '(mrs, e2) := shr_fexp prec emax M1 e1 loc_Exact in
   match shr_m mrs with
   | 0 => S754_zero s
   | Z.pos m => if e2 <=? emax - prec then S754_finite s m e2 else S754_infinity s
   | Z.neg _ => S754_nan
   end) = rounded prec emax s M1 e1.
Proof.
  intros HM He1. unfold shr_fexp, rounded.
  destruct (Z.eqb_spec M1 0) as [HZ|NZ].
  - rewrite HZ. cbn [Zdigits2]. rewrite shr_none.
    + reflexivity.
    + unfold fexp, emin in *. lia.
  - assert (HM1 : 0 < M1) by lia.
    destruct (Z.ltb_spec M1 (2 ^ prec)) as [Hlt|Hge].
    + rewrite shr_none.
      * cbn [shr_m shr_record_of_loc fst]. destruct M1; try lia. reflexivity.
      * pose proof (Zdigits2_le M1 prec HM1 (Z.lt_le_incl _ _ Hprec) Hlt).
        unfold fexp, emin in *. lia.
    + assert (HM2 : M1 = 2 ^ prec) by lia.
      assert (Hd : Zdigits2 M1 = prec + 1).
      { apply Z.le_antisymm.
        - apply Zdigits2_le; try lia. rewrite Z.add_1_r, Z.pow_succ_r by lia. lia.
        - pose proof (Zdigits2_gt M1 prec HM1 (Z.lt_le_incl _ _ Hprec) Hge). lia. }
      rewrite Hd.
      replace (fexp prec emax (prec + 1 + e1) - e1) with 1
        by (unfold fexp, emin in *; lia).
      destruct (shr_exact M1 e1 1 (Z.lt_le_incl _ _ HM1)) as (F1 & F2 & _); [lia|].
      destruct (shr (shr_record_of_loc M1 loc_Exact) e1 1) as [mrs'' e''].
      cbn [fst snd] in F1, F2. subst e''. rewrite F1.
      replace (M1 / 2 ^ 1) with (2 ^ (prec - 1)).
      * assert (0 < 2 ^ (prec - 1)) by (apply Z.pow_pos_nonneg; lia).
        destruct (2 ^ (prec - 1)); try lia. reflexivity.
      * rewrite HM2. replace prec with (Z.succ (prec - 1)) at 2 by lia.
        rewrite Z.pow_succ_r by lia. rewrite Z.pow_1_r.
        rewrite Z.mul_comm, Z.div_mul by lia. reflexivity.
Qed.

(** A shift to the right, whatever the digits already lost: the mantissa
    is the quotient, and what is remembered of the lost digits does not
    depend on the exponent. *)
Lemma shr_loc (m e n : Z) (l : location) :
  0 <= m -> 0 <= n ->
  shr (shr_record_of_loc m l) e n = (fst (shr (shr_record_of_loc m l) 0 n), e + n) /\
  shr_m (fst (shr (shr_record_of_loc m l) 0 n)) = m / 2 ^ n.
Proof.
  intros Hm Hn.
  assert (E0 : shr_m (shr_record_of_loc m l) = m) by (destruct l as [|[]]; reflexivity).
  destruct n as [|p|p]; try lia; cbn [shr fst snd].
  - rewrite Z.add_0_r, Z.div_1_r. auto.
  - split; [reflexivity|]. rewrite iter_pos_nat.
    destruct (iter_shr_1_m (Pos.to_nat p) (shr_record_of_loc m l)) as [_ E]; [lia|].
    rewrite E, E0, positive_nat_Z. reflexivity.
Qed.

(** The rounding of [m * 2^e] when digits were already lost before. *)
Lemma binary_round_aux_loc (s : bool) (m e : Z) (l : location) :
  0 < m ->
  let e1 := fexp prec emax (Zdigits2 m + e) in
  let n := e1 - e in
  0 <= n ->
  binary_round_aux prec emax s m e l
  = rounded prec emax s
      (round_nearest_even (m / 2 ^ n)
         (loc_of_shr_record (fst (shr (shr_record_of_loc m l) 0 n)))) e1.
Proof.
  intros Hm e1 n Hn.
  assert (Hpn : 0 < 2 ^ n) by (apply Z.pow_pos_nonneg; lia).
  assert (Hq0 : 0 <= m / 2 ^ n) by (apply Z.div_pos; lia).
  assert (Hq : m / 2 ^ n < 2 ^ prec).
  { apply Z.div_lt_upper_bound; [lia|].
    destruct (Zdigits2_bounds m Hm) as [_ Hhi].
    rewrite <- Z.pow_add_r by lia.
    eapply Z.lt_le_trans; [exact Hhi|]. apply Z.pow_le_mono_r; [lia|].
    pose proof (fexp_ge prec emax (Zdigits2 m + e)). unfold n, e1. lia. }
  unfold binary_round_aux. unfold shr_fexp at 1. fold e1. fold n.
  destruct (shr_loc m e n l (Z.lt_le_incl _ _ Hm) Hn) as [-> Em].
  rewrite Em. replace (e + n) with e1 by (unfold n; lia).
  apply round_finish.
  - pose proof (round_nearest_even_range (m / 2 ^ n)
                  (loc_of_shr_record (fst (shr (shr_record_of_loc m l) 0 n)))) as [H _].
    lia.
  - apply fexp_ge_emin.
Qed.

(** In the normal range a rounding gives a full mantissa, and the same
    mantissa at every other exponent of the range. *)
Lemma binary_round_aux_normal (s : bool) (m e : Z) (l : location) :
  0 < m -> prec <= Zdigits2 m ->
  emin prec emax + prec <= Zdigits2 m + e -> Zdigits2 m + e < emax ->
  exists M E,
    Z.pos (digits2_pos M) = prec /\
    Zdigits2 m + e <= prec + E <= Zdigits2 m + e + 1 /\
    binary_round_aux prec emax s m e l = S754_finite s M E /\
    forall k, emin prec emax + prec <= Zdigits2 m + e + k -> Zdigits2 m + e + k < emax ->
      binary_round_aux prec emax s m (e + k) l = S754_finite s M (E + k).
Proof.
  intros Hm Hd Hlo Hhi.
  set (d := Zdigits2 m) in *.
  set (n := d - prec).
  set (M1 := round_nearest_even (m / 2 ^ n)
               (loc_of_shr_record (fst (shr (shr_record_of_loc m l) 0 n)))).
  assert (Hpn : 0 < 2 ^ n) by (apply Z.pow_pos_nonneg; unfold n; lia).
  assert (Hpp : 0 < 2 ^ (prec - 1)) by (apply Z.pow_pos_nonneg; lia).
  assert (Hp2 : 2 ^ prec = 2 * 2 ^ (prec - 1)).
  { replace prec with (Z.succ (prec - 1)) at 1 by lia. apply Z.pow_succ_r. lia. }
  destruct (Zdigits2_bounds m Hm) as [Bl Bh]. fold d in Bl, Bh.
  assert (Hq : 2 ^ (prec - 1) <= m / 2 ^ n < 2 ^ prec).
  { split.
    - apply Z.div_le_lower_bound; [lia|]. rewrite <- Z.pow_add_r by (unfold n; lia).
      replace (n + (prec - 1)) with (d - 1) by (unfold n; lia). exact Bl.
    - apply Z.div_lt_upper_bound; [lia|]. rewrite <- Z.pow_add_r by (unfold n; lia).
      replace (n + prec) with d by (unfold n; lia). exact Bh. }
  assert (HM1 : 2 ^ (prec - 1) <= M1 <= 2 ^ prec).
  { pose proof (round_nearest_even_range (m / 2 ^ n)
                  (loc_of_shr_record (fst (shr (shr_record_of_loc m l) 0 n)))) as [H _].
    fold M1 in H. lia. }
  assert (Hall : forall k, emin prec emax + prec <= d + e + k -> d + e + k < emax ->
            binary_round_aux prec emax s m (e + k) l
            = rounded prec emax s M1 (d + e + k - prec)).
  { intros k Hk1 Hk2.
    assert (Ef : fexp prec emax (Zdigits2 m + (e + k)) = d + e + k - prec).
    { fold d. unfold fexp. lia. }
    rewrite binary_round_aux_loc; [|exact Hm|rewrite Ef; lia].
    rewrite Ef. replace (d + e + k - prec - (e + k)) with n by (unfold n; lia).
    reflexivity. }
  assert (Hfin : forall k, emin prec emax + prec <= d + e + k -> d + e + k < emax ->
            rounded prec emax s M1 (d + e + k - prec)
            = if M1 <? 2 ^ prec then S754_finite s (Z.to_pos M1) (d + e - prec + k)
              else S754_finite s (Z.to_pos (2 ^ (prec - 1))) (d + e - prec + 1 + k)).
  { intros k Hk1 Hk2. unfold rounded.
    destruct (Z.eqb_spec M1 0); [lia|].
    destruct (Z.ltb_spec M1 (2 ^ prec)).
    - destruct (Z.leb_spec (d + e + k - prec) (emax - prec)); [|lia]. f_equal. lia.
    - destruct (Z.leb_spec (d + e + k - prec + 1) (emax - prec)); [|lia]. f_equal. lia. }
  assert (H0 : binary_round_aux prec emax s m e l
               = if M1 <? 2 ^ prec then S754_finite s (Z.to_pos M1) (d + e - prec)
                 else S754_finite s (Z.to_pos (2 ^ (prec - 1))) (d + e - prec + 1)).
  { replace e with (e + 0) at 1 by lia. rewrite Hall by lia. rewrite Hfin by lia.
    rewrite !Z.add_0_r. reflexivity. }
  destruct (Z.ltb_spec M1 (2 ^ prec)) as [Hlt|Hge].
  - exists (Z.to_pos M1), (d + e - prec). split; [|split; [lia|split; [exact H0|]]].
    + change (Z.pos (digits2_pos (Z.to_pos M1))) with (Zdigits2 (Z.pos (Z.to_pos M1))).
      rewrite Z2Pos.id by lia. apply Z.le_antisymm.
      * apply Zdigits2_le; lia.
      * pose proof (Zdigits2_gt M1 (prec - 1)). lia.
    + intros k Hk1 Hk2. rewrite Hall, Hfin by assumption.
      destruct (Z.ltb_spec M1 (2 ^ prec)); [reflexivity|lia].
  - exists (Z.to_pos (2 ^ (prec - 1))), (d + e - prec + 1).
    split; [|split; [lia|split; [exact H0|]]].
    + change (Z.pos (digits2_pos (Z.to_pos (2 ^ (prec - 1)))))
        with (Zdigits2 (Z.pos (Z.to_pos (2 ^ (prec - 1))))).
      rewrite Z2Pos.id by lia. apply Z.le_antisymm.
      * apply Zdigits2_le; lia.
      * pose proof (Zdigits2_gt (2 ^ (prec - 1)) (prec - 1)). lia.
    + intros k Hk1 Hk2. rewrite Hall, Hfin by assumption.
      destruct (Z.ltb_spec M1 (2 ^ prec)); [lia|reflexivity].
Qed.

End Shift.

Section ShiftOps.
Variables prec emax : Z.
Hypothesis Hprec : 0 < prec.

Lemma digits_product (m1 m2 : positive) :
  Z.pos (digits2_pos m1) + Z.pos (digits2_pos m2) - 1 <= Z.pos (digits2_pos (m1 * m2))
  <= Z.pos (digits2_pos m1) + Z.pos (digits2_pos m2).
Proof.
  destruct (digits2_pos_bounds m1) as [L1 H1]. destruct (digits2_pos_bounds m2) as [L2 H2].
  set (d1 := Z.pos (digits2_pos m1)) in *. set (d2 := Z.pos (digits2_pos m2)) in *.
  assert (P1 : 0 < 2 ^ (d1 - 1)) by (apply Z.pow_pos_nonneg; lia).
  assert (P2 : 0 < 2 ^ (d2 - 1)) by (apply Z.pow_pos_nonneg; lia).
  change (Z.pos (digits2_pos (m1 * m2))) with (Zdigits2 (Z.pos (m1 * m2))).
  rewrite Pos2Z.inj_mul. split.
  - assert (d1 - 1 + (d2 - 1) < Zdigits2 (Z.pos m1 * Z.pos m2)); [|lia].
    apply Zdigits2_gt; try lia. rewrite Z.pow_add_r by lia. nia.
  - apply Zdigits2_le; try lia. rewrite Z.pow_add_r by lia. nia.
Qed.

(** The product of two normal numbers of the normal range, and of the same
    two numbers at other exponents. *)
Lemma SFmul_normal (sx sy : bool) (mx my : positive) (ex ey : Z) :
  Z.pos (digits2_pos mx) = prec -> Z.pos (digits2_pos my) = prec ->
  emin prec emax + prec <= 2 * prec + ex + ey - 1 -> 2 * prec + ex + ey < emax ->
  exists M E,
    Z.pos (digits2_pos M) = prec /\
    prec + ex + ey - 1 <= E <= prec + ex + ey + 1 /\
    SFmul prec emax (S754_finite sx mx ex) (S754_finite sy my ey)
      = S754_finite (xorb sx sy) M E /\
    forall k ex' ey', ex' + ey' = ex + ey + k ->
      emin prec emax + prec <= 2 * prec + ex + ey - 1 + k -> 2 * prec + ex + ey + k < emax ->
      SFmul prec emax (S754_finite sx mx ex') (S754_finite sy my ey')
        = S754_finite (xorb sx sy) M (E + k).
Proof.
  intros Dx Dy Hlo Hhi. pose proof (digits_product mx my) as Hd. rewrite Dx, Dy in Hd.
  destruct (binary_round_aux_normal prec emax Hprec (xorb sx sy) (Z.pos (mx * my)) (ex + ey)
              loc_Exact) as (M & E & HM & HE & H0 & Hk); cbn [Zdigits2]; try lia.
  cbn [Zdigits2] in HE, Hk.
  exists M, E. split; [exact HM|]. split; [lia|]. split; [exact H0|].
  intros k ex' ey' Hs Hk1 Hk2. cbn [SFmul]. rewrite Hs. apply Hk; lia.
Qed.

Lemma binary_round_normal (s : bool) (m : positive) (e : Z) :
  emin prec emax + prec <= Z.pos (digits2_pos m) + e -> Z.pos (digits2_pos m) + e < emax ->
  exists M E,
    Z.pos (digits2_pos M) = prec /\
    Z.pos (digits2_pos m) + e <= prec + E <= Z.pos (digits2_pos m) + e + 1 /\
    binary_round prec emax s m e = S754_finite s M E /\
    forall k, emin prec emax + prec <= Z.pos (digits2_pos m) + e + k ->
      Z.pos (digits2_pos m) + e + k < emax ->
      binary_round prec emax s m (e + k) = S754_finite s M (E + k).
Proof.
  intros Hlo Hhi. set (d := Z.pos (digits2_pos m)) in *.
  assert (Hf : forall k, emin prec emax + prec <= d + e + k ->
                 fexp prec emax (d + (e + k)) = d + e + k - prec).
  { intros k Hk. unfold fexp. lia. }
  destruct (shl_align_spec m e (d + e - prec)) as [Sm Se].
  assert (Hal : forall k, shl_align m (e + k) (d + e + k - prec)
                          = (fst (shl_align m e (d + e - prec)),
                             snd (shl_align m e (d + e - prec)) + k)).
  { intros k. unfold shl_align.
    replace (d + e + k - prec - (e + k)) with (d + e - prec - e) by lia.
    destruct (d + e - prec - e); cbn [fst snd]; f_equal; lia. }
  set (mz := fst (shl_align m e (d + e - prec))) in *.
  set (ez := snd (shl_align m e (d + e - prec))) in *.
  assert (Hdz : Zdigits2 (Z.pos mz) + ez = d + e).
  { rewrite Sm, Zdigits2_shift by lia. cbn [Zdigits2]. fold d. lia. }
  destruct (binary_round_aux_normal prec emax Hprec s (Z.pos mz) ez loc_Exact)
    as (M & E & HM & HE & H0 & Hk); try lia.
  exists M, E. split; [exact HM|]. split; [lia|]. split.
  - unfold binary_round. fold d.
    replace (fexp prec emax (d + e)) with (d + e - prec) by (unfold fexp; lia).
    rewrite (surjective_pairing (shl_align m e (d + e - prec))). exact H0.
  - intros k Hk1 Hk2. unfold binary_round. fold d. rewrite Hf by lia. rewrite Hal.
    apply Hk; lia.
Qed.

(** The sum of two positive numbers of the normal range. *)
Lemma SFadd_normal (ma mb : positive) (ea eb lo hi : Z) :
  lo <= Z.pos (digits2_pos ma) + ea <= hi -> lo <= Z.pos (digits2_pos mb) + eb <= hi ->
  emin prec emax + prec <= lo -> hi + 1 < emax ->
  exists M E,
    Z.pos (digits2_pos M) = prec /\
    lo <= prec + E <= hi + 2 /\
    SFadd prec emax (S754_finite false ma ea) (S754_finite false mb eb)
      = S754_finite false M E /\
    forall k, emin prec emax + prec <= lo + k -> hi + 1 + k < emax ->
      SFadd prec emax (S754_finite false ma (ea + k)) (S754_finite false mb (eb + k))
        = S754_finite false M (E + k).
Proof.
  intros Ha Hb Hlo Hhi.
  set (ez := Z.min ea eb).
  destruct (shl_align_spec ma ea ez) as [Sa Ta]. destruct (shl_align_spec mb eb ez) as [Sb Tb].
  assert (Hal : forall (m : positive) (e k : Z),
            fst (shl_align m (e + k) (ez + k)) = fst (shl_align m e ez)).
  { intros m e k. unfold shl_align. replace (ez + k - (e + k)) with (ez - e) by lia.
    destruct (ez - e); reflexivity. }
  set (a := fst (shl_align ma ea ez)) in *. set (b := fst (shl_align mb eb ez)) in *.
  replace (snd (shl_align ma ea ez)) with ez in Sa by (unfold ez in *; lia).
  replace (snd (shl_align mb eb ez)) with ez in Sb by (unfold ez in *; lia).
  destruct (digits2_pos_bounds ma) as [La Ua]. destruct (digits2_pos_bounds mb) as [Lb Ub].
  destruct (digits2_pos_bounds (a + b)) as [Ls Us].
  set (da := Z.pos (digits2_pos ma)) in *. set (db := Z.pos (digits2_pos mb)) in *.
  set (ds := Z.pos (digits2_pos (a + b))) in *.
  assert (Pa : 0 < 2 ^ (ea - ez)) by (apply Z.pow_pos_nonneg; unfold ez; lia).
  assert (Pb : 0 < 2 ^ (eb - ez)) by (apply Z.pow_pos_nonneg; unfold ez; lia).
  assert (Hmag : lo <= ds + ez <= hi + 1).
  { rewrite Pos2Z.inj_add, Sa, Sb in Ls, Us. split.
    - assert (da + (ea - ez) - 1 < ds); [|lia].
      apply Z.pow_lt_mono_r_iff with 2; try lia.
      eapply Z.le_lt_trans; [|exact Us].
      replace (da + (ea - ez) - 1) with (da - 1 + (ea - ez)) by lia.
      rewrite Z.pow_add_r by (unfold ez; lia). nia.
    - assert (ds - 1 < hi + 1 - ez); [|lia].
      apply Z.pow_lt_mono_r_iff with 2; try (unfold ez; lia).
      eapply Z.le_lt_trans; [exact Ls|].
      assert (Z.pos ma * 2 ^ (ea - ez) < 2 ^ (hi - ez)).
      { apply Z.lt_le_trans with (2 ^ da * 2 ^ (ea - ez)); [nia|].
        rewrite <- Z.pow_add_r by (unfold ez; lia). apply Z.pow_le_mono_r; lia. }
      assert (Z.pos mb * 2 ^ (eb - ez) < 2 ^ (hi - ez)).
      { apply Z.lt_le_trans with (2 ^ db * 2 ^ (eb - ez)); [nia|].
        rewrite <- Z.pow_add_r by (unfold ez; lia). apply Z.pow_le_mono_r; lia. }
      replace (hi + 1 - ez) with (Z.succ (hi - ez)) by lia.
      rewrite Z.pow_succ_r by (unfold ez; lia). lia. }
  destruct (binary_round_normal false (a + b) ez) as (M & E & HM & HE & H0 & Hk);
    fold ds; try lia.
  fold ds in HE, Hk.
  exists M, E. split; [exact HM|]. split; [lia|]. split.
  - cbn [SFadd cond_Zopp binary_normalize]. fold ez. fold a. fold b. exact H0.
  - intros k Hk1 Hk2. cbn [SFadd cond_Zopp].
    replace (Z.min (ea + k) (eb + k)) with (ez + k) by (unfold ez; lia).
    rewrite !Hal. fold a. fold b. cbn [Z.add binary_normalize]. apply Hk; lia.
Qed.

(** A quotient does not change when both exponents move together. *)
Lemma SFdiv_shift (sx sy : bool) (mx my : positive) (ex ey k : Z) :
  SFdiv prec emax (S754_finite sx mx (ex + k)) (S754_finite sy my (ey + k))
  = SFdiv prec emax (S754_finite sx mx ex) (S754_finite sy my ey).
Proof.
  cbn [SFdiv]. unfold SFdiv_core_binary.
  replace (Zdigits2 (Z.pos mx) + (ex + k) - (Zdigits2 (Z.pos my) + (ey + k)))
    with (Zdigits2 (Z.pos mx) + ex - (Zdigits2 (Z.pos my) + ey)) by lia.
  replace (ex + k - (ey + k)) with (ex - ey) by lia.
  reflexivity.
Qed.

End ShiftOps.

Section ShiftSqrt.
Variables prec emax : Z.
Hypothesis Hprec : 0 < prec.

(** The square root of a normal number of the normal range. *)
Lemma SFsqrt_normal (m : positive) (e : Z) :
  Z.pos (digits2_pos m) = prec ->
  emin prec emax + prec <= (prec + e) / 2 -> (prec + e + 1) / 2 < emax ->
  exists M E,
    Z.pos (digits2_pos M) = prec /\
    (prec + e) / 2 <= prec + E <= (prec + e + 1) / 2 + 1 /\
    SFsqrt prec emax (S754_finite false m e) = S754_finite false M E /\
    forall k, emin prec emax + prec <= (prec + e) / 2 + k -> (prec + e + 1) / 2 + k < emax ->
      SFsqrt prec emax (S754_finite false m (e + 2 * k)) = S754_finite false M (E + k).
Proof.
  intros Dm Hlo Hhi.
  set (e' := Z.min (fexp prec emax (Z.div2 (prec + e + 1))) (Z.div2 e)).
  assert (He' : forall k, emin prec emax + prec <= (prec + e) / 2 + k ->
            Z.min (fexp prec emax (Z.div2 (prec + (e + 2 * k) + 1))) (Z.div2 (e + 2 * k))
            = e' + k).
  { intros k Hk. unfold e', fexp. rewrite !Z.div2_div. revert Hlo Hk.
    generalize (emin prec emax). intros. Z.div_mod_to_equations. lia. }
  assert (Hb : (prec + e) / 2 <= prec + e' /\ 2 * e' <= e - prec + 1 /\ 2 * e' <= e).
  { unfold e', fexp. rewrite !Z.div2_div. revert Hlo.
    generalize (emin prec emax). intros. Z.div_mod_to_equations. lia. }
  clearbody e'.
  set (s := e - 2 * e') in *.
  assert (Es : s = e - 2 * e') by reflexivity. clearbody s.
  assert (Hs : prec - 1 <= s) by lia.
  set (m' := match s with Z.pos _ => Z.shiftl (Z.pos m) s | 0 => Z.pos m | Z.neg _ => 0 end).
  assert (Em' : m' = Z.pos m * 2 ^ s).
  { unfold m'. clear Es. destruct s as [|p|p]; try lia.
    cbv iota. apply Z.shiftl_mul_pow2. lia. }
  assert (Hcore : forall k, emin prec emax + prec <= (prec + e) / 2 + k ->
            SFsqrt_core_binary prec emax (Z.pos m) (e + 2 * k)
            = (fst (Z.sqrtrem m'), e' + k,
               if snd (Z.sqrtrem m') =? 0 then loc_Exact
               else loc_Inexact (if snd (Z.sqrtrem m') <=? fst (Z.sqrtrem m') then Lt else Gt))).
  { intros k Hk. unfold SFsqrt_core_binary. cbn [Zdigits2]. rewrite Dm, (He' k Hk).
    replace (e + 2 * k - 2 * (e' + k)) with s by lia. fold m'.
    destruct (Z.sqrtrem m'); reflexivity. }
  pose proof (Z.sqrtrem_spec m') as Hspec.
  destruct (Z.sqrtrem m') as [q r] eqn:Eqr. cbn [fst snd] in Hcore.
  destruct (digits2_pos_bounds m) as [Lm Um]. rewrite Dm in Lm, Um.
  assert (Ps : 0 < 2 ^ s) by (apply Z.pow_pos_nonneg; lia).
  assert (Pp : 0 < 2 ^ (prec - 1)) by (apply Z.pow_pos_nonneg; lia).
  destruct Hspec as [Hq Hr]; [lia|].
  assert (Hq0 : 0 <= q) by lia.
  (* the digits of the root *)
  set (t := (prec + s + 1) / 2).
  assert (Ht : prec <= t /\ prec + s <= 2 * t <= prec + s + 1)
    by (unfold t; Z.div_mod_to_equations; lia).
  assert (Hlow : 2 ^ (t - 1) <= q).
  { destruct (Z.le_gt_cases (2 ^ (t - 1)) q) as [|Hlt]; [assumption|exfalso].
    assert (q + 1 <= 2 ^ (t - 1)) by lia.
    assert (m' < (q + 1) * (q + 1)) by lia.
    assert ((q + 1) * (q + 1) <= 2 ^ (t - 1) * 2 ^ (t - 1)) by nia.
    rewrite <- Z.pow_add_r in * by lia.
    assert (2 ^ (t - 1 + (t - 1)) <= 2 ^ (prec - 1 + s)) by (apply Z.pow_le_mono_r; lia).
    rewrite (Z.pow_add_r 2 (prec - 1) s) in * by lia. nia. }
  assert (Hupp : q < 2 ^ t).
  { destruct (Z.lt_ge_cases q (2 ^ t)) as [|Hge]; [assumption|exfalso].
    assert (2 ^ t * 2 ^ t <= q * q) by nia.
    rewrite <- Z.pow_add_r in * by lia.
    assert (2 ^ (prec + s) <= 2 ^ (t + t)) by (apply Z.pow_le_mono_r; lia).
    rewrite (Z.pow_add_r 2 prec s) in * by lia. nia. }
  assert (Pt : 0 < 2 ^ (t - 1)) by (apply Z.pow_pos_nonneg; lia).
  assert (Hdq : Zdigits2 q = t).
  { apply Z.le_antisymm.
    - apply Zdigits2_le; lia.
    - pose proof (Zdigits2_gt q (t - 1)). lia. }
  assert (Hte : t + e' = (prec + e + 1) / 2)
    by (unfold t; Z.div_mod_to_equations; lia).
  destruct (binary_round_aux_normal prec emax Hprec false q e'
              (if r =? 0 then loc_Exact else loc_Inexact (if r <=? q then Lt else Gt)))
    as (M & E & HM & HE & H0 & Hk); rewrite ?Hdq; try lia.
  rewrite Hdq in HE, Hk.
  exists M, E. split; [exact HM|]. split; [lia|]. split.
  - cbn [SFsqrt]. replace e with (e + 2 * 0) by lia. rewrite Hcore by lia.
    rewrite Z.add_0_r. exact H0.
  - intros k Hk1 Hk2. cbn [SFsqrt]. rewrite Hcore by lia. apply Hk; lia.
Qed.

End ShiftSqrt.

(* ================================================================== *)
(** ** Numbers equal up to the sign of a zero *)

Lemma zeq_trans (x y z : spec_float) : zeq x y -> zeq y z -> zeq x z.
Proof.
  intros [->|[Hx Hy]] [->|[Hy' Hz]]; try (left; reflexivity); right; auto.
Qed.

Lemma zeq_sym (x y : spec_float) : zeq x y -> zeq y x.
Proof. intros [->|[Hx Hy]]; [left; reflexivity|right; auto]. Qed.

Lemma SFcompare_zeq (a a' b b' : spec_float) :
  zeq a a' -> zeq b b' -> SFcompare a b = SFcompare a' b'.
Proof.
  intros [->|[Ha Ha']] [->|[Hb Hb']]; try reflexivity.
  - destruct b as [sb| | |]; try discriminate. destruct b' as [sb'| | |]; try discriminate.
    destruct a' as [s|s| |s m e]; reflexivity.
  - destruct a as [sa| | |]; try discriminate. destruct a' as [sa'| | |]; try discriminate.
    destruct b' as [s|s| |s m e]; reflexivity.
  - destruct a as [sa| | |]; try discriminate. destruct a' as [sa'| | |]; try discriminate.
    destruct b as [sb| | |]; try discriminate. destruct b' as [sb'| | |]; try discriminate.
    reflexivity.
Qed.

Lemma SFconv_zeq (prec emax : Z) (a b : spec_float) :
  zeq a b -> zeq (SFconv prec emax a) (SFconv prec emax b).
Proof.
  intros [->|[Ha Hb]]; [left; reflexivity|].
  destruct a as [sa| | |]; try discriminate. destruct b as [sb| | |]; try discriminate.
  right. auto.
Qed.

Lemma sqr_zeq (a b : F32.t) : zeq a b -> F32.mul a a = F32.mul b b.
Proof.
  intros [->|[Ha Hb]]; [reflexivity|].
  destruct a as [sa| | |]; try discriminate. destruct b as [sb| | |]; try discriminate.
  cbn [F32.mul SFmul]. rewrite !xorb_nilpotent. reflexivity.
Qed.

Lemma SFadd_zero_l_zeq (prec emax : Z) (d x : spec_float) :
  is_zero d = true -> zeq (SFadd prec emax d x) x.
Proof.
  destruct d as [sd| | |]; try discriminate. intros _.
  destruct x as [sx|sx| |sx mx ex]; try apply zeq_refl.
  simpl. destruct sx, sd; apply zeq_zero; reflexivity.
Qed.

Lemma zero_mul_finite (x : F32.t) :
  is_finite x = true -> is_zero (F32.mul F32.zero x) = true.
Proof. destruct x; try discriminate; reflexivity. Qed.

Lemma mul_zero_finite (x : F32.t) :
  is_finite x = true -> is_zero (F32.mul x F32.zero) = true.
Proof. destruct x; try discriminate; reflexivity. Qed.

(** Multiplying a well-formed finite number by one gives the number. *)
Lemma SFmul_one_l (x : F32.t) :
  F32.valid x = true -> is_finite x = true -> F32.mul F32.one x = x.
Proof.
  destruct x as [s|s| |s m e]; try discriminate; intros V _.
  - destruct s; reflexivity.
  - unfold F32.valid, valid_binary, bounded, F32.prec, F32.emax in V.
    apply andb_true_iff in V. destruct V as [C B]. apply Z.leb_le in B.
    destruct (canonical_digits 24 128 m e C) as (He & Hm & _).
    unfold canonical_mantissa in C. apply Z.eqb_eq in C.
    change (F32.mul F32.one (S754_finite s m e))
      with (binary_round_aux 24 128 s (Z.pos (8388608 * m)) (-23 + e) loc_Exact).
    assert (Em : Z.pos (8388608 * m) = Z.pos m * 2 ^ 23) by (rewrite Pos2Z.inj_mul; lia).
    rewrite Em.
    assert (Hf : fexp 24 128 (Zdigits2 (Z.pos m * 2 ^ 23) + (-23 + e)) = e).
    { rewrite Zdigits2_shift by lia. cbn [Zdigits2]. rewrite <- C at 2. f_equal. lia. }
    destruct (binary_round_aux_rne 24 128 eq_refl s (Z.pos m * 2 ^ 23) (-23 + e))
      as (_ & _ & ->); [lia | rewrite Hf; lia |].
    rewrite Hf. replace (e - (-23 + e)) with 23 by lia.
    rewrite rne_exact by (try lia; apply Z.mod_mul; lia).
    rewrite Z.div_mul by lia. unfold rounded.
    destruct (Z.eqb_spec (Z.pos m) 0); [lia|].
    destruct (Z.ltb_spec (Z.pos m) (2 ^ 24)); [|lia].
    destruct (Z.leb_spec e (128 - 24)); [|lia].
    reflexivity.
Qed.

Lemma SFmul_one_r (x : F32.t) :
  F32.valid x = true -> is_finite x = true -> F32.mul x F32.one = x.
Proof.
  intros V F. unfold F32.mul. rewrite SFmul_comm. apply SFmul_one_l; assumption.
Qed.

Lemma finite_vec_cases (a : Vec3f) :
  finite_vec a = true ->
  (F32.valid (vx a) = true /\ is_finite (vx a) = true) /\
  (F32.valid (vy a) = true /\ is_finite (vy a) = true) /\
  (F32.valid (vz a) = true /\ is_finite (vz a) = true).
Proof.
  unfold finite_vec, valid_vec. rewrite !andb_true_iff. tauto.
Qed.

(** ** The hole in its own frame *)

(** Along the axis [z], the scalar product with the axis is the third
    coordinate. *)
Lemma axis_z_dot (p : Vec3f) :
  finite_vec p = true -> zeq (Vec3.dot axis_z p) (vz p).
Proof.
  intros H. destruct (finite_vec_cases p H) as ((_ & Fx) & (_ & Fy) & (Vz & Fz)).
  unfold Vec3.dot, axis_z. cbn [vx vy vz].
  rewrite (SFmul_one_l _ Vz Fz).
  eapply zeq_trans; [apply SFadd_zero_l_zeq, zero_mul_finite, Fx|].
  apply SFadd_zero_l_zeq, zero_mul_finite, Fy.
Qed.

Lemma axis_z_dot_finite (p : Vec3f) :
  finite_vec p = true ->
  F32.valid (Vec3.dot axis_z p) = true /\ is_finite (Vec3.dot axis_z p) = true.
Proof.
  intros H. destruct (finite_vec_cases p H) as (_ & _ & (Vz & Fz)).
  destruct (axis_z_dot p H) as [->|[Hd _]]; [auto|].
  destruct (Vec3.dot axis_z p); try discriminate. auto.
Qed.

Section OwnFrame.
Variable h : DrainHole.
Hypothesis Hpos : pos h = origin_vec.
Hypothesis Hnormal : normal h = axis_z.

(** The axial distance is the third coordinate. *)
Lemma frame_axial (p : Vec3f) :
  finite_vec p = true -> zeq (axial_distance h p) (vz p).
Proof.
  intros H. unfold axial_distance, Plane.signedDistance, Plane.make.
  cbn [pl_normal pl_offset]. rewrite Hpos, Hnormal.
  eapply zeq_trans; [|apply axis_z_dot, H].
  apply SFadd_zero_zeq. reflexivity.
Qed.

(** The squared distance to the axis is [x^2 + y^2]. *)
Lemma frame_radial (p : Vec3f) :
  finite_vec p = true ->
  radial_sqr_distance h p = (vx p * vx p + vy p * vy p)%f32.
Proof.
  intros H. destruct (finite_vec_cases p H) as ((Vx & Fx) & (Vy & Fy) & (Vz & Fz)).
  unfold radial_sqr_distance, Line.squaredDistance. cbn [origin direction].
  rewrite Hpos, Hnormal.
  assert (Ed : Vec3.sub p origin_vec = p).
  { destruct p as [x y z]. cbn [vx vy vz] in *.
    unfold Vec3.sub, Vec3.zip, origin_vec. cbn [vx vy vz].
    destruct x as [[]| | |]; try discriminate;
      destruct y as [[]| | |]; try discriminate;
      destruct z as [[]| | |]; try discriminate; reflexivity. }
  rewrite Ed.
  destruct (axis_z_dot_finite p H) as [Vw Fw].
  pose proof (axis_z_dot p H) as Hw.
  set (w := Vec3.dot axis_z p) in *.
  unfold Vec3.squaredNorm, Vec3.dot, Vec3.sub, Vec3.zip, Vec3.lscale, Vec3.map, axis_z.
  cbn [vx vy vz].
  rewrite (SFmul_one_r w Vw Fw).
  assert (Zx : zeq (F32.sub (vx p) (F32.mul w F32.zero)) (vx p)).
  { pose proof (mul_zero_finite w Fw) as Z0.
    destruct (F32.mul w F32.zero) as [s0| | |]; try discriminate.
    destruct (vx p) as [[]| | |]; try discriminate Fx; destruct s0;
      first [apply zeq_refl | apply zeq_zero; reflexivity]. }
  assert (Zy : zeq (F32.sub (vy p) (F32.mul w F32.zero)) (vy p)).
  { pose proof (mul_zero_finite w Fw) as Z0.
    destruct (F32.mul w F32.zero) as [s0| | |]; try discriminate.
    destruct (vy p) as [[]| | |]; try discriminate Fy; destruct s0;
      first [apply zeq_refl | apply zeq_zero; reflexivity]. }
  assert (Zz : is_zero (F32.sub (vz p) w) = true).
  { pose proof (zeq_sub_null F32.prec F32.emax (vz p) w (zeq_sym _ _ Hw)) as N.
    fold (F32.sub (vz p) w) in N.
    assert (Nn : is_nan (F32.sub (vz p) w) = false).
    { clear N Hw. destruct (vz p) as [| | |]; try discriminate Fz;
        destruct w as [| | |]; try discriminate Fw; try reflexivity.
      - destruct s, s0; reflexivity.
      - cbn. unfold binary_normalize.
        destruct (_ - _); try reflexivity;
          apply (proj1 (binary_round_sign F32.prec F32.emax _ _ _)). }
    destruct (F32.sub (vz p) w); try contradiction; try discriminate; reflexivity. }
  rewrite (sqr_zeq _ _ Zx), (sqr_zeq _ _ Zy).
  f_equal.
  destruct (F32.sub (vz p) w) as [sz| | |]; try discriminate.
  assert (Sy : signed_as false (F32.mul (vy p) (vy p))) by apply SFmul_self_sign.
  cbn [F32.mul SFmul]. rewrite xorb_nilpotent.
  destruct (F32.mul (vy p) (vy p)) as [[]|[]| |[]]; try discriminate Sy; reflexivity.
Qed.

End OwnFrame.

(* ================================================================== *)
(** ** Half of a number *)

Lemma div_eucl_div_mod (a b : Z) : Z.div_eucl a b = (a / b, a mod b).
Proof. unfold Z.div, Z.modulo. destruct (Z.div_eucl a b); reflexivity. Qed.

(** What the division computes before rounding when a well-formed [float]
    is divided by two. *)
Lemma div_two_core (m : positive) (e : Z) :
  canonical_mantissa 24 128 m e = true ->
  SFdiv_core_binary 24 128 (Z.pos m) e 8388608 (-22)
  = if -147 <=? e then (2 * Z.pos m, e - 2, loc_Exact)
    else if -148 <=? e then (Z.pos m, -149, loc_Exact)
    else (Z.pos m / 2, -149, if Z.even (Z.pos m) then loc_Exact else loc_Inexact Eq).
Proof.
  intros C. destruct (canonical_digits 24 128 m e C) as (He & Hm & Hn).
  unfold canonical_mantissa in C. apply Z.eqb_eq in C.
  unfold emin in He, Hn.
  destruct (digits2_pos_bounds m) as [Lm Um].
  set (d := Z.pos (digits2_pos m)) in *.
  assert (Hd : 1 <= d <= 24) by (unfold fexp, emin in C; lia).
  unfold SFdiv_core_binary. cbn [Zdigits2]. fold d.
  change (Z.pos (digits2_pos 8388608)) with 24.
  rewrite div_eucl_div_mod.
  change (new_location 8388608) with (new_location_even 8388608).
  destruct (Z.leb_spec (-147) e) as [H1|H1]; [|destruct (Z.leb_spec (-148) e) as [H2|H2]].
  - assert (Ed : d = 24) by (unfold fexp, emin in C; lia).
    replace (Z.min (fexp 24 128 (d + e - (24 + -22))) (e - -22)) with (e - 2)
      by (unfold fexp, emin; lia).
    replace (e - -22 - (e - 2)) with 24 by lia.
    rewrite Z.shiftl_mul_pow2 by lia.
    replace (Z.pos m * 2 ^ 24) with (2 * Z.pos m * 8388608) by lia.
    rewrite Z.div_mul, Z.mod_mul by lia. reflexivity.
  - assert (Ee : e = -148) by lia. subst e.
    replace (Z.min (fexp 24 128 (d + -148 - (24 + -22))) (-148 - -22)) with (-149)
      by (unfold fexp, emin; lia).
    change (-148 - -22 - -149) with 23.
    rewrite Z.shiftl_mul_pow2 by lia. change (2 ^ 23) with 8388608.
    rewrite Z.div_mul, Z.mod_mul by lia. reflexivity.
  - assert (Ee : e = -149) by lia. subst e.
    replace (Z.min (fexp 24 128 (d + -149 - (24 + -22))) (-149 - -22)) with (-149)
      by (unfold fexp, emin; lia).
    change (-149 - -22 - -149) with 22.
    rewrite Z.shiftl_mul_pow2 by lia. change (2 ^ 22) with 4194304.
    replace (Z.pos m * 4194304 / 8388608) with (Z.pos m / 2)
      by (Z.div_mod_to_equations; lia).
    replace ((Z.pos m * 4194304) mod 8388608) with (Z.pos m mod 2 * 4194304)
      by (Z.div_mod_to_equations; lia).
    f_equal. unfold new_location_even.
    rewrite Zeven_mod. destruct (Z.eqb_spec (Z.pos m mod 2) 0) as [E|E].
    + rewrite E. reflexivity.
    + assert (E1 : Z.pos m mod 2 = 1) by (pose proof (Z.mod_pos_bound (Z.pos m) 2); lia).
      rewrite E1. reflexivity.
Qed.

(** Half of a well-formed finite [float] is a well-formed finite [float],
    and not above the number when it is positive. *)
Lemma half_spec (x : F32.t) :
  F32.valid x = true -> is_finite x = true ->
  F32.valid (F32.div x F32.two) = true /\
  is_finite (F32.div x F32.two) = true /\
  (SFltb (S754_zero false) (F32.div x F32.two) = true ->
   SFleb (F32.div x F32.two) x = true).
Proof.
  destruct x as [s|s| |s m e]; try discriminate; intros V _.
  - destruct s; repeat split; discriminate.
  - unfold F32.valid, valid_binary, bounded, F32.prec, F32.emax in V.
    apply andb_true_iff in V. destruct V as [C B]. apply Z.leb_le in B.
    pose proof (div_two_core m e C) as Hc.
    destruct (canonical_digits 24 128 m e C) as (He & Hm & Hn).
    unfold emin in He, Hn.
    assert (Cc := C). unfold canonical_mantissa in Cc. apply Z.eqb_eq in Cc.
    change (F32.div (S754_finite s m e) F32.two)
      with (let '(mz, ez, lz) := SFdiv_core_binary 24 128 (Z.pos m) e 8388608 (-22) in
            binary_round_aux 24 128 (xorb s false) mz ez lz).
    rewrite Hc, xorb_false_r.
    assert (Hcase : -147 <= e \/ e = -148 \/ e = -149) by lia.
    destruct Hcase as [H1 | [H1 | H1]].
    + (* the exponent goes down by one *)
      destruct (Z.leb_spec (-147) e); [|lia].
      assert (Hd : Zdigits2 (2 * Z.pos m) = 25).
      { rewrite Z.mul_comm. change 2 with (2 ^ 1) at 1.
        rewrite Zdigits2_shift by lia. cbn [Zdigits2]. unfold fexp, emin in Cc. lia. }
      assert (Hf : fexp 24 128 (Zdigits2 (2 * Z.pos m) + (e - 2)) = e - 1).
      { rewrite Hd. unfold fexp, emin. lia. }
      destruct (binary_round_aux_rne 24 128 eq_refl s (2 * Z.pos m) (e - 2))
        as (_ & _ & ->); [lia | rewrite Hf; lia |].
      rewrite Hf. replace (e - 1 - (e - 2)) with 1 by lia.
      rewrite rne_exact by (try lia; rewrite Z.mul_comm; apply Z.mod_mul; lia).
      rewrite Z.pow_1_r, Z.mul_comm, Z.div_mul by lia.
      assert (Er : rounded 24 128 s (Z.pos m) (e - 1) = S754_finite s m (e - 1)).
      { unfold rounded. destruct (Z.eqb_spec (Z.pos m) 0); [lia|].
        destruct (Z.ltb_spec (Z.pos m) (2 ^ 24)); [|lia].
        destruct (Z.leb_spec (e - 1) (128 - 24)); [|lia]. reflexivity. }
      rewrite Er. split; [|split; [reflexivity|]].
      * unfold F32.valid, valid_binary, bounded, canonical_mantissa, F32.prec, F32.emax.
        apply andb_true_iff. split; [apply Z.eqb_eq|apply Z.leb_le; lia].
        unfold fexp, emin in *. lia.
      * destruct s; [discriminate|]. intros _. apply SFleb_finite. lia.
    + subst e.
      destruct (Z.leb_spec (-147) (-148)); [lia|].
      destruct (Z.leb_spec (-148) (-148)); [|lia].
      assert (Hf : fexp 24 128 (Zdigits2 (Z.pos m) + -149) = -149).
      { cbn [Zdigits2]. unfold fexp, emin in *. lia. }
      destruct (binary_round_aux_rne 24 128 eq_refl s (Z.pos m) (-149))
        as (_ & _ & ->); [lia | rewrite Hf; lia |].
      rewrite Hf. change (-149 - -149) with 0.
      rewrite rne_exact by (try lia; apply Z.mod_1_r).
      rewrite Z.pow_0_r, Z.div_1_r.
      assert (Er : rounded 24 128 s (Z.pos m) (-149) = S754_finite s m (-149)).
      { unfold rounded. destruct (Z.eqb_spec (Z.pos m) 0); [lia|].
        destruct (Z.ltb_spec (Z.pos m) (2 ^ 24)); [|lia]. reflexivity. }
      rewrite Er. split; [|split; [reflexivity|]].
      * unfold F32.valid, valid_binary, bounded, canonical_mantissa, F32.prec, F32.emax.
        apply andb_true_iff. split; [apply Z.eqb_eq|reflexivity].
        unfold fexp, emin in *. lia.
      * destruct s; [discriminate|]. intros _. apply SFleb_finite. lia.
    + subst e.
      destruct (Z.leb_spec (-147) (-149)); [lia|].
      destruct (Z.leb_spec (-148) (-149)); [lia|].
      set (l := if Z.even (Z.pos m) then loc_Exact else loc_Inexact Eq).
      destruct (Z.eq_dec (Z.pos m) 1) as [E1|N1].
      * assert (m = 1%positive) by lia. subst m.
        destruct s; repeat split; discriminate.
      * set (q := Z.pos m / 2) in *.
        assert (Hq : 1 <= q /\ q + 1 <= Z.pos m /\ q < 2 ^ 23).
        { unfold q. change (2 ^ 23) with 8388608. change (2 ^ 24) with 16777216 in Hm.
          Z.div_mod_to_equations. lia. }
        assert (Hdq : Zdigits2 q <= 23) by (apply Zdigits2_le; lia).
        assert (Hf : fexp 24 128 (Zdigits2 q + -149) = -149).
        { pose proof (Zdigits2_pos q). unfold fexp, emin. lia. }
        rewrite (binary_round_aux_loc 24 128 eq_refl s q (-149) l) by (rewrite ?Hf; lia).
        rewrite Hf. change (-149 - -149) with 0.
        rewrite Z.pow_0_r, Z.div_1_r.
        set (M1 := round_nearest_even q _).
        assert (HM1 : q <= M1 <= q + 1).
        { apply round_nearest_even_range. }
        assert (Er : rounded 24 128 s M1 (-149) = S754_finite s (Z.to_pos M1) (-149)).
        { unfold rounded. destruct (Z.eqb_spec M1 0); [lia|].
          change (2 ^ 23) with 8388608 in Hq.
          destruct (Z.ltb_spec M1 (2 ^ 24)); [|change (2 ^ 24) with 16777216 in *; lia].
          reflexivity. }
        split; [|split].
        -- apply (rounded_valid 24 128 eq_refl); unfold emin; lia.
        -- rewrite Er. reflexivity.
        -- rewrite Er. destruct s; [discriminate|]. intros _. apply SFleb_finite.
           right. split; [reflexivity|]. rewrite Z2Pos.id by lia. lia.
Qed.

(* ================================================================== *)
(** ** Containment for a hole at the origin along [z] *)

Lemma positive_conv (prec emax : Z) (x : spec_float) :
  SFltb (S754_zero false) (SFconv prec emax x) = true -> SFltb (S754_zero false) x = true.
Proof.
  destruct x as [s|[]| |[] m e]; simpl; intros H; try discriminate; try reflexivity.
  destruct (binary_round_sign prec emax true m e) as [N S].
  destruct (binary_round prec emax true m e) as [s'|s'| |s' m' e']; simpl in S;
    try discriminate; subst; discriminate.
Qed.

Section OwnFrameInside.
Variable EPSILON : F64.t.
Variable h : DrainHole.
Hypothesis Hpos : pos h = origin_vec.
Hypothesis Hnormal : normal h = axis_z.

(** For a hole at the origin along [z], the three tests bear on the
    coordinates of the point. *)
Lemma frame_is_inside (p : Vec3f) :
  finite_vec p = true ->
  is_inside EPSILON h p =
  negb (F64.of_float (vz p) <? EPSILON)%f64 && negb (vz p >? height h)%f32
  && (vx p * vx p + vy p * vy p <? F32.sqr (radius h))%f32.
Proof.
  intros H. rewrite is_inside_tests, (frame_radial h Hpos Hnormal p H).
  pose proof (frame_axial h Hpos Hnormal p H) as Hz.
  unfold F64.ltb, F32.gtb, SFltb, F64.of_float.
  rewrite (SFcompare_zeq _ _ _ _ (SFconv_zeq F64.prec F64.emax _ _ Hz) (zeq_refl EPSILON)).
  rewrite (SFcompare_zeq _ _ _ _ (zeq_refl (height h)) Hz). reflexivity.
Qed.

(** The axis midpoint lies on the axis, half the height above the base. *)
Lemma frame_center :
  F32.valid (height h) = true -> is_finite (height h) = true ->
  finite_vec (center h) = true /\
  is_zero (vx (center h)) = true /\ is_zero (vy (center h)) = true /\
  zeq (vz (center h)) (height h / F32.two)%f32.
Proof.
  intros V F. destruct (half_spec (height h) V F) as (Vc & Fc & _).
  unfold center. rewrite Hpos, Hnormal.
  unfold Vec3.add, Vec3.zip, Vec3.divs, Vec3.scale, Vec3.map, origin_vec, axis_z.
  cbn [vx vy vz]. rewrite (SFmul_one_l _ V F).
  set (c := (height h / F32.two)%f32) in *.
  assert (Z0 : exists s, (F32.zero + F32.zero * height h / F32.two)%f32 = S754_zero s).
  { destruct (height h) as [[]| | |[]]; try discriminate F; eexists; reflexivity. }
  destruct Z0 as [s0 E0]. rewrite E0.
  assert (Zc : zeq (F32.zero + c)%f32 c) by (apply SFadd_zero_l_zeq; reflexivity).
  assert (Vz : F32.valid (F32.zero + c)%f32 = true /\ is_finite (F32.zero + c)%f32 = true).
  { destruct Zc as [->|[Hz _]]; [auto|].
    destruct (F32.zero + c)%f32; try discriminate. auto. }
  destruct Vz as [Vz Fz].
  unfold finite_vec, valid_vec. cbn [vx vy vz]. rewrite Vz, Fz.
  repeat split; try reflexivity. exact Zc.
Qed.

(** With a positive tolerance, the midpoint is inside exactly when half
    the height reaches the tolerance and the squared radius is positive. *)
Lemma frame_midpoint :
  (F64.zero <? EPSILON)%f64 = true ->
  F32.valid (height h) = true -> is_finite (height h) = true ->
  is_inside EPSILON h (center h) =
  (EPSILON <=? F64.of_float (height h / F32.two)%f32)%f64
  && (F32.zero <? F32.sqr (radius h))%f32.
Proof.
  intros He V F. destruct (frame_center V F) as (Fc & Zx & Zy & Zz).
  destruct (half_spec (height h) V F) as (Vh & Fh & Hle).
  rewrite (frame_is_inside _ Fc).
  set (c := (height h / F32.two)%f32) in *.
  assert (Er : (vx (center h) * vx (center h) + vy (center h) * vy (center h))%f32 = F32.zero).
  { destruct (vx (center h)) as [[]| | |]; try discriminate Zx;
      destruct (vy (center h)) as [[]| | |]; try discriminate Zy; reflexivity. }
  rewrite Er. f_equal.
  unfold F64.ltb, F32.gtb, SFltb, F64.of_float.
  rewrite (SFcompare_zeq _ _ _ _ (SFconv_zeq F64.prec F64.emax _ _ Zz) (zeq_refl EPSILON)).
  rewrite (SFcompare_zeq _ _ _ _ (zeq_refl (height h)) Zz).
  fold (SFltb (SFconv F64.prec F64.emax c) EPSILON). fold (SFltb (height h) c).
  destruct (SFltb_not_nan _ _ He) as [_ Ne].
  assert (Nc : is_nan c = false) by (destruct c; try discriminate Fh; reflexivity).
  assert (Nh : is_nan (height h) = false) by (destruct (height h); try discriminate F; reflexivity).
  pose proof (SFconv_not_nan F64.prec F64.emax c Nc) as Nc'.
  unfold F64.leb. rewrite (SFleb_negb_ltb _ _ Nc' Ne).
  destruct (SFltb (SFconv F64.prec F64.emax c) EPSILON) eqn:T; [reflexivity|].
  cbn [negb andb].
  assert (Hec : SFleb EPSILON (SFconv F64.prec F64.emax c) = true).
  { rewrite (SFleb_negb_ltb _ _ Nc' Ne), T. reflexivity. }
  pose proof (positive_conv _ _ _ (SFltb_leb_trans _ _ _ He Hec)) as Hpos'.
  specialize (Hle Hpos'). fold c in Hle.
  rewrite (SFleb_negb_ltb _ _ Nh Nc) in Hle.
  destruct (SFltb (height h) c); [discriminate Hle|reflexivity].
Qed.

End OwnFrameInside.

Lemma not_ltb_cases (x y : spec_float) :
  SFltb x y = false <-> SFleb y x = true \/ is_nan x = true \/ is_nan y = true.
Proof.
  destruct (is_nan x) eqn:Nx.
  { apply is_nan_eq in Nx. subst x. split; [auto|reflexivity]. }
  destruct (is_nan y) eqn:Ny.
  { apply is_nan_eq in Ny. subst y. split; [auto|intros _; apply SFltb_nan_r]. }
  rewrite (SFleb_negb_ltb x y Nx Ny). destruct (SFltb x y); simpl; split; auto.
  intros [H|[H|H]]; discriminate.
Qed.

Lemma is_nan_conv (prec emax : Z) (x : spec_float) :
  is_nan (SFconv prec emax x) = is_nan x.
Proof.
  destruct x as [s|s| |s m e]; try reflexivity.
  apply (SFconv_not_nan prec emax (S754_finite s m e)). reflexivity.
Qed.

(* ================================================================== *)
(** ** Containment: the three tests *)

(** The distance overflows for a hole far from the origin: the point at
    the base centre of [far_hole], whose axial distance is zero, is not at
    a distance within [[EPSILON, height]], and is reported inside. *)
Lemma overflowing_distance_inside :
  (f32_0_6 = (f32 6 / f32 10)%f32 /\ f32_0_8 = (f32 8 / f32 10)%f32) /\
  finite_vec (pos far_hole) = true /\ finite_vec (normal far_hole) = true /\
  Vec3.norm (normal far_hole) = F32.one /\
  (radius far_hole >? F32.zero)%f32 = true /\ (height far_hole >? F32.zero)%f32 = true /\
  Vec3.dot (normal far_hole) (pos far_hole) = S754_infinity false /\
  axial_distance far_hole (pos far_hole) = S754_nan /\
  (EPSILON_1e4 <=? F64.of_float (axial_distance far_hole (pos far_hole)))%f64 = false /\
  (axial_distance far_hole (pos far_hole) <=? height far_hole)%f32 = false /\
  (forall EPSILON : F64.t, is_inside EPSILON far_hole (pos far_hole) = true).
Proof.
  split; [split; vm_compute; reflexivity|].
  do 9 (split; [vm_compute; reflexivity|]).
  intros EPSILON. rewrite is_inside_tests.
  change (axial_distance far_hole (pos far_hole)) with S754_nan.
  change (radial_sqr_distance far_hole (pos far_hole) <? F32.sqr (radius far_hole))%f32
    with true.
  reflexivity.
Qed.

(** C1 (amended).  [is_inside] answers true exactly when the axial signed
    distance of the point from the base plane is neither below [EPSILON]
    nor above the height, and the squared distance of the point to the
    axis is strictly below the squared radius.  When the distance, the
    tolerance and the height are numbers, the first two tests say that the
    distance lies in the closed interval [[EPSILON, height]]; a distance
    that is not a number passes both.  For a hole at the origin along [z]
    and a point with finite coordinates [(x, y, z)] the tests are
    [EPSILON <= z <= height] and [x * x + y * y < radius * radius].  The
    function is pure: it only reads the hole and returns the flag. *)
Theorem is_inside_iff (EPSILON : F64.t) (h : DrainHole) (pt : Vec3f) :
  let dist := axial_distance h pt in
  (is_inside EPSILON h pt = true <->
   ((EPSILON <=? F64.of_float dist)%f64 = true \/
    is_nan dist = true \/ is_nan EPSILON = true) /\
   ((dist <=? height h)%f32 = true \/
    is_nan dist = true \/ is_nan (height h) = true) /\
   (radial_sqr_distance h pt <? F32.sqr (radius h))%f32 = true) /\
  (is_nan dist = false -> is_nan EPSILON = false -> is_nan (height h) = false ->
   (is_inside EPSILON h pt = true <->
    ((EPSILON <=? F64.of_float dist)%f64 = true /\ (dist <=? height h)%f32 = true) /\
    (radial_sqr_distance h pt <? F32.sqr (radius h))%f32 = true)) /\
  (pos h = origin_vec -> normal h = axis_z -> finite_vec pt = true ->
   is_nan EPSILON = false -> is_nan (height h) = false ->
   (is_inside EPSILON h pt = true <->
    ((EPSILON <=? F64.of_float (vz pt))%f64 = true /\ (vz pt <=? height h)%f32 = true) /\
    (vx pt * vx pt + vy pt * vy pt <? radius h * radius h)%f32 = true)).
Proof.
  cbv zeta. split; [|split].
  - rewrite is_inside_tests, !andb_true_iff, !negb_true_iff.
    unfold F64.ltb, F32.gtb, F64.leb, F32.leb, F64.of_float.
    rewrite !not_ltb_cases, is_nan_conv. tauto.
  - intros Hd He Hh. rewrite (is_inside_closed_interval EPSILON h pt He Hh Hd).
    rewrite !andb_true_iff. reflexivity.
  - intros Hp Hn Hf He Hh. rewrite (frame_is_inside EPSILON h Hp Hn pt Hf).
    destruct (finite_vec_cases pt Hf) as (_ & _ & (_ & Fz)).
    assert (Nz : is_nan (vz pt) = false) by (destruct (vz pt); try discriminate Fz; reflexivity).
    pose proof (SFconv_not_nan F64.prec F64.emax _ Nz) as Nz'.
    unfold F64.leb, F32.leb, F64.ltb, F32.gtb, F64.of_float, F32.sqr.
    rewrite (SFleb_negb_ltb _ _ Nz' He), (SFleb_negb_ltb _ _ Hh Nz).
    rewrite !andb_true_iff. reflexivity.
Qed.

Lemma is_inside_iff_witness :
  is_inside EPSILON_1e4 hole_unit_z (vec3 0 0 1) = true <->
  ((EPSILON_1e4 <=? F64.of_float (f32 1))%f64 = true /\ (f32 1 <=? f32 2)%f32 = true) /\
  (f32 0 * f32 0 + f32 0 * f32 0 <? f32 1 * f32 1)%f32 = true.
Proof.
  destruct (is_inside_iff EPSILON_1e4 hole_unit_z (vec3 0 0 1)) as (_ & _ & Hframe).
  apply Hframe; reflexivity.
Defined.

(* ================================================================== *)
(** ** Containment: the axis midpoint *)



(* ================================================================== *)
(** ** Intersections: a direction rescaled by a power of two *)

Lemma moderate_cases (x : F32.t) :
  moderate x = true ->
  (exists s, x = S754_zero s) \/
  exists s m e, x = S754_finite s m e /\ Z.pos (digits2_pos m) = 24 /\ -54 <= e <= 6.
Proof.
  destruct x as [s|s| |s m e]; try discriminate; intros H.
  - left. exists s. reflexivity.
  - right. cbn [moderate] in H. apply andb_true_iff in H. destruct H as [H H3].
    apply andb_true_iff in H. destruct H as [H1 H2].
    apply Z.eqb_eq in H1. apply Z.leb_le in H2. apply Z.leb_le in H3.
    exists s, m, e. auto.
Qed.

Lemma moderate_valid (x : F32.t) : moderate x = true -> F32.valid x = true.
Proof.
  intros H. destruct (moderate_cases x H) as [[s ->]|(s & m & e & -> & Dm & He)].
  - reflexivity.
  - unfold F32.valid, valid_binary, bounded, canonical_mantissa, F32.prec, F32.emax.
    rewrite Dm. apply andb_true_iff. split; [apply Z.eqb_eq|apply Z.leb_le; lia].
    unfold fexp, emin. lia.
Qed.

Section PowerOfTwo.
Variable k : Z.
Hypothesis Hk : -30 <= k <= 30.

(** Multiplying a moderate number by [2^k] moves its exponent. *)
Lemma mul_pow2_moderate (x : F32.t) :
  moderate x = true -> F32.mul (f32_pow2 k) x = shift_exp k x.
Proof.
  intros H. destruct (moderate_cases x H) as [[s ->]|(s & m & e & -> & Dm & He)].
  - reflexivity.
  - destruct (SFmul_normal 24 128 eq_refl false s 8388608 m (-23) e)
      as (M & E & HM & HE & H0 & Hs); try reflexivity; try assumption;
      try (unfold emin; lia).
    change (SFmul 24 128 (S754_finite false 8388608 (-23)) (S754_finite s m e))
      with (F32.mul F32.one (S754_finite s m e)) in H0.
    rewrite SFmul_one_l in H0; [|apply moderate_valid, H|reflexivity].
    injection H0 as <- <-.
    unfold F32.mul, f32_pow2, F32.prec, F32.emax. cbn [shift_exp].
    apply (Hs k (k - 23) e); unfold emin; lia.
Qed.

(** The square of a moderate number. *)
Lemma sqr_moderate (x : F32.t) :
  moderate x = true ->
  positive_within (-61) 61 (F32.mul x x) /\
  F32.mul (shift_exp k x) (shift_exp k x) = shift_exp (2 * k) (F32.mul x x) /\
  (F32.mul x x = S754_zero false -> is_zero x = true).
Proof.
  intros H. destruct (moderate_cases x H) as [[s ->]|(s & m & e & -> & Dm & He)].
  - cbn. rewrite xorb_nilpotent. split; [left; reflexivity|]. split; reflexivity.
  - destruct (SFmul_normal 24 128 eq_refl s s m m e e)
      as (M & E & HM & HE & H0 & Hs); try assumption; try (unfold emin; lia).
    rewrite xorb_nilpotent in H0, Hs.
    unfold F32.mul, F32.prec, F32.emax. rewrite H0. split; [|split].
    + right. exists M, E. split; [reflexivity|]. split; [exact HM|lia].
    + cbn [shift_exp]. apply Hs; unfold emin; lia.
    + discriminate.
Qed.

(** The sum of two squares, or of sums of squares. *)
Lemma add_positive_within (lo hi : Z) (a b : F32.t) :
  -65 <= lo -> hi <= 66 ->
  positive_within lo hi a -> positive_within lo hi b ->
  positive_within lo (hi + 2) (F32.add a b) /\
  F32.add (shift_exp (2 * k) a) (shift_exp (2 * k) b) = shift_exp (2 * k) (F32.add a b) /\
  (F32.add a b = S754_zero false -> a = S754_zero false /\ b = S754_zero false).
Proof.
  intros Hlo Hhi [->|(ma & ea & -> & Da & Ha)] [->|(mb & eb & -> & Db & Hb)].
  - cbn. split; [left; reflexivity|]. split; auto.
  - cbn. split; [right; exists mb, eb; repeat split; try assumption; lia|].
    split; [reflexivity|discriminate].
  - cbn. split; [right; exists ma, ea; repeat split; try assumption; lia|].
    split; [reflexivity|discriminate].
  - destruct (SFadd_normal 24 128 eq_refl ma mb ea eb lo hi)
      as (M & E & HM & HE & H0 & Hs); rewrite ?Da, ?Db; try lia; try (unfold emin; lia).
    unfold F32.add, F32.prec, F32.emax. rewrite H0. split; [|split].
    + right. exists M, E. split; [reflexivity|]. split; [exact HM|lia].
    + cbn [shift_exp]. apply Hs; unfold emin; lia.
    + discriminate.
Qed.

Lemma positive_within_weaken (lo hi hi' : Z) (x : F32.t) :
  hi <= hi' -> positive_within lo hi x -> positive_within lo hi' x.
Proof.
  intros H [->|(m & e & -> & D & He)]; [left; reflexivity|].
  right. exists m, e. repeat split; try assumption; lia.
Qed.

(** The squared norm of a moderate vector scales by [2^(2k)]. *)
Lemma squaredNorm_moderate (v : Vec3f) :
  moderate_vec v = true ->
  positive_within (-61) 65 (Vec3.squaredNorm v) /\
  Vec3.squaredNorm (shift_vec k v) = shift_exp (2 * k) (Vec3.squaredNorm v) /\
  (Vec3.squaredNorm v = S754_zero false -> zero_vector v = true).
Proof.
  intros H. unfold moderate_vec in H.
  apply andb_true_iff in H. destruct H as [H Hz].
  apply andb_true_iff in H. destruct H as [Hx Hy].
  destruct (sqr_moderate _ Hx) as (Px & Sx & Zx).
  destruct (sqr_moderate _ Hy) as (Py & Sy & Zy).
  destruct (sqr_moderate _ Hz) as (Pz & Sz & Zz).
  destruct (add_positive_within (-61) 61 _ _ ltac:(lia) ltac:(lia) Py Pz) as (Pyz & Syz & Zyz).
  destruct (add_positive_within (-61) 63 _ _ ltac:(lia) ltac:(lia)
              (positive_within_weaken (-61) 61 63 _ ltac:(lia) Px) Pyz) as (Pn & Sn & Zn).
  unfold Vec3.squaredNorm, Vec3.dot, shift_vec, Vec3.map. cbn [vx vy vz].
  split; [exact Pn|]. split.
  - rewrite Sx, Sy, Sz, Syz, Sn. reflexivity.
  - intros E. destruct (Zn E) as [Ex Eyz]. destruct (Zyz Eyz) as [Ey Ez].
    unfold zero_vector. rewrite (Zx Ex), (Zy Ey), (Zz Ez). reflexivity.
Qed.

(** The norm scales by [2^k]. *)
Lemma sqrt_positive_within (m : positive) (e : Z) :
  Z.pos (digits2_pos m) = 24 -> -61 <= 24 + e <= 65 ->
  exists M E,
    F32.sqrt (S754_finite false m e) = S754_finite false M E /\
    F32.sqrt (S754_finite false m (e + 2 * k)) = S754_finite false M (E + k).
Proof.
  intros Dm He.
  destruct (SFsqrt_normal 24 128 eq_refl m e Dm) as (M & E & _ & _ & H0 & Hs);
    try (unfold emin; Z.div_mod_to_equations; lia).
  exists M, E. split; [exact H0|].
  apply Hs; unfold emin; Z.div_mod_to_equations; lia.
Qed.

Lemma div_moderate (x : F32.t) (M : positive) (E : Z) :
  moderate x = true ->
  F32.div (shift_exp k x) (S754_finite false M (E + k)) = F32.div x (S754_finite false M E).
Proof.
  intros H. destruct (moderate_cases x H) as [[s ->]|(s & m & e & -> & _)].
  - reflexivity.
  - apply SFdiv_shift.
Qed.

(** Rescaling a moderate vector by [2^k] does not change its
    normalization. *)
Lemma normalized_pow2 (v : Vec3f) :
  moderate_vec v = true ->
  Vec3.normalized (Vec3.lscale (f32_pow2 k) v) = Vec3.normalized v.
Proof.
  intros H. pose proof H as H'. unfold moderate_vec in H'.
  apply andb_true_iff in H'. destruct H' as [H' Hz].
  apply andb_true_iff in H'. destruct H' as [Hx Hy].
  assert (El : Vec3.lscale (f32_pow2 k) v = shift_vec k v).
  { unfold Vec3.lscale, shift_vec, Vec3.map.
    rewrite !mul_pow2_moderate by assumption. reflexivity. }
  rewrite El. destruct (squaredNorm_moderate v H) as (Pn & Sn & Zn).
  unfold Vec3.normalized. rewrite Sn.
  destruct Pn as [E0|(m & e & En & Dm & He)].
  - rewrite E0. cbn [shift_exp]. cbn.
    specialize (Zn E0). unfold zero_vector in Zn.
    apply andb_true_iff in Zn. destruct Zn as [Zn Z3].
    apply andb_true_iff in Zn. destruct Zn as [Z1 Z2].
    destruct v as [[] [] []]; try discriminate; reflexivity.
  - rewrite En. cbn [shift_exp].
    destruct (sqrt_positive_within m e Dm He) as (M & E & R0 & Rk).
    rewrite R0, Rk.
    change (F32.gtb (S754_finite false m (e + 2 * k)) F32.zero) with true.
    change (F32.gtb (S754_finite false m e) F32.zero) with true.
    cbv iota. unfold Vec3.divs, shift_vec, Vec3.map. cbn [vx vy vz].
    rewrite !div_moderate by assumption. reflexivity.
Qed.

End PowerOfTwo.

(** C9 (amended).  Rescaling the direction by a power of two [2^k], with
    [k] between -30 and 30, changes nothing when every coordinate of the
    direction is a zero or a normal number of magnitude at least 2^-31 and
    below 2^30: the rescaled direction has the same normalization, bit for
    bit, so the same flag and the same hits are returned. *)
Theorem get_intersections_pow2_rescaling (is_approx : F32.t -> F32.t -> bool)
    (h : DrainHole) (s dir : Vec3f) (k : Z) :
  -30 <= k <= 30 -> moderate_vec dir = true ->
  (F32.zero <? f32_pow2 k)%f32 = true /\
  Vec3.normalized (Vec3.lscale (f32_pow2 k) dir) = Vec3.normalized dir /\
  get_intersections is_approx h s (Vec3.lscale (f32_pow2 k) dir)
    = get_intersections is_approx h s dir.
Proof.
  intros Hk Hm. split; [reflexivity|].
  pose proof (normalized_pow2 k Hk dir Hm) as E. split; [exact E|].
  apply get_intersections_normalized, E.
Qed.

Lemma get_intersections_pow2_rescaling_witness :
  get_intersections is_approx_eps hole_unit_z (vec3 (-2) (-2) (-1))
      (Vec3.lscale (f32_pow2 (-7)) (vec3 1 1 1))
    = get_intersections is_approx_eps hole_unit_z (vec3 (-2) (-2) (-1)) (vec3 1 1 1).
Proof.
  apply (get_intersections_pow2_rescaling is_approx_eps hole_unit_z
           (vec3 (-2) (-2) (-1)) (vec3 1 1 1) (-7)); [lia | reflexivity].
Defined.
